(** * The per-endpoint session manager of the MAS GUI: [Provider.ts]

    A shallow embedding of the [Provider] class
    (fkie_mas_gui/src/renderer/providers/Provider.ts): the call dispatcher
    ([makeCall], [lockRequest], [unlockRequest]), the connection state
    machine ([setConnectionState]), the echo subscriptions
    ([startSubscriber], [stopSubscriber]), the discovery pull
    ([updateProviderList]), the node and launch-file merge ([updateRosNodes],
    [updateLaunchContent]), the diagnostics merge ([updateDiagnostics]) and
    the clock-skew estimator ([calcTimeDiff]).

    Asynchronous methods are functions in a small monad [Async]: they take
    the provider object, and give back how the promise settles, the provider
    afterwards and the effects on the outside world in program order
    (emitted custom events, transport operations, timers).  Calls to the
    optional logger and to the console are left out: they do not feed back
    into the session. *)

From Stdlib Require Import ZArith String Ascii List Lia Bool Floats.
From stdpp Require Import base decidable option list gmap strings pretty.

Import ListNotations.
Local Open Scope string_scope.
Local Open Scope Z_scope.
Local Open Scope list_scope.

(** ** JavaScript string built-ins used by the class *)

Module JsString.

(** [s.includes(sub)], also [s.indexOf(sub) !== -1]. *)
Fixpoint includes (sub s : string) : bool :=
  String.prefix sub s ||
  match s with
  | EmptyString => false
  | String _ s' => includes sub s'
  end.

(** [s.startsWith(p)]. *)
Definition startsWith (p s : string) : bool := String.prefix p s.

Fixpoint drop (n : nat) (s : string) : string :=
  match n, s with
  | S n', String _ s' => drop n' s'
  | _, _ => s
  end.

(** [s.replace(pat, rep)] with a string pattern: the first occurrence
    only.  The class only calls it with [rep = ''], so the [$]-patterns of
    the replacement text play no part. *)
Fixpoint replace (pat rep s : string) : string :=
  if String.prefix pat s then rep +:+ drop (String.length pat) s
  else match s with
       | EmptyString => EmptyString
       | String c s' => String c (replace pat rep s')
       end.

(** [s.replaceAll(c, d)] for one-character strings [c] and [d], the only
    form the class uses. *)
Fixpoint replaceAll (c d : ascii) (s : string) : string :=
  match s with
  | EmptyString => EmptyString
  | String a s' => String (if Ascii.eqb a c then d else a) (replaceAll c d s')
  end.

(** [s.split(sep)[0]] for a one-character separator. *)
Fixpoint split_first (sep : ascii) (s : string) : string :=
  match s with
  | EmptyString => EmptyString
  | String a s' => if Ascii.eqb a sep then EmptyString else String a (split_first sep s')
  end.

(** [s.split(sep).slice(-1).at(0)] for a one-character separator: the last
    segment, which is [''] for the empty string. *)
Fixpoint split_last_from (sep : ascii) (acc s : string) : string :=
  match s with
  | EmptyString => acc
  | String a s' =>
      if Ascii.eqb a sep then split_last_from sep EmptyString s'
      else split_last_from sep (acc +:+ String a EmptyString) s'
  end.

Definition split_last (sep : ascii) (s : string) : string :=
  split_last_from sep EmptyString s.

(** Truthiness of a string: [''] is falsy. *)
Definition truthy (s : string) : bool :=
  match s with EmptyString => false | _ => true end.

End JsString.

(** [[...new Set(l)]]: duplicates removed, first occurrences kept in order. *)
Fixpoint dedupe_from (seen l : list string) : list string :=
  match l with
  | [] => []
  | x :: l' =>
      if bool_decide (x ∈ seen) then dedupe_from seen l'
      else x :: dedupe_from (x :: seen) l'
  end.

Definition dedupe (l : list string) : list string := dedupe_from [] l.

(** ** Values crossing the transport *)

(** Scalar JSON values: parameter values and simple call results. *)
Inductive Scalar :=
| SNull
| SBool (b : bool)
| SNumber (z : Z)
| SString (s : string).

(** models/Diagnostics.ts *)
Inductive DiagnosticLevel := OK | WARN | ERROR | STALE.

Record DiagnosticKeyValue := {
  kv_key : string;
  kv_value : string;
}.

Record DiagnosticStatus := {
  level : DiagnosticLevel;
  ds_name : string;
  message : string;
  hardware_id : string;
  values : list DiagnosticKeyValue;
}.

Record DiagnosticArray := {
  timestamp : Z;
  da_status : list DiagnosticStatus;
}.

#[global] Instance DiagnosticLevel_eq_dec : EqDecision DiagnosticLevel.
Proof. solve_decision. Defined.

(** models/Diagnostics.ts: the number of a level of the enumeration. *)
Definition level_number (lvl : DiagnosticLevel) : Z :=
  match lvl with OK => 0 | WARN => 1 | ERROR => 2 | STALE => 3 end.

(** [getMaxDiagnosticLevel(lvl1, lvl2)] *)
Definition getMaxDiagnosticLevel (lvl1 lvl2 : DiagnosticLevel) : DiagnosticLevel :=
  let maxLvl := if level_number lvl1 <? level_number lvl2 then lvl2 else lvl1 in
  if bool_decide (maxLvl = STALE) then
    let minLvl := if level_number lvl2 <? level_number lvl1 then lvl2 else lvl1 in
    if negb (bool_decide (minLvl = OK)) then minLvl else maxLvl
  else maxLvl.

(** The peer descriptor ([RosProviderState]); the fields read by
    [updateProviderList], [name] and the node filters. *)
Record RosProviderState := {
  origin : bool;
  ps_name : string;
  ps_host : string;
  ps_hostnames : list string;
  ps_ros_version : string;
  ps_port : Z;
  ps_masteruri : string;
}.

Definition new_RosProviderState : RosProviderState :=
  {| origin := false; ps_name := ""; ps_host := ""; ps_hostnames := [];
     ps_ros_version := ""; ps_port := 0; ps_masteruri := "" |}.

Record RosTopic := {
  rt_name : string;
  msgtype : string;
  rt_publisher : list string;
  rt_subscriber : list string;
}.

Record RosService := {
  rs_name : string;
  srvtype : string;
  rs_masteruri : string;
  service_API_URI : string;
  rs_provider : list string;
  rs_location : string;
}.

(** [n.location] is declared a string and tested with [instanceof Array]:
    both shapes arrive. *)
Inductive Location :=
| LocString (s : string)
| LocArray (l : list string).

(** The raw node record of [getNodeList] ([IRosNode]). *)
Record IRosNode := {
  raw_id : string;
  raw_name : string;
  raw_status : string;
  raw_namespace : string;
  raw_node_API_URI : string;
  raw_pid : Z;
  raw_masteruri : string;
  raw_location : Location;
  raw_publishers : list RosTopic;
  raw_subscribers : list RosTopic;
  raw_services : list RosService;
  raw_screens : list string;
  raw_system_node : bool;
  raw_parent_id : option string;
}.

Record RosParameter := {
  rp_name : string;
  rp_value : Scalar;
  rp_type : string;
  rp_providerId : string;
}.

(** A node declaration of a launch file; [None] is a missing member. *)
Record LaunchNode := {
  unique_name : option string;
  node_namespace : option string;
  composable_container : option string;
}.

Record LaunchAssociations := {
  la_node : string;
  la_nodes : list string;
}.

Record LaunchContent := {
  lc_path : string;
  lc_args : list (string * string);
  lc_masteruri : string;
  lc_host : string;
  lc_nodes : list LaunchNode;
  lc_parameters : list RosParameter;
  lc_associations : list LaunchAssociations;
}.

Inductive RosNodeStatus := ST_UNKNOWN | ST_RUNNING | ST_INACTIVE | ST_NOT_MONITORED | ST_DEAD.

#[global] Instance RosNodeStatus_eq_dec : EqDecision RosNodeStatus.
Proof. solve_decision. Defined.

Record Tag := {
  tag_text : string;
  tag_color : option string;
}.

(** A reference to an object of the JavaScript heap. *)
Definition Ref := nat.

(** [RosNode].  The diagnostic history is an array and the launch paths a
    [Set]; both are mutated in place ([push], [add]) and handed from an old
    node object to its successor by reference, so the node holds references
    into the object store of the provider. *)
Record RosNode := {
  id : string;
  name : string;
  namespace : string;
  node_API_URI : string;
  status : RosNodeStatus;
  pid : Z;
  masteruri : string;
  location : Location;
  system_node : bool;
  parent_id : option string;
  publishers : list (string * RosTopic);
  subscribers : list (string * RosTopic);
  services : list (string * RosService);
  screens : list string;
  idGlobal : string;
  providerName : string;
  providerId : string;
  diagnosticStatus : Ref;
  diagnosticLevel : DiagnosticLevel;
  diagnosticMessage : string;
  launchPaths : Ref;
  launchPath : string;
  group : string;
  launchInfo : option LaunchNode;
  rosLoggers : list (string * string);
  parameters : list (string * Scalar);
  associations : list string;
  tags : list Tag;
}.

(** The argument of [startSubscriber]. *)
Record SubscriberNode := {
  topic : string;
  message_type : string;
}.

(** Arguments of a remote call. *)
Inductive Arg :=
| ArgString (s : string)
| ArgNumber (z : Z)
| ArgSubscriberNode (r : SubscriberNode).

(** The result of a remote call ([JSONObject]).  The call sites cast it
    unchecked to the type they expect; the constructors are the shapes the
    embedded call sites cast to. *)
Inductive JSONObject :=
| JScalar (v : Scalar)
| JProviderList (l : list RosProviderState)
| JNodeList (l : list IRosNode)
| JLaunchList (l : list LaunchContent)
| JDiagnostics (d : DiagnosticArray).

Definition JTrue : JSONObject := JScalar (SBool true).
Definition JFalse : JSONObject := JScalar (SBool false).

(** Truthiness of a result: arrays and objects are truthy. *)
Definition truthy (v : JSONObject) : bool :=
  match v with
  | JScalar SNull => false
  | JScalar (SBool b) => b
  | JScalar (SNumber z) => negb (z =? 0)
  | JScalar (SString s) => JsString.truthy s
  | _ => true
  end.

(** What a [catch] receives: a thrown string, or an error object with its
    [name] and [message]. *)
Inductive Exn :=
| ExnString (s : string)
| ExnError (ename emessage : string).

(** [Error(msg)]. *)
Definition Error (msg : string) : Exn := ExnError "Error" msg.

(** The template literal [`${err}`]: a string as it is, an error object
    through [Error.prototype.toString]. *)
Definition to_text (e : Exn) : string :=
  match e with
  | ExnString s => s
  | ExnError n m =>
      match n, m with
      | _, EmptyString => n
      | EmptyString, _ => m
      | _, _ => n +:+ ": " +:+ m
      end
  end.

(** How one invocation of [connection.call] ends: the promise resolves, the
    promise is rejected with a payload ([reason] is [String(payload)], what
    [Error(payload)] stores as its message), or the invocation throws before
    it returns a promise. *)
Inductive CallOutcome :=
| Resolved (r : JSONObject)
| Rejected (reason : string)
| Thrown (e : Exn).

(** ** The session object *)

(** Modelled from the spec: the connection states ([ConnectionState.STATES],
    whose class is not among the sources), the states of the spec's
    connection state machine under the names the class uses
    (TRANSPORT_CONNECTED is [CROSSBAR_CONNECTED], SESSION_REGISTERED is
    [CROSSBAR_REGISTERED]), and [STARTING], which [setConnectionState]
    tests. *)
Inductive ConnectionState :=
| UNKNOWN
| STARTING
| CONNECTING
| CROSSBAR_CONNECTED
| CROSSBAR_REGISTERED
| CONNECTED
| ERRORED
| CLOSED.

#[global] Instance ConnectionState_eq_dec : EqDecision ConnectionState.
Proof. solve_decision. Defined.

(** A provider object constructed by [updateProviderList] for a discovered
    peer: [object] is the identity of the object (its allocation number),
    the other fields are what the constructor and the pull store in it. *)
Record RemoteProvider := {
  object : Ref;
  remote_id : string;
  remote_host : string;
  remote_rosVersion : string;
  remote_port : Z;
  remote_useSSL : bool;
  remote_rosState : RosProviderState;
  discovered : list string;
}.

Record Settings := {
  this_id : string;
  userName : string;
  connection_host : string;
  callAttempts : Z;
  delayCallAttempts : Z;
  showRemoteNodes : bool;
  IGNORED_NODES : list string;
}.

Record Link := {
  connection_connected : bool;
  connectionState : ConnectionState;
  errorDetails : string;
  daemon : bool;
  discovery : bool;
}.

(** [currentRequestList], with the number of [connection.call] invocations
    and of awaited delays so far, which index the behaviour of the outside
    world. *)
Record Dispatch := {
  currentRequestList : gset string;
  calls : nat;
  delays : nat;
}.

Record Model := {
  rosState : RosProviderState;
  launchFiles : list LaunchContent;
  rosNodes : list RosNode;
  remoteProviders : list RemoteProvider;
  hostnames : list string;
  echoTopics : list string;
}.

(** The objects that are shared by reference: diagnostic history arrays and
    launch path sets, and the allocation counter. *)
Record Store := {
  diagnosticArrays : gmap Ref (list DiagnosticStatus);
  launchPathSets : gmap Ref (list string);
  allocated : nat;
}.

Record Provider := {
  settings : Settings;
  link : Link;
  dispatch : Dispatch;
  model : Model;
  store : Store;
}.

Definition with_link (f : Link -> Link) (p : Provider) : Provider :=
  {| settings := settings p; link := f (link p); dispatch := dispatch p;
     model := model p; store := store p |}.

Definition with_dispatch (f : Dispatch -> Dispatch) (p : Provider) : Provider :=
  {| settings := settings p; link := link p; dispatch := f (dispatch p);
     model := model p; store := store p |}.

Definition with_model (f : Model -> Model) (p : Provider) : Provider :=
  {| settings := settings p; link := link p; dispatch := dispatch p;
     model := f (model p); store := store p |}.

Definition with_store (f : Store -> Store) (p : Provider) : Provider :=
  {| settings := settings p; link := link p; dispatch := dispatch p;
     model := model p; store := f (store p) |}.

Definition set_state (s : ConnectionState) (details : string) (l : Link) : Link :=
  {| connection_connected := connection_connected l; connectionState := s;
     errorDetails := details; daemon := daemon l; discovery := discovery l |}.

Definition set_daemon (b : bool) (l : Link) : Link :=
  {| connection_connected := connection_connected l;
     connectionState := connectionState l; errorDetails := errorDetails l;
     daemon := b; discovery := discovery l |}.

Definition set_discovery (b : bool) (l : Link) : Link :=
  {| connection_connected := connection_connected l;
     connectionState := connectionState l; errorDetails := errorDetails l;
     daemon := daemon l; discovery := b |}.

Definition set_currentRequestList (s : gset string) (d : Dispatch) : Dispatch :=
  {| currentRequestList := s; calls := calls d; delays := delays d |}.

Definition set_rosState (v : RosProviderState) (m : Model) : Model :=
  {| rosState := v; launchFiles := launchFiles m; rosNodes := rosNodes m;
     remoteProviders := remoteProviders m; hostnames := hostnames m;
     echoTopics := echoTopics m |}.

Definition set_launchFiles (v : list LaunchContent) (m : Model) : Model :=
  {| rosState := rosState m; launchFiles := v; rosNodes := rosNodes m;
     remoteProviders := remoteProviders m; hostnames := hostnames m;
     echoTopics := echoTopics m |}.

Definition set_rosNodes (v : list RosNode) (m : Model) : Model :=
  {| rosState := rosState m; launchFiles := launchFiles m; rosNodes := v;
     remoteProviders := remoteProviders m; hostnames := hostnames m;
     echoTopics := echoTopics m |}.

Definition set_remoteProviders (v : list RemoteProvider) (m : Model) : Model :=
  {| rosState := rosState m; launchFiles := launchFiles m; rosNodes := rosNodes m;
     remoteProviders := v; hostnames := hostnames m; echoTopics := echoTopics m |}.

Definition set_hostnames (v : list string) (m : Model) : Model :=
  {| rosState := rosState m; launchFiles := launchFiles m; rosNodes := rosNodes m;
     remoteProviders := remoteProviders m; hostnames := v; echoTopics := echoTopics m |}.

Definition set_echoTopics (v : list string) (m : Model) : Model :=
  {| rosState := rosState m; launchFiles := launchFiles m; rosNodes := rosNodes m;
     remoteProviders := remoteProviders m; hostnames := hostnames m; echoTopics := v |}.

(** ** Effects on the outside world *)

(** Asynchronous actions that [setConnectionState] starts without awaiting
    them: the run of [registerCallbacks()], and what [updateDaemonInit()]
    does after its first suspension. *)
Inductive Task :=
| RegisterCallbacks
| UpdateDaemonInit.

Inductive Effect :=
| EVENT_PROVIDER_STATE (newState oldState : ConnectionState) (details : string)
| EVENT_PROVIDER_ACTIVITY (active : bool) (request : string)
| EVENT_PROVIDER_DISCOVERED (np : RemoteProvider)
| EVENT_PROVIDER_REMOVED (rp : RemoteProvider)
| EVENT_PROVIDER_LAUNCH_LIST (l : list LaunchContent)
| EVENT_PROVIDER_ROS_NODES (l : list RosNode)
| ConnectionCall (uri : string) (args : list Arg)
| ConnectionSubscribe (uri : string)
| ConnectionCloseSubscription (uri : string)
| Timer (ms : Z)
| Start (t : Task).

(** What the class takes from its environment: the transport, the other
    operations of the session that run while one of them waits, the
    JavaScript library, and constants of modules that are not among the
    sources. *)
Record Runtime := {
  (** the outcome of the [n]-th invocation of [connection.call] *)
  connection_call : nat -> string -> list Arg -> CallOutcome;
  (** what the other pending operations do to the in-flight set during the
      [n]-th awaited delay of [ms] milliseconds *)
  while_delayed : nat -> Z -> gset string -> gset string;
  (** [JSON.parse(text).error] for a text that can start a JSON value:
      [None] when parsing throws, [Some None] when the value has no string
      member [error] *)
  JSON_parse_error : string -> option (option string);
  (** the message of the [SyntaxError] of [JSON.parse] *)
  SyntaxError_message : string -> string;
  JSON_stringify : list Arg -> string;
  (** [connection.uri] of a connection made for (host, rosVersion, port,
      useSSL) *)
  connection_uri : string -> string -> Z -> bool -> string;
  TagColors : list string;
}.

(** ** The monad of asynchronous methods *)

Inductive Settled (A : Type) :=
| Fulfilled (a : A)
| RejectedWith (e : Exn)
| Unsettled.

Arguments Fulfilled {A} a.
Arguments RejectedWith {A} e.
Arguments Unsettled {A}.

Record Run (A : Type) := {
  settled : Settled A;
  after : Provider;
  effects : list Effect;
}.

Arguments settled {A} r.
Arguments after {A} r.
Arguments effects {A} r.

Definition Async (A : Type) : Type := Provider -> Run A.

#[global] Instance Async_ret : MRet Async :=
  fun A a p => {| settled := Fulfilled a; after := p; effects := [] |}.

#[global] Instance Async_bind : MBind Async :=
  fun A B k m p =>
    let r1 := m p in
    match settled r1 with
    | Fulfilled a =>
        let r2 := k a (after r1) in
        {| settled := settled r2; after := after r2;
           effects := effects r1 ++ effects r2 |}
    | RejectedWith e =>
        {| settled := RejectedWith e; after := after r1; effects := effects r1 |}
    | Unsettled =>
        {| settled := Unsettled; after := after r1; effects := effects r1 |}
    end.

Definition gets {A} (f : Provider -> A) : Async A :=
  fun p => {| settled := Fulfilled (f p); after := p; effects := [] |}.

Definition modify (f : Provider -> Provider) : Async unit :=
  fun p => {| settled := Fulfilled tt; after := f p; effects := [] |}.

Definition perform (e : Effect) : Async unit :=
  fun p => {| settled := Fulfilled tt; after := p; effects := [e] |}.

Definition throw {A} (e : Exn) : Async A :=
  fun p => {| settled := RejectedWith e; after := p; effects := [] |}.

Definition unsettled {A} : Async A :=
  fun p => {| settled := Unsettled; after := p; effects := [] |}.

(** [m.catch(h)], and [try { m } catch (e) { h }]. *)
Definition catch {A} (m : Async A) (h : Exn -> Async A) : Async A :=
  fun p =>
    let r1 := m p in
    match settled r1 with
    | RejectedWith e =>
        let r2 := h e (after r1) in
        {| settled := settled r2; after := after r2;
           effects := effects r1 ++ effects r2 |}
    | _ => r1
    end.

(** [l.forEach(f)]. *)
Fixpoint forEach {A} (f : A -> Async unit) (l : list A) : Async unit :=
  match l with
  | [] => mret tt
  | x :: l' => f x;; forEach f l'
  end.

(** ** Crossbar URIs (models/Crossbar.ts) *)

Module URI.
Definition ROS_NODES_GET_LIST := "ros.nodes.get_list".
Definition ROS_PROVIDER_GET_LIST := "ros.provider.get_list".
Definition ROS_PROVIDER_GET_DIAGNOSTICS := "ros.provider.get_diagnostics".
Definition ROS_LAUNCH_GET_LIST := "ros.launch.get_list".
Definition ROS_DAEMON_VERSION := "ros.daemon.get_version".
Definition ROS_SUBSCRIBER_START := "ros.subscriber.start".
Definition ROS_SUBSCRIBER_STOP := "ros.subscriber.stop".
Definition ROS_SUBSCRIBER_EVENT_PREFIX := "ros.subscriber.event".
End URI.

(** ** The call dispatcher *)

Section Dispatcher.

Variable rt : Runtime.

(** [name()] *)
Definition this_name (p : Provider) : string :=
  if JsString.truthy (userName (settings p)) then userName (settings p)
  else if JsString.truthy (ps_name (rosState (model p))) then ps_name (rosState (model p))
  else connection_host (settings p).

(** [isAvailable()] *)
Definition isAvailable (p : Provider) : bool := connection_connected (link p).

Definition has_request (request : string) (p : Provider) : bool :=
  bool_decide (request ∈ currentRequestList (dispatch p)).

(** [await delay(ms)]: the timer is set, the operation is suspended, a
    caller that did not await it runs on ([resume]), and the other pending
    operations of the session run until the timer fires. *)
Definition delay (resume : Async unit) (ms : Z) : Async unit :=
  perform (Timer ms);;
  resume;;
  modify (with_dispatch (fun d =>
    {| currentRequestList := while_delayed rt (delays d) ms (currentRequestList d);
       calls := calls d; delays := S (delays d) |})).

(** [lockRequest]: true when [request] is already locked.  [resume] is the
    synchronous rest of a caller that did not await the operation; it runs
    at the first suspension. *)
Definition lockRequest (resume : Async unit) (request : string) : Async bool :=
  let resume_done : Async unit := mret tt in
  has ← gets (has_request request);
  still ← (if has : bool then delay resume 1000;; gets (has_request request)
           else mret false);
  if still : bool then mret true
  else
    perform (EVENT_PROVIDER_ACTIVITY true request);;
    modify (with_dispatch (fun d =>
      set_currentRequestList ({[request]} ∪ currentRequestList d) d));;
    (if has : bool then resume_done else resume);;
    mret false.

(** [unlockRequest] *)
Definition unlockRequest (request : string) : Async unit :=
  modify (with_dispatch (fun d =>
    set_currentRequestList (currentRequestList d ∖ {[request]}) d));;
  n ← gets (fun p => size (currentRequestList (dispatch p)));
  if bool_decide (n = 0%nat) then perform (EVENT_PROVIDER_ACTIVITY false "")
  else mret tt.

(** One invocation of [connection.call]. *)
Definition invoke (uri : string) (args : list Arg) : Async CallOutcome :=
  perform (ConnectionCall uri args);;
  outcome ← gets (fun p => connection_call rt (calls (dispatch p)) uri args);
  modify (with_dispatch (fun d =>
    {| currentRequestList := currentRequestList d;
       calls := S (calls d); delays := delays d |}));;
  mret outcome.

(** A JSON text starts, after white space, with one of these characters;
    [JSON.parse] throws a [SyntaxError] on any other text. *)
Fixpoint can_start_JSON (text : string) : bool :=
  match text with
  | EmptyString => false
  | String c text' =>
      if bool_decide (c ∈ [" "; "009"; "010"; "013"]%char) then can_start_JSON text'
      else bool_decide (c ∈ ["{"; "["; "034"; "-"; "0"; "1"; "2"; "3"; "4"; "5";
                              "6"; "7"; "8"; "9"; "t"; "f"; "n"]%char)
  end.

(** [JSON.parse(text).error] *)
Definition JSON_parse (text : string) : option (option string) :=
  if can_start_JSON text then JSON_parse_error rt text else None.

(** The [catch] block of [callRequest]; [retry] is the recursive call. *)
Definition callRequest_catch (retry : Async JSONObject) (uri : string)
    (currentAttempt : Z) (err : Exn) : Async JSONObject :=
  (if JsString.includes "{" (to_text err) then
     match JSON_parse (to_text err) with
     | None => throw (ExnError "SyntaxError" (SyntaxError_message rt (to_text err)))
     | Some errorObj_error =>
         if match errorObj_error with
            | Some e => JsString.includes "wamp.error.runtime_error" e
            | None => false
            end
         then
           (* do not re-try on runtime errors *)
           unlockRequest uri;;
           nm ← gets this_name;
           throw (Error ("[" +:+ nm +:+ "]: request to [" +:+ uri +:+ "] failed: "
                         +:+ to_text err))
         else mret tt
     end
   else if match err with
           | ExnString s => bool_decide (s = "Connection is closed")
           | ExnError _ _ => false
           end
   then
     unlockRequest uri;;
     nm ← gets this_name;
     throw (Error ("[" +:+ nm +:+ "]: request to [" +:+ uri +:+ "] failed: "
                   +:+ to_text err))
   else mret tt);;
  attempts ← gets (fun p => callAttempts (settings p));
  if currentAttempt >=? attempts then
    unlockRequest uri;;
    nm ← gets this_name;
    throw (Error ("[CROSSBAR] (" +:+ uri +:+ ") [" +:+ nm +:+ "]: Max call attempts ("
                  +:+ pretty attempts +:+ ") reached!"))
  else
    (* didn't work, wait and repeat *)
    ms ← gets (fun p => delayCallAttempts (settings p));
    delay (mret tt) ms;;
    retry.

(** [callRequest].  The recursion of the source is on [currentAttempt]; it
    is bounded here by [fuel], the number of recursive calls that may
    follow, and the promise is [Unsettled] when that runs out
    ([makeCall_settles] below: it never does from [makeCall]).  A rejected
    promise of [connection.call] reaches the [catch] block wrapped by
    [throw Error(err)]. *)
Fixpoint callRequest (fuel : nat) (resume : Async unit) (uri : string)
    (args : list Arg) (currentAttempt : Z) : Async JSONObject :=
  outcome ← invoke uri args;
  resume;;
  let retry :=
    match fuel with
    | O => unsettled
    | S fuel' => callRequest fuel' (mret tt) uri args (currentAttempt + 1)
    end in
  match outcome with
  | Resolved r => mret r
  | Rejected reason => callRequest_catch retry uri currentAttempt (Error reason)
  | Thrown e => callRequest_catch retry uri currentAttempt e
  end.

(** [makeCall(uri, args, lockRequest)].  [resume] is the synchronous rest of
    a caller that did not await the call ([mret tt] when it is awaited). *)
Definition makeCallFrom (resume : Async unit) (uri : string) (args : list Arg)
    (lock : bool) : Async JSONObject :=
  available ← gets isAvailable;
  if negb available then
    nm ← gets this_name;
    resume;;
    throw (Error ("[" +:+ nm +:+ "]: Ignoring request to: [" +:+ uri
                  +:+ "], provider not yet connected!"))
  else
    locked ← (if lock then lockRequest resume uri else mret false);
    if locked : bool then
      nm ← gets this_name;
      throw (Error ("[" +:+ nm +:+ "]: Ignoring request to: [" +:+ uri +:+ "] with "
                    +:+ JSON_stringify rt args +:+ ", request already running!"))
    else
      fuel ← gets (fun p => Z.to_nat (callAttempts (settings p)));
      result ← callRequest fuel (if lock then mret tt else resume) uri args 0;
      unlockRequest uri;;
      mret result.

Definition makeCall : string -> list Arg -> bool -> Async JSONObject :=
  makeCallFrom (mret tt).

End Dispatcher.

(** ** The connection state machine *)

(** [updateDaemonInit()], called and not awaited: its body up to the first
    suspension, then the start of the rest.  [getDaemonVersion()] enters
    [makeCall(URI.ROS_DAEMON_VERSION, [], true)], which tests the connection
    (the promise is rejected without one) and enters [lockRequest]; that
    one sets the timer of its [delay(1000)] when the request is locked, and
    emits the activity event and takes the lock when it is free.  Then
    [makeCall] waits for the promise of [lockRequest]. *)
Definition updateDaemonInit : Async unit :=
  available ← gets isAvailable;
  (if negb available then mret tt
   else
     has ← gets (has_request URI.ROS_DAEMON_VERSION);
     if has : bool then perform (Timer 1000)
     else
       perform (EVENT_PROVIDER_ACTIVITY true URI.ROS_DAEMON_VERSION);;
       modify (with_dispatch (fun d =>
         set_currentRequestList ({[URI.ROS_DAEMON_VERSION]} ∪ currentRequestList d) d)));;
  perform (Start UpdateDaemonInit).

(** [setConnectionState(state, details)].  Its body has no suspension; the
    actions it starts on entering a state are not awaited: the timer of
    [delay(3000)] appears as a [Timer], the started actions as [Start]
    effects. *)
Definition setConnectionState (state : ConnectionState) (details : string) : Async unit :=
  current ← gets (fun p => connectionState (link p));
  (* ignore call with no state changes *)
  if bool_decide (current = state) then mret tt
  else
    let oldState : ConnectionState := current in
    modify (with_link (set_state state details));;
    perform (EVENT_PROVIDER_STATE state oldState details);;
    if bool_decide (state = CONNECTING) && bool_decide (oldState = STARTING)
    then perform (Timer 3000)
    else if bool_decide (state = CROSSBAR_CONNECTED) then perform (Start RegisterCallbacks)
    else if bool_decide (state = CROSSBAR_REGISTERED) then
      (* wait until daemon.ready received *)
      (* backup for backward compatibility => call updateDaemonInit *)
      updateDaemonInit
    else mret tt.

(** ** The handlers of the connection *)

(** [isReady()] *)
Definition isReady (p : Provider) : bool := daemon (link p) && discovery (link p).

(** [hasActiveRequests()] *)
Definition hasActiveRequests (p : Provider) : bool :=
  bool_decide (0 < size (currentRequestList (dispatch p)))%nat.

(** [onCloseConnection(state, details)] *)
Definition onCloseConnection (state : ConnectionState) (details : string) : Async unit :=
  setConnectionState state details;;
  (* clear all activities *)
  modify (with_dispatch (set_currentRequestList ∅));;
  perform (EVENT_PROVIDER_ACTIVITY false "").

(** [onOpenConnection()] *)
Definition onOpenConnection : Async unit :=
  (* connected state is set after all crossbar connections are registered *)
  modify (with_link (set_daemon false));;
  modify (with_link (set_discovery false));;
  setConnectionState CROSSBAR_CONNECTED "".

(** ** The clock-skew estimator *)

(** [calcTimeDiff(startTs, endTs, remoteTs)].  A JavaScript number is an
    IEEE 754 binary64 value, and so is a primitive [float]: every
    subtraction, addition, division and multiplication below rounds to
    nearest, ties to even, as the source's does, and [<?] is false on NaN. *)
Definition calcTimeDiff (startTs endTs remoteTs : float) : float :=
  (* try to remove JavaScript andNetwork delay *)
  let diffStartEnd := (endTs - startTs)%float in
  let diffToStart := (remoteTs - startTs)%float in
  let diffToEnd := (endTs - remoteTs)%float in
  let result :=
    (PrimFloat.abs
       (PrimFloat.abs diffToStart + PrimFloat.abs diffToEnd - diffStartEnd)
     / 2)%float in
  if (diffToStart <? 0)%float then (result * -1)%float else result.

(** ** Echo subscriptions *)

Definition generateCrossbarTopic (topic : string) : string :=
  URI.ROS_SUBSCRIBER_EVENT_PREFIX +:+ "." +:+ JsString.replaceAll "/" "_" topic.

(** [registerCallback(uri, callback)]: the result of [connection.subscribe]
    is only logged. *)
Definition registerCallback (uri : string) : Async unit :=
  perform (ConnectionSubscribe uri).

(** What [stopSubscriber] puts into the [result] member: the value of the
    call, or, after a failure, the object that the [catch] handler made and
    the [then] handler took for the value. *)
Inductive StopValue :=
| StopValue_of (v : JSONObject)
| StopFailure (err : Exn).

Record IResult := {
  result : StopValue;
  result_message : string;
}.

Section Subscriber.

Variable rt : Runtime.

(** [startSubscriber(request)]; the promise resolves with the value of the
    remote call, cast to a boolean without a check, or with [false] when
    the call failed. *)
Definition startSubscriber (request : SubscriberNode) : Async JSONObject :=
  hasEcho ← gets (fun p => bool_decide (topic request ∈ echoTopics (model p)));
  if hasEcho : bool then mret JTrue
  else
    modify (with_model (fun m => set_echoTopics (echoTopics m ++ [topic request]) m));;
    result ← catch (makeCall rt URI.ROS_SUBSCRIBER_START [ArgSubscriberNode request] true)
                   (fun _ => mret JFalse);
    (if truthy result then registerCallback (generateCrossbarTopic (topic request))
     else mret tt);;
    mret result.

(** [stopSubscriber(topic)] *)
Definition stopSubscriber (topic : string) : Async IResult :=
  hasTopic ← gets (fun p => bool_decide (topic ∈ echoTopics (model p)));
  (if hasTopic : bool then
     modify (with_model (fun m =>
       set_echoTopics (filter (fun e => e ≠ topic) (echoTopics m)) m));;
     perform (ConnectionCloseSubscription (generateCrossbarTopic topic))
   else mret tt);;
  value ← catch (v ← makeCall rt URI.ROS_SUBSCRIBER_STOP [ArgString topic] true;
                 mret (StopValue_of v))
                (fun err => mret (StopFailure err));
  mret {| result := value; result_message := "" |}.

End Subscriber.

(** ** Discovery *)

Definition TypeError (msg : string) : Exn := ExnError "TypeError" msg.

Section Discovery.

Variable rt : Runtime.

(** [url()] of a provider object. *)
Definition url (rp : RemoteProvider) : string :=
  connection_uri rt (remote_host rp) (remote_rosVersion rp) (remote_port rp)
    (remote_useSSL rp).

(** [new Provider(settings, host, rosVersion, port, useSSL, logger)]: a new
    object.  [generateUniqueId] (utils, not among the sources) is taken to
    render the allocation number of the object. *)
Definition new_Provider (host rosVersion : string) (port : Z) (useSSL : bool)
    : Async RemoteProvider :=
  n ← gets (fun p => allocated (store p));
  modify (with_store (fun s =>
    {| diagnosticArrays := diagnosticArrays s; launchPathSets := launchPathSets s;
       allocated := S (allocated s) |}));;
  mret {| object := n; remote_id := host +:+ "-" +:+ pretty n; remote_host := host;
          remote_rosVersion := rosVersion; remote_port := port;
          remote_useSSL := useSSL; remote_rosState := new_RosProviderState;
          discovered := [] |}.

(** The body of [rosProviders.forEach] in [updateProviderList];
    [oldRemoteProviders] is the local variable of that name. *)
Definition updateProviderList_entry (oldRemoteProviders : list RemoteProvider)
    (ps : RosProviderState) : Async (list RemoteProvider) :=
  if origin ps then
    (* apply remote attributes to new current provider *)
    modify (with_model (set_rosState ps));;
    host ← gets (fun p => connection_host (settings p));
    (if negb (bool_decide (host = "localhost")) && negb (bool_decide (host = ps_host ps))
        && negb (bool_decide (host ∈ ps_hostnames ps))
     then
       if JsString.truthy (ps_host ps) then
         modify (with_model (fun m => set_hostnames (hostnames m ++ [ps_host ps]) m))
       else mret tt
     else mret tt);;
    (* copy all new addresses to local hostnames *)
    modify (with_model (fun m => set_hostnames (dedupe (hostnames m ++ ps_hostnames ps)) m));;
    mret oldRemoteProviders
  else
    (* add provider discovered by the contacted provider *)
    np ← new_Provider (ps_host ps)
           (if JsString.truthy (ps_ros_version ps) then ps_ros_version ps else "2")
           (ps_port ps) false;
    let oldRemoteProviders' := filter (fun orp => url orp ≠ url np) oldRemoteProviders in
    me ← gets (fun p => this_id (settings p));
    let np' := {| object := object np; remote_id := remote_id np;
                  remote_host := remote_host np; remote_rosVersion := remote_rosVersion np;
                  remote_port := remote_port np; remote_useSSL := remote_useSSL np;
                  remote_rosState := ps; discovered := [me] |} in
    modify (with_model (fun m => set_remoteProviders (remoteProviders m ++ [np']) m));;
    mret oldRemoteProviders'.

Fixpoint updateProviderList_entries (oldRemoteProviders : list RemoteProvider)
    (rosProviders : list RosProviderState) : Async (list RemoteProvider) :=
  match rosProviders with
  | [] => mret oldRemoteProviders
  | ps :: rest =>
      old' ← updateProviderList_entry oldRemoteProviders ps;
      updateProviderList_entries old' rest
  end.

(** [updateProviderList()].  The call site casts the result to a list of
    peer descriptors; the embedding follows the source on that shape and
    on scalars, and rejects a result of a foreign record type. *)
Definition updateProviderList : Async bool :=
  value ← catch (makeCall rt URI.ROS_PROVIDER_GET_LIST [] true)
                (fun err =>
                   nm ← gets this_name;
                   setConnectionState ERRORED
                     ("Provider [" +:+ nm +:+ "]: updateProviderList() result: "
                      +:+ to_text err);;
                   mret (JProviderList []));
  match value with
  | JProviderList rosProviders =>
      if bool_decide (0 < length rosProviders)%nat then
        modify (with_link (set_discovery true));;
        (* Update list of providers *)
        oldRemoteProviders ← gets (fun p => remoteProviders (model p));
        modify (with_model (set_remoteProviders []));;
        oldRemoteProviders' ← updateProviderList_entries oldRemoteProviders rosProviders;
        nps ← gets (fun p => remoteProviders (model p));
        forEach (fun np => perform (EVENT_PROVIDER_DISCOVERED np)) nps;;
        forEach (fun rp => perform (EVENT_PROVIDER_REMOVED rp)) oldRemoteProviders';;
        setConnectionState CONNECTED "";;
        mret true
      else mret false
  | JScalar SNull => throw (TypeError "Cannot read properties of null (reading 'length')")
  | JScalar (SString (String _ _)) =>
      modify (with_link (set_discovery true));;
      modify (with_model (set_remoteProviders []));;
      throw (TypeError "rosProviders.forEach is not a function")
  | JScalar _ => mret false
  | _ => throw (TypeError "not a list of providers")
  end.

End Discovery.

(** ** The node model *)

(** The object store: histories and path sets are read and written through
    the references held by the nodes. *)
Definition history (p : Provider) (r : Ref) : list DiagnosticStatus :=
  default [] (diagnosticArrays (store p) !! r).

Definition paths (p : Provider) (r : Ref) : list string :=
  default [] (launchPathSets (store p) !! r).

(** [array.push(status)] on the array at [r]. *)
Definition push_status (r : Ref) (status : DiagnosticStatus) (p : Provider) : Provider :=
  with_store (fun s =>
    {| diagnosticArrays := <[r := history p r ++ [status]]> (diagnosticArrays s);
       launchPathSets := launchPathSets s; allocated := allocated s |}) p.

(** [set.add(path)] on the set at [r]. *)
Definition add_path (r : Ref) (path : string) (p : Provider) : Provider :=
  with_store (fun s =>
    {| diagnosticArrays := diagnosticArrays s;
       launchPathSets :=
         <[r := if bool_decide (path ∈ paths p r) then paths p r else paths p r ++ [path]]>
           (launchPathSets s);
       allocated := allocated s |}) p.

(** [map.set(k, v)] on a [Map] kept as an association list in insertion
    order: the value of a present key is replaced in place. *)
Fixpoint Map_set {V} (k : string) (v : V) (m : list (string * V)) : list (string * V) :=
  match m with
  | [] => [(k, v)]
  | (k', v') :: m' => if bool_decide (k' = k) then (k, v) :: m' else (k', v') :: Map_set k v m'
  end.

(** Modelled from the spec: the constructor of [RosNode] (models, not among
    the sources) with the defaults of the members it does not receive: no
    process id (0 if not running), no diagnostics, no launch paths, no tags;
    the history array and the path set are new empty objects at [r] and
    [S r]. *)
Definition RosNode_new (r : Ref) (id_ name_ namespace_ node_API_URI_ : string)
    (status_ : RosNodeStatus) (pid_ : Z) (masteruri_ : string) (location_ : Location)
    (system_node_ : bool) : RosNode :=
  {| id := id_; name := name_; namespace := namespace_; node_API_URI := node_API_URI_;
     status := status_; pid := pid_; masteruri := masteruri_; location := location_;
     system_node := system_node_; parent_id := None;
     publishers := []; subscribers := []; services := []; screens := [];
     idGlobal := ""; providerName := ""; providerId := "";
     diagnosticStatus := r; diagnosticLevel := OK; diagnosticMessage := "";
     launchPaths := S r; launchPath := ""; group := ""; launchInfo := None;
     rosLoggers := []; parameters := []; associations := []; tags := [] |}.

(** Allocation of the two objects of a new node. *)
Definition alloc_node : Async Ref :=
  r ← gets (fun p => allocated (store p));
  modify (with_store (fun s =>
    {| diagnosticArrays := <[r := []]> (diagnosticArrays s);
       launchPathSets := <[S r := []]> (launchPathSets s);
       allocated := S (S r) |}));;
  mret r.

Definition set_diagnostic (lvl : DiagnosticLevel) (msg : string) (n : RosNode) : RosNode :=
  {| id := id n; name := name n; namespace := namespace n; node_API_URI := node_API_URI n;
     status := status n; pid := pid n; masteruri := masteruri n; location := location n;
     system_node := system_node n; parent_id := parent_id n;
     publishers := publishers n; subscribers := subscribers n; services := services n;
     screens := screens n;
     idGlobal := idGlobal n; providerName := providerName n; providerId := providerId n;
     diagnosticStatus := diagnosticStatus n; diagnosticLevel := lvl;
     diagnosticMessage := msg;
     launchPaths := launchPaths n; launchPath := launchPath n; group := group n;
     launchInfo := launchInfo n; rosLoggers := rosLoggers n; parameters := parameters n;
     associations := associations n; tags := tags n |}.

Definition set_launch (params : list (string * Scalar)) (info : LaunchNode)
    (assoc : list string) (n : RosNode) : RosNode :=
  {| id := id n; name := name n; namespace := namespace n; node_API_URI := node_API_URI n;
     status := status n; pid := pid n; masteruri := masteruri n; location := location n;
     system_node := system_node n; parent_id := parent_id n;
     publishers := publishers n; subscribers := subscribers n; services := services n;
     screens := screens n;
     idGlobal := idGlobal n; providerName := providerName n; providerId := providerId n;
     diagnosticStatus := diagnosticStatus n; diagnosticLevel := diagnosticLevel n;
     diagnosticMessage := diagnosticMessage n;
     launchPaths := launchPaths n; launchPath := launchPath n; group := group n;
     launchInfo := Some info; rosLoggers := rosLoggers n; parameters := params;
     associations := assoc; tags := tags n |}.

Definition set_identity (idGlobal_ providerName_ providerId_ : string) (n : RosNode) : RosNode :=
  {| id := id n; name := name n; namespace := namespace n; node_API_URI := node_API_URI n;
     status := status n; pid := pid n; masteruri := masteruri n; location := location n;
     system_node := system_node n; parent_id := parent_id n;
     publishers := publishers n; subscribers := subscribers n; services := services n;
     screens := screens n;
     idGlobal := idGlobal_; providerName := providerName_; providerId := providerId_;
     diagnosticStatus := diagnosticStatus n; diagnosticLevel := diagnosticLevel n;
     diagnosticMessage := diagnosticMessage n;
     launchPaths := launchPaths n; launchPath := launchPath n; group := group n;
     launchInfo := launchInfo n; rosLoggers := rosLoggers n; parameters := parameters n;
     associations := associations n; tags := tags n |}.

Definition set_status (st : RosNodeStatus) (n : RosNode) : RosNode :=
  {| id := id n; name := name n; namespace := namespace n; node_API_URI := node_API_URI n;
     status := st; pid := pid n; masteruri := masteruri n; location := location n;
     system_node := system_node n; parent_id := parent_id n;
     publishers := publishers n; subscribers := subscribers n; services := services n;
     screens := screens n;
     idGlobal := idGlobal n; providerName := providerName n; providerId := providerId n;
     diagnosticStatus := diagnosticStatus n; diagnosticLevel := diagnosticLevel n;
     diagnosticMessage := diagnosticMessage n;
     launchPaths := launchPaths n; launchPath := launchPath n; group := group n;
     launchInfo := launchInfo n; rosLoggers := rosLoggers n; parameters := parameters n;
     associations := associations n; tags := tags n |}.

Definition set_tags (t : list Tag) (n : RosNode) : RosNode :=
  {| id := id n; name := name n; namespace := namespace n; node_API_URI := node_API_URI n;
     status := status n; pid := pid n; masteruri := masteruri n; location := location n;
     system_node := system_node n; parent_id := parent_id n;
     publishers := publishers n; subscribers := subscribers n; services := services n;
     screens := screens n;
     idGlobal := idGlobal n; providerName := providerName n; providerId := providerId n;
     diagnosticStatus := diagnosticStatus n; diagnosticLevel := diagnosticLevel n;
     diagnosticMessage := diagnosticMessage n;
     launchPaths := launchPaths n; launchPath := launchPath n; group := group n;
     launchInfo := launchInfo n; rosLoggers := rosLoggers n; parameters := parameters n;
     associations := associations n; tags := t |}.

(** The members that [updateRosNodes] copies from the old node object. *)
Definition copy_old_state (oldNode n : RosNode) : RosNode :=
  {| id := id n; name := name n; namespace := namespace n; node_API_URI := node_API_URI n;
     status := status n; pid := pid n; masteruri := masteruri n; location := location n;
     system_node := system_node n; parent_id := parent_id n;
     publishers := publishers n; subscribers := subscribers n; services := services n;
     screens := screens n;
     idGlobal := idGlobal n; providerName := providerName n; providerId := providerId n;
     diagnosticStatus := diagnosticStatus oldNode; diagnosticLevel := diagnosticLevel oldNode;
     diagnosticMessage := diagnosticMessage oldNode;
     launchPaths := launchPaths oldNode; launchPath := launchPath oldNode;
     group := group oldNode;
     launchInfo := launchInfo oldNode; rosLoggers := rosLoggers oldNode;
     parameters := parameters n;
     associations := associations n; tags := tags n |}.

(** The node made from a raw record in [getNodeList], with its arrays. *)
Definition set_raw_members (raw : IRosNode) (n : RosNode) : RosNode :=
  {| id := id n; name := name n; namespace := namespace n; node_API_URI := node_API_URI n;
     status := status n; pid := pid n; masteruri := masteruri n; location := location n;
     system_node := system_node n;
     parent_id := match raw_parent_id raw with
                  | Some s => if JsString.truthy s then Some s else parent_id n
                  | None => parent_id n
                  end;
     publishers :=
       fold_left (fun m (s : RosTopic) => Map_set (rt_name s) s m) (raw_publishers raw) [];
     subscribers :=
       fold_left (fun m (s : RosTopic) => Map_set (rt_name s) s m) (raw_subscribers raw) [];
     services :=
       fold_left (fun m (s : RosService) => Map_set (rs_name s) s m) (raw_services raw) [];
     screens := raw_screens raw;
     idGlobal := idGlobal n; providerName := providerName n; providerId := providerId n;
     diagnosticStatus := diagnosticStatus n; diagnosticLevel := diagnosticLevel n;
     diagnosticMessage := diagnosticMessage n;
     launchPaths := launchPaths n; launchPath := launchPath n; group := group n;
     launchInfo := launchInfo n; rosLoggers := rosLoggers n; parameters := parameters n;
     associations := associations n; tags := tags n |}.

(** [l.findIndex(f)] with the element found. *)
Fixpoint findIndex {A} (f : A -> bool) (l : list A) : option (nat * A) :=
  match l with
  | [] => None
  | x :: l' =>
      if f x then Some (O, x)
      else match findIndex f l' with
           | Some (i, y) => Some (S i, y)
           | None => None
           end
  end.

(** Assignment to members of the node object at index [i] of
    [this.rosNodes]. *)
Definition update_node (i : nat) (f : RosNode -> RosNode) (p : Provider) : Provider :=
  with_model (fun m =>
    set_rosNodes (match rosNodes m !! i with
                  | Some n => <[i := f n]> (rosNodes m)
                  | None => rosNodes m
                  end) m) p.

(** A call that is not awaited: however its promise settles, the caller goes
    on. *)
Definition detached {A} (m : Async A) : Async unit :=
  fun p =>
    let r := m p in
    {| settled := Fulfilled tt; after := after r; effects := effects r |}.

(** [l.indexOf(x)], when [x] is in [l]. *)
Fixpoint indexOf (x : string) (l : list string) : option nat :=
  match l with
  | [] => None
  | y :: l' => if bool_decide (y = x) then Some O else S <$> indexOf x l'
  end.

(** ** The state synchronizer *)

Section Synchronizer.

Variable rt : Runtime.

Definition status_of_string (s : string) : RosNodeStatus :=
  if bool_decide (s = "running") then ST_RUNNING
  else if bool_decide (s = "inactive") then ST_INACTIVE
  else if bool_decide (s = "not_monitored") then ST_NOT_MONITORED
  else if bool_decide (s = "dead") then ST_DEAD
  else ST_UNKNOWN.

(** The body of [rawNodeList.forEach] in [getNodeList]. *)
Definition getNodeList_node (n : IRosNode) : Async RosNode :=
  r ← alloc_node;
  mret (set_raw_members n
          (RosNode_new r (raw_id n) (raw_name n) (raw_namespace n) (raw_node_API_URI n)
             (status_of_string (raw_status n)) (raw_pid n) (raw_masteruri n)
             (raw_location n) (raw_system_node n))).

Fixpoint getNodeList_nodes (nodeList : list (string * RosNode))
    (rawNodeList : list IRosNode) : Async (list (string * RosNode)) :=
  match rawNodeList with
  | [] => mret nodeList
  | n :: rest =>
      rn ← getNodeList_node n;
      getNodeList_nodes (Map_set (raw_id n) rn nodeList) rest
  end.

(** [getNodeList()].  A result that is not a list of node records ends in
    the [catch] block of the method or fails its truthiness test: the list
    is empty. *)
Definition getNodeList : Async (list RosNode) :=
  rawNodeList ← catch (makeCall rt URI.ROS_NODES_GET_LIST [] true)
                      (fun err =>
                         (if JsString.includes "wamp.error.no_such_procedure" (to_text err)
                          then modify (with_link (set_discovery false))
                          else mret tt);;
                         mret (JScalar SNull));
  match rawNodeList with
  | JNodeList l =>
      nodeList ← getNodeList_nodes [] l;
      modify (with_link (set_discovery true));;
      mret (snd <$> nodeList)
  | JProviderList [] | JLaunchList [] =>
      modify (with_link (set_discovery true));;
      mret []
  | _ => mret []
  end.

(** [n.location instanceof String && n.location === 'remote'] is false for
    every value; an array is ignored unless one of its entries is local. *)
Definition remote_location (loc : Location) : bool :=
  match loc with
  | LocString _ => false
  | LocArray l =>
      negb (existsb (fun loc => JsString.startsWith "SHM" loc
                                || JsString.startsWith "UDPv4:[127.0.0.1]" loc) l)
  end.

(** The filter of [updateRosNodes]: true for the nodes that are kept. *)
Definition updateRosNodes_filter (p : Provider) (n : RosNode) : bool :=
  let ignored :=
    (* exclude nodes belonging to a different provider *)
    negb (showRemoteNodes (settings p))
    && ((JsString.truthy (ps_masteruri (rosState (model p)))
         && negb (bool_decide (masteruri n = ps_masteruri (rosState (model p)))))
        || remote_location (location n)) in
  (* exclude ignored nodes *)
  let ignored :=
    fold_left (fun ignored ignoredNode =>
                 if JsString.includes ignoredNode (name n) then true else ignored)
              (IGNORED_NODES (settings p)) ignored in
  negb ignored.

(** The body of [nl.forEach] in [updateRosNodes]; the two early returns
    come before the copy of the old state. *)
Definition updateRosNodes_node (p : Provider) (n : RosNode) : RosNode :=
  (* idGlobal should be the same for life of the node on remote host *)
  let n := set_identity (this_id (settings p) +:+ JsString.replaceAll "/" "." (id n))
                        (this_name p) (this_id (settings p)) n in
  if negb (JsString.truthy (node_API_URI n)) then n
  else if negb (JsString.truthy (masteruri n)) then n
  else
    let n :=
      if pid n <=? 0 then
        let hostApiUir := JsString.split_first ":" (node_API_URI n) in
        let hostMasterUri := JsString.split_first ":" (masteruri n) in
        if bool_decide (hostApiUir = hostMasterUri) then set_status ST_DEAD n
        else set_status ST_NOT_MONITORED n
      else n in
    (* copy (selected) old state *)
    match find (fun item => bool_decide (idGlobal item = idGlobal n)) (rosNodes (model p)) with
    | Some oldNode => copy_old_state oldNode n
    | None => n
    end.

(** The members of a launch file as [updateLaunchContent] stores them. *)
Definition LaunchContent_new (me : string) (parsed : LaunchContent) : LaunchContent :=
  {| lc_path := lc_path parsed; lc_args := lc_args parsed;
     lc_masteruri := lc_masteruri parsed; lc_host := lc_host parsed;
     lc_nodes := lc_nodes parsed;
     lc_parameters :=
       (fun q => {| rp_name := rp_name q; rp_value := rp_value q; rp_type := rp_type q;
                    rp_providerId := me |}) <$> lc_parameters parsed;
     lc_associations := lc_associations parsed |}.

(** [nodeParameters]: the parameters of the launch file with the name of
    the node in their name, under that name with its first occurrence
    removed. *)
Definition nodeParameters (uniqueNodeName : string) (launchFile : LaunchContent)
    : list (string * Scalar) :=
  fold_left (fun m q =>
               if JsString.includes uniqueNodeName (rp_name q)
               then Map_set (JsString.replace uniqueNodeName "" (rp_name q)) (rp_value q) m
               else m)
            (lc_parameters launchFile) [].

(** [associations]: the nodes of the last entry for the node. *)
Definition associations_of (uniqueNodeName : string) (launchFile : LaunchContent)
    : list string :=
  fold_left (fun a item =>
               if bool_decide (la_node item = uniqueNodeName) then la_nodes item else a)
            (lc_associations launchFile) [].

(** The inactive node that [updateLaunchContent] makes for a declaration
    without a running node, with its arrays at [r]. *)
Definition inactive_node (r : Ref) (me nm uniqueNodeName : string)
    (launchFile : LaunchContent) (launchNode : LaunchNode) : RosNode :=
  let n := RosNode_new r uniqueNodeName uniqueNodeName
             (default "" (node_namespace launchNode)) "" ST_INACTIVE
             0 "" (LocString "local") false in
  let n := set_launch (nodeParameters uniqueNodeName launchFile) launchNode
             (associations_of uniqueNodeName launchFile) n in
  (* idGlobal should be the same for life of the node on remote host *)
  set_identity (me +:+ JsString.replaceAll "/" "." (id n)) nm me n.

(** The body of [launchFile.nodes.forEach]. *)
Definition updateLaunchContent_node (launchFile : LaunchContent)
    (launchNode : LaunchNode) : Async unit :=
  let uniqueNodeName := match unique_name launchNode with Some s => s | None => "" end in
  if JsString.truthy uniqueNodeName then
    (* if node exist (it is running), only update the associated launch file *)
    nodes ← gets (fun p => rosNodes (model p));
    match findIndex (fun n => bool_decide (name n = uniqueNodeName)) nodes with
    | Some (iNode, node) =>
        modify (add_path (launchPaths node) (lc_path launchFile));;
        modify (update_node iNode
                  (set_launch (nodeParameters uniqueNodeName launchFile) launchNode
                     (associations_of uniqueNodeName launchFile)))
    | None =>
        (* if node is not running add it as inactive node *)
        r ← alloc_node;
        me ← gets (fun p => this_id (settings p));
        nm ← gets this_name;
        let n := inactive_node r me nm uniqueNodeName launchFile launchNode in
        modify (add_path (launchPaths n) (lc_path launchFile));;
        modify (with_model (fun m => set_rosNodes (rosNodes m ++ [n]) m))
    end
  else mret tt.

(** [TagColors[i % TagColors.length]] *)
Definition tag_color_at (i : nat) : option string :=
  TagColors rt !! (i mod length (TagColors rt))%nat.

(** [n?.parent_id || n.launchInfo?.composable_container], then the last
    segment after a vertical bar, when both are truthy. *)
Definition composableParent_of (n : RosNode) : option string :=
  let parent :=
    match parent_id n with
    | Some s => if JsString.truthy s then Some s
                else launchInfo n ≫= composable_container
    | None => launchInfo n ≫= composable_container
    end in
  match parent with
  | Some s =>
      if JsString.truthy s then
        let s' := JsString.split_last "|" s in
        if JsString.truthy s' then Some s' else None
      else None
  | None => None
  end.

(** First loop over [this.rosNodes]: the nodelets. *)
Fixpoint tag_nodelets (composableManagers : list string) (nodes : list RosNode)
    : list string * list RosNode :=
  match nodes with
  | [] => (composableManagers, [])
  | n :: rest =>
      match composableParent_of n with
      | Some composableParent =>
          let composableManagers :=
            if bool_decide (composableParent ∈ composableManagers) then composableManagers
            else composableManagers ++ [composableParent] in
          let n := set_tags [{| tag_text := "Nodelet";
                                tag_color := indexOf composableParent composableManagers
                                             ≫= tag_color_at |}] n in
          let '(managers, rest') := tag_nodelets composableManagers rest in
          (managers, n :: rest')
      | None =>
          let '(managers, rest') := tag_nodelets composableManagers rest in
          (managers, n :: rest')
      end
  end.

(** Second loop: the managers found. *)
Definition tag_manager (composableManagers : list string) (nodes : list RosNode)
    (managerId : string) : list RosNode :=
  match findIndex (fun n => bool_decide (id n = managerId) || bool_decide (name n = managerId))
          nodes with
  | Some (i, node) =>
      <[i := set_tags [{| tag_text := "Manager";
                          tag_color := indexOf (id node) composableManagers
                                       ≫= tag_color_at |}] node]> nodes
  | None => nodes
  end.

Definition set_composable_tags (nodes : list RosNode) : list RosNode :=
  let '(composableManagers, nodes) := tag_nodelets [] nodes in
  fold_left (tag_manager composableManagers) composableManagers nodes.

(** The [then] handler of [updateLaunchContent], for the value of the call
    or, after a failure, the [false] of the [catch] handler.  A value that
    is not a list of launch files: the embedding follows the source on
    scalars and empty arrays, and rejects a list of foreign records. *)
Definition updateLaunchContent_then (value : JSONObject) : Async bool :=
  parsedList ← match value with
               | JLaunchList l => mret l
               | JProviderList [] | JNodeList [] => mret []
               | JScalar _ =>
                   if truthy value
                   then throw (TypeError "parsedList.forEach is not a function")
                   else mret []
               | _ => throw (TypeError "not a list of launch files")
               end;
  me ← gets (fun p => this_id (settings p));
  mine ← gets (fun p => ps_masteruri (rosState (model p)));
  (* filter only the launch files associated to the provider *)
  let launchList :=
    LaunchContent_new me <$>
      filter (fun parsed =>
                ¬ (JsString.truthy mine = true ∧ lc_masteruri parsed ≠ mine)) parsedList in
  modify (with_model (set_launchFiles launchList));;
  perform (EVENT_PROVIDER_LAUNCH_LIST launchList);;
  (* Add nodes from launch files to the list of nodes *)
  forEach (fun launchFile =>
             forEach (updateLaunchContent_node launchFile) (lc_nodes launchFile))
          launchList;;
  (* set tags for nodelets/composable and other tags *)
  modify (with_model (fun m => set_rosNodes (set_composable_tags (rosNodes m)) m));;
  modify (with_link (set_daemon true));;
  nodes ← gets (fun p => rosNodes (model p));
  perform (EVENT_PROVIDER_ROS_NODES nodes);;
  mret true.

(** [updateLaunchContent()]; [resume] is the synchronous rest of a caller
    that did not await it. *)
Definition updateLaunchContentFrom (resume : Async unit) : Async bool :=
  value ← catch (makeCallFrom rt resume URI.ROS_LAUNCH_GET_LIST [] true)
                (fun err =>
                   (if JsString.includes "wamp.error.no_such_procedure" (to_text err)
                    then modify (with_link (set_daemon false))
                    else mret tt);;
                   modify (with_model (set_launchFiles []));;
                   mret JFalse);
  updateLaunchContent_then value.

Definition updateLaunchContent : Async bool := updateLaunchContentFrom (mret tt).

(** [updateRosNodes()].  [updateLaunchContent()] is called at the end and
    not awaited: it runs to its first suspension, then
    [unlockRequest('updateRosNodes')] runs, then the rest of it. *)
Definition updateRosNodes : Async unit :=
  locked ← lockRequest rt (mret tt) "updateRosNodes";
  if locked : bool then mret tt
  else
    (* get nodes from remote provider *)
    nlUnfiltered ← getNodeList;
    nl ← gets (fun p => updateRosNodes_node p <$> filter (fun n => updateRosNodes_filter p n = true) nlUnfiltered);
    modify (with_model (set_rosNodes nl));;
    detached (updateLaunchContentFrom (unlockRequest "updateRosNodes")).

(** The body of [diags.status.forEach] in [updateDiagnostics]. *)
Definition updateDiagnostics_status (status : DiagnosticStatus) : Async unit :=
  nodes ← gets (fun p => rosNodes (model p));
  match findIndex (fun node => bool_decide (id node = ds_name status)) nodes with
  | Some (i, matchingNode) =>
      modify (update_node i (set_diagnostic (level status) (message status)));;
      recorded ← gets (fun p => history p (diagnosticStatus matchingNode));
      match last recorded with
      | None => modify (push_status (diagnosticStatus matchingNode) status)
      | Some lastStatus =>
          (* do not add the same value *)
          if negb (bool_decide (level lastStatus = level status))
             || negb (bool_decide (message lastStatus = message status))
             || negb (bool_decide (length (values lastStatus) = length (values status)))
          then modify (push_status (diagnosticStatus matchingNode) status)
          else mret tt
      end
  | None => mret tt
  end.

(** [getDiagnostics()] *)
Definition getDiagnostics : Async JSONObject :=
  catch (makeCall rt URI.ROS_PROVIDER_GET_DIAGNOSTICS [] true)
        (fun _ => mret (JScalar SNull)).

(** [updateDiagnostics(msg)]; [None] is the [null] of a request. *)
Definition updateDiagnostics (msg : option DiagnosticArray) : Async bool :=
  diags ← match msg with
          | Some d => mret (JDiagnostics d)
          | None => getDiagnostics
          end;
  match diags with
  | JScalar SNull => mret false
  | JDiagnostics d =>
      forEach updateDiagnostics_status (da_status d);;
      mret true
  | _ => throw (TypeError "Cannot read properties of undefined (reading 'forEach')")
  end.

End Synchronizer.

(** * Vocabulary of the properties *)

(** The value that reaches the [catch] block of [callRequest]. *)
Definition caught (o : CallOutcome) : option Exn :=
  match o with
  | Resolved _ => None
  | Rejected reason => Some (Error reason)
  | Thrown e => Some e
  end.

(** The classification of the [catch] block: true when the error falls
    through to the attempt test, false when it ends the call. *)
Definition retried (rt : Runtime) (err : Exn) : bool :=
  if JsString.includes "{" (to_text err) then
    match JSON_parse rt (to_text err) with
    | None => false
    | Some (Some e) => negb (JsString.includes "wamp.error.runtime_error" e)
    | Some None => true
    end
  else match err with
       | ExnString s => negb (bool_decide (s = "Connection is closed"))
       | ExnError _ _ => true
       end.

Definition fails_retryably (rt : Runtime) (o : CallOutcome) : bool :=
  match caught o with
  | Some err => retried rt err
  | None => false
  end.

Definition is_call (e : Effect) : bool :=
  match e with ConnectionCall _ _ => true | _ => false end.

(** The number of invocations of [connection.call] among the effects. *)
Definition invocations (l : list Effect) : nat := length (List.filter is_call l).

Definition max_attempts_error (p : Provider) (uri : string) : Exn :=
  Error ("[CROSSBAR] (" +:+ uri +:+ ") [" +:+ this_name p +:+ "]: Max call attempts ("
         +:+ pretty (callAttempts (settings p)) +:+ ") reached!").

Definition already_running_error (rt : Runtime) (p : Provider) (uri : string)
    (args : list Arg) : Exn :=
  Error ("[" +:+ this_name p +:+ "]: Ignoring request to: [" +:+ uri +:+ "] with "
         +:+ JSON_stringify rt args +:+ ", request already running!").

Definition request_failed_error (p : Provider) (uri : string) (err : Exn) : Exn :=
  Error ("[" +:+ this_name p +:+ "]: request to [" +:+ uri +:+ "] failed: " +:+ to_text err).

(** A run with earlier effects put in front. *)
Definition prepend {A} (ev : list Effect) (r : Run A) : Run A :=
  {| settled := settled r; after := after r; effects := ev ++ effects r |}.

(** The provider after an awaited delay, after an invocation of the
    transport, and with a request locked. *)
Definition delayed (rt : Runtime) (p : Provider) (ms : Z) : Provider :=
  with_dispatch (fun d =>
    {| currentRequestList := while_delayed rt (delays d) ms (currentRequestList d);
       calls := calls d; delays := S (delays d) |}) p.

Definition called (p : Provider) : Provider :=
  with_dispatch (fun d =>
    {| currentRequestList := currentRequestList d;
       calls := S (calls d); delays := delays d |}) p.

Definition locked (uri : string) (p : Provider) : Provider :=
  with_dispatch (fun d => set_currentRequestList ({[uri]} ∪ currentRequestList d) d) p.

Definition unlocked (uri : string) (p : Provider) : Provider :=
  with_dispatch (fun d => set_currentRequestList (currentRequestList d ∖ {[uri]}) d) p.

(** The sign of the clock-skew estimate: negative exactly when
    [Tr - T0 < 0]. *)
Definition skew_sign (T0 Tr : float) : float :=
  if (Tr - T0 <? 0)%float then (-1)%float else 1%float.

(** The estimate in the words of the specification,
    [sign * (|Tr - T0| + |T1 - Tr| - (T1 - T0)) / 2], on the numbers of the
    program. *)
Definition skew_formula (T0 T1 Tr : float) : float :=
  (skew_sign T0 Tr
   * (PrimFloat.abs (Tr - T0) + PrimFloat.abs (T1 - Tr) - (T1 - T0)) / 2)%float.

(** The sign bit of a number, [None] for NaN. *)
Definition SFsign (x : spec_float) : option bool :=
  match x with
  | S754_nan => None
  | S754_zero s | S754_infinity s | S754_finite s _ _ => Some s
  end.

Definition sign_bit (x : float) : option bool := SFsign (Prim2SF x).

(** The provider after the synchronous part of [updateDaemonInit()]: with
    a connection, the request of the daemon version is locked. *)
Definition daemon_requested (p : Provider) : Provider :=
  if isAvailable p && negb (has_request URI.ROS_DAEMON_VERSION p)
  then locked URI.ROS_DAEMON_VERSION p else p.

(** Two providers that differ at most in the bookkeeping of the dispatcher. *)
Definition same_but_dispatch (p q : Provider) : Prop :=
  settings q = settings p /\ link q = link p /\ model q = model p /\ store q = store p.

(** The provider with [topic] pushed on [echoTopics]. *)
Definition started (topic : string) (p : Provider) : Provider :=
  with_model (fun m => set_echoTopics (echoTopics m ++ [topic]) m) p.

(** The remote call of [startSubscriber]. *)
Definition subscribe_call (rt : Runtime) (request : SubscriberNode) : Async JSONObject :=
  makeCall rt URI.ROS_SUBSCRIBER_START [ArgSubscriberNode request] true.

(** The remote call failed: its promise was rejected, or it resolved with
    a falsy value. *)
Definition failed (s : Settled JSONObject) : Prop :=
  match s with
  | RejectedWith _ => True
  | Fulfilled v => truthy v = false
  | Unsettled => False
  end.

(** A status differs from the one recorded last in its level, its message
    or the number of its values. *)
Definition differs (lastStatus status : DiagnosticStatus) : Prop :=
  level lastStatus <> level status
  \/ message lastStatus <> message status
  \/ length (values lastStatus) <> length (values status).

(** The condition under which [updateDiagnostics] pushes [status] on a
    history: the history is empty, or [status] differs from its last
    entry. *)
Definition is_news (recorded : list DiagnosticStatus) (status : DiagnosticStatus) : Prop :=
  match last recorded with
  | None => True
  | Some lastStatus => differs lastStatus status
  end.

#[global] Instance is_news_decision recorded status : Decision (is_news recorded status).
Proof. unfold is_news, differs. destruct (last recorded); apply _. Defined.







(** The peers of a pulled list: the entries that are not the endpoint
    itself. *)
Definition peers (rosProviders : list RosProviderState) : list RosProviderState :=
  List.filter (fun ps => negb (origin ps)) rosProviders.

(** The address/port key of a peer descriptor: the url of the provider
    object that [updateProviderList] constructs for it. *)
Definition peer_url (rt : Runtime) (ps : RosProviderState) : string :=
  connection_uri rt (ps_host ps)
    (if JsString.truthy (ps_ros_version ps) then ps_ros_version ps else "2")
    (ps_port ps) false.

(** The provider object constructed for a peer, as the [n]-th object. *)
Definition peer_provider (me : string) (n : nat) (ps : RosProviderState) : RemoteProvider :=
  {| object := n; remote_id := ps_host ps +:+ "-" +:+ pretty n; remote_host := ps_host ps;
     remote_rosVersion :=
       if JsString.truthy (ps_ros_version ps) then ps_ros_version ps else "2";
     remote_port := ps_port ps; remote_useSSL := false; remote_rosState := ps;
     discovered := [me] |}.

(** The provider objects constructed for a pulled list, from object [n] on. *)
Fixpoint new_peers (me : string) (n : nat) (rosProviders : list RosProviderState)
    : list RemoteProvider :=
  match rosProviders with
  | [] => []
  | ps :: rest =>
      if origin ps then new_peers me n rest
      else peer_provider me n ps :: new_peers me (S n) rest
  end.

(** The old provider objects that no entry of a pulled list matches by
    url. *)
Fixpoint surviving (rt : Runtime) (old : list RemoteProvider)
    (rosProviders : list RosProviderState) : list RemoteProvider :=
  match rosProviders with
  | [] => old
  | ps :: rest =>
      if origin ps then surviving rt old rest
      else surviving rt (filter (fun orp => url rt orp <> peer_url rt ps) old) rest
  end.

Definition discovered_events (l : list Effect) : list RemoteProvider :=
  omap (fun e => match e with EVENT_PROVIDER_DISCOVERED np => Some np | _ => None end) l.

Definition removed_events (l : list Effect) : list RemoteProvider :=
  omap (fun e => match e with EVENT_PROVIDER_REMOVED rp => Some rp | _ => None end) l.

(** ** Further vocabulary *)

(** The delays that a run waits for, in order. *)
Definition waits (l : list Effect) : list Z :=
  omap (fun e => match e with Timer ms => Some ms | _ => None end) l.

(** The state events of a run. *)
Definition state_events (l : list Effect)
    : list (ConnectionState * ConnectionState * string) :=
  omap (fun e => match e with
                 | EVENT_PROVIDER_STATE s old details => Some (s, old, details)
                 | _ => None
                 end) l.

(** The order in which [getMaxDiagnosticLevel] ranks the levels. *)
Definition severity (lvl : DiagnosticLevel) : nat :=
  match lvl with OK => 0 | STALE => 1 | WARN => 2 | ERROR => 3 end%nat.

(** A [Map] of nodes by id: every key is the id of its node, and no key
    occurs twice. *)
Definition keyed_by_id (m : list (string * RosNode)) : Prop :=
  NoDup (fst <$> m) /\ Forall (fun kv => id (snd kv) = fst kv) m.

(** ** Reconciling the node list

    The provider after the allocation of the two objects of a new node. *)
Definition alloc_node_after (p : Provider) : Provider :=
  with_store (fun s =>
    {| diagnosticArrays := <[allocated s := []]> (diagnosticArrays s);
       launchPathSets := <[S (allocated s) := []]> (launchPathSets s);
       allocated := S (S (allocated s)) |}) p.

(** The node that [getNodeList] makes of a raw record, with its arrays at
    [r]. *)
Definition node_of_raw (r : Ref) (n : IRosNode) : RosNode :=
  set_raw_members n
    (RosNode_new r (raw_id n) (raw_name n) (raw_namespace n) (raw_node_API_URI n)
       (status_of_string (raw_status n)) (raw_pid n) (raw_masteruri n)
       (raw_location n) (raw_system_node n)).

(** [map.get(k)] on a [Map] kept as an association list. *)
Definition Map_get {V} (k : string) (m : list (string * V)) : option V :=
  snd <$> find (fun kv => bool_decide (fst kv = k)) m.

(** The last node of a list with the id [k]. *)
Definition last_with (k : string) (nodes : list RosNode) : option RosNode :=
  last (filter (fun n => id n = k) nodes).

(** The node objects that [getNodeList] makes of the records of a pull, in
    the order of the records; the arrays of the first are at [r], those of
    the next two references on. *)
Fixpoint nodes_made (r : Ref) (l : list IRosNode) : list RosNode :=
  match l with
  | [] => []
  | raw :: l' => node_of_raw r raw :: nodes_made (S (S r)) l'
  end.

(** The [Map] that [getNodeList] fills: the keys in the order of their
    first insertion, each with the node inserted last under it. *)
Definition Map_of_nodes (m : list (string * RosNode)) (nodes : list RosNode)
  : list (string * RosNode) :=
  fold_left (fun m n => Map_set (id n) n m) nodes m.

(** The launch file passes the filter of [updateLaunchContent]. *)
Definition passes (p : Provider) (bundle : LaunchContent) : Prop :=
  JsString.truthy (ps_masteruri (rosState (model p))) = false
  \/ lc_masteruri bundle = ps_masteruri (rosState (model p)).

(** The provider after [updateLaunchContent] has added the declaration
    [launchNode] as an inactive node, and after it has attached it to the
    node [n] at index [i]. *)
Definition declared (launchFile : LaunchContent) (launchNode : LaunchNode) (nm : string)
    (p : Provider) : Provider :=
  let n := inactive_node (allocated (store p)) (this_id (settings p)) (this_name p) nm
             launchFile launchNode in
  with_model (fun m => set_rosNodes (rosNodes m ++ [n]) m)
    (add_path (launchPaths n) (lc_path launchFile) (alloc_node_after p)).

Definition attached (launchFile : LaunchContent) (launchNode : LaunchNode) (nm : string)
    (i : nat) (n : RosNode) (p : Provider) : Provider :=
  update_node i (set_launch (nodeParameters nm launchFile) launchNode
                   (associations_of nm launchFile))
    (add_path (launchPaths n) (lc_path launchFile) p).

(** ** Invariants of a run *)

(** A method keeps an invariant of the provider, however its promise
    settles. *)
Definition preserves {A} (Inv : Provider -> Prop) (m : Async A) : Prop :=
  forall p, Inv p -> Inv (after (m p)).

(** Two node objects with the same name, status, pid and diagnostics (the
    history array, the level and the message). *)
Definition same_core (n n' : RosNode) : Prop :=
  name n' = name n /\ status n' = status n /\ pid n' = pid n
  /\ diagnosticStatus n' = diagnosticStatus n
  /\ diagnosticLevel n' = diagnosticLevel n
  /\ diagnosticMessage n' = diagnosticMessage n.

(** The nodes of a list with the name [nm], in order. *)
Definition named (nm : string) (nodes : list RosNode) : list RosNode :=
  filter (fun n => name n = nm) nodes.

(** The nodes named [nm] are one node, with the name, status, pid and
    diagnostics of [n]. *)
Definition one_named (nm : string) (n : RosNode) (nodes : list RosNode) : Prop :=
  exists n', named nm nodes = [n'] /\ same_core n n'.

(** The model holds one node named [nm], which is [n] up to the members
    that a pull of the launch files sets, and the history array of [n] is
    an allocated array with the content [content]. *)
Definition merged (nm : string) (n : RosNode) (content : option (list DiagnosticStatus))
    (q : Provider) : Prop :=
  one_named nm n (rosNodes (model q))
  /\ diagnosticArrays (store q) !! diagnosticStatus n = content
  /\ (diagnosticStatus n < allocated (store q))%nat.

(** The settings and the model are those of [p], and the array at [r] is
    allocated and has its content in [p]. *)
Definition kept (p : Provider) (r : Ref) (q : Provider) : Prop :=
  settings q = settings p /\ model q = model p
  /\ diagnosticArrays (store q) !! r = diagnosticArrays (store p) !! r
  /\ (r < allocated (store q))%nat.

(** ** Example inputs *)

Module Examples.

Definition settings0 (attempts : Z) : Settings :=
  {| this_id := "h1-0"; userName := ""; connection_host := "h1";
     callAttempts := attempts; delayCallAttempts := 1000;
     showRemoteNodes := false; IGNORED_NODES := [] |}.

(** A connected session with an empty model. *)
Definition provider0 (attempts : Z) (inflight : gset string) : Provider :=
  {| settings := settings0 attempts;
     link := {| connection_connected := true; connectionState := CROSSBAR_REGISTERED;
                errorDetails := ""; daemon := true; discovery := false |};
     dispatch := {| currentRequestList := inflight; calls := 0; delays := 0 |};
     model := {| rosState := new_RosProviderState; launchFiles := []; rosNodes := [];
                 remoteProviders := []; hostnames := ["h1"]; echoTopics := [] |};
     store := {| diagnosticArrays := ∅; launchPathSets := ∅; allocated := 0 |} |}.

(** A runtime whose transport answers by [answer], in which nothing else
    runs during a delay. *)
Definition runtime0 (answer : nat -> string -> CallOutcome) : Runtime :=
  {| connection_call := fun n uri _ => answer n uri;
     while_delayed := fun _ _ s => s;
     JSON_parse_error := fun _ => None;
     SyntaxError_message := fun _ => "Unexpected token";
     JSON_stringify := fun _ => "[]";
     connection_uri := fun host _ port _ => "ws://" +:+ host +:+ ":" +:+ pretty port;
     TagColors := ["red"; "green"; "blue"] |}.

(** Every invocation times out. *)
Definition timing_out : Runtime := runtime0 (fun _ _ => Rejected "timeout").

(** Every invocation is rejected because the connection is closed. *)
Definition closed : Runtime := runtime0 (fun _ _ => Rejected "Connection is closed").

(** The peer list of the discovery scenario: the endpoint itself on h1 and
    one peer on h2, port 7777. *)
Definition self_h1 : RosProviderState :=
  {| origin := true; ps_name := "h1"; ps_host := "h1"; ps_hostnames := ["h1"];
     ps_ros_version := "2"; ps_port := 35430; ps_masteruri := "" |}.

Definition peer_h2 : RosProviderState :=
  {| origin := false; ps_name := "h2"; ps_host := "h2"; ps_hostnames := ["h2"];
     ps_ros_version := "2"; ps_port := 7777; ps_masteruri := "" |}.

(** Every pull of the peer list returns the same list. *)
Definition discovering : Runtime :=
  runtime0 (fun _ _ => Resolved (JProviderList [self_h1; peer_h2])).

(** A second peer, on h3, port 7778. *)
Definition peer_h3 : RosProviderState :=
  {| origin := false; ps_name := "h3"; ps_host := "h3"; ps_hostnames := ["h3"];
     ps_ros_version := "2"; ps_port := 7778; ps_masteruri := "" |}.

(** The first pull of the peer list reports the peers on h2 and h3, every
    later pull the peer on h2 only. *)
Definition forgetting : Runtime :=
  runtime0 (fun n _ =>
              if bool_decide (n = 0%nat)
              then Resolved (JProviderList [self_h1; peer_h2; peer_h3])
              else Resolved (JProviderList [self_h1; peer_h2])).

(** The request of the echo scenario. *)
Definition chatter : SubscriberNode :=
  {| topic := "/chatter"; message_type := "std_msgs/msg/String" |}.

(** The launch file of the reconciliation scenario: it declares the node
    "/talker". *)
Definition talker_launch : LaunchNode :=
  {| unique_name := Some "/talker"; node_namespace := Some "/";
     composable_container := None |}.

Definition demo_launch : LaunchContent :=
  {| lc_path := "/opt/demo.launch"; lc_args := []; lc_masteruri := ""; lc_host := "h1";
     lc_nodes := [talker_launch]; lc_parameters := []; lc_associations := [] |}.

(** A running process named "/talker" with pid 1234, as the node list
    reports it under the id [i] and with the master uri [mu]. *)
Definition talker (i mu : string) : IRosNode :=
  {| raw_id := i; raw_name := "/talker"; raw_status := "running"; raw_namespace := "/";
     raw_node_API_URI := "h1:40001"; raw_pid := 1234; raw_masteruri := mu;
     raw_location := LocString "local";
     raw_publishers := []; raw_subscribers := []; raw_services := []; raw_screens := [];
     raw_system_node := false; raw_parent_id := None |}.

(** Every pull of the node list reports the talker, every other pull the
    launch file. *)
Definition launching (i mu : string) : Runtime :=
  runtime0 (fun _ uri =>
              if bool_decide (uri = URI.ROS_NODES_GET_LIST)
              then Resolved (JNodeList [talker i mu])
              else Resolved (JLaunchList [demo_launch])).

(** Another running process, "/listener". *)
Definition listener : IRosNode :=
  {| raw_id := "/listener"; raw_name := "/listener"; raw_status := "running";
     raw_namespace := "/"; raw_node_API_URI := "h1:40002"; raw_pid := 1235;
     raw_masteruri := "h1:11311"; raw_location := LocString "local";
     raw_publishers := []; raw_subscribers := []; raw_services := []; raw_screens := [];
     raw_system_node := false; raw_parent_id := None |}.

(** The first invocation, a pull of the launch files, gives the launch
    file; after it every pull of the launch files times out, and every pull
    of the node list reports the listener and the talker. *)
Definition launch_lost : Runtime :=
  runtime0 (fun n uri =>
              if bool_decide (uri = URI.ROS_NODES_GET_LIST)
              then Resolved (JNodeList [listener; talker "/talker" "h1:11311"])
              else if bool_decide (n = 0%nat) then Resolved (JLaunchList [demo_launch])
                   else Rejected "timeout").

Definition slow : DiagnosticStatus :=
  {| level := WARN; ds_name := "/talker"; message := "slow"; hardware_id := "";
     values := [] |}.

(** The session after the launch file was pulled and a diagnostic status
    was recorded for the declared node. *)
Definition declared_talker (rt : Runtime) : Provider :=
  after (updateDiagnostics rt (Some {| timestamp := 0; da_status := [slow] |})
           (after (updateLaunchContent rt (provider0 2 ∅)))).

(** The entry of the declared node in that session. *)
Definition talker_entry : RosNode :=
  set_diagnostic WARN "slow"
    (inactive_node O "h1-0" "h1" "/talker" (LaunchContent_new "h1-0" demo_launch)
       talker_launch).

(** What a session shows of its nodes. *)
Definition summary (p : Provider) :
    list (string * RosNodeStatus * Z * list DiagnosticStatus) :=
  (fun n => (name n, status n, pid n, history p (diagnosticStatus n))) <$> rosNodes (model p).

(** The first two invocations time out, the third resolves. *)
Definition recovering : Runtime :=
  runtime0 (fun n _ => if (n <? 2)%nat then Rejected "timeout" else Resolved JTrue).

(** Every invocation is rejected with the report of a runtime error. *)
Definition reporting : Runtime :=
  runtime0 (fun _ _ => Rejected "{'error': 'wamp.error.runtime_error'}").

(** Every invocation throws the string of a closed connection. *)
Definition throwing_closed : Runtime :=
  runtime0 (fun _ _ => Thrown (ExnString "Connection is closed")).

(** Every invocation resolves, and the requests in flight end during a
    delay. *)
Definition releasing : Runtime :=
  {| connection_call := fun _ _ _ => Resolved JTrue;
     while_delayed := fun _ _ _ => ∅;
     JSON_parse_error := fun _ => None;
     SyntaxError_message := fun _ => "Unexpected token";
     JSON_stringify := fun _ => "[]";
     connection_uri := fun host _ port _ => "ws://" +:+ host +:+ ":" +:+ pretty port;
     TagColors := ["red"; "green"; "blue"] |}.

(** A session that ignores the nodes with [talk] in their names. *)
Definition ignoring : Provider :=
  {| settings := {| this_id := "h1-0"; userName := ""; connection_host := "h1";
                    callAttempts := 2; delayCallAttempts := 1000;
                    showRemoteNodes := true; IGNORED_NODES := ["talk"] |};
     link := link (provider0 2 ∅); dispatch := dispatch (provider0 2 ∅);
     model := model (provider0 2 ∅); store := store (provider0 2 ∅) |}.

End Examples.

(** * Properties *)

(** ** Running the monad *)

Lemma run_bind {A B} (m : Async A) (k : A -> Async B) (p : Provider) :
  (m ≫= k) p =
  match settled (m p) with
  | Fulfilled a => prepend (effects (m p)) (k a (after (m p)))
  | RejectedWith e =>
      {| settled := RejectedWith e; after := after (m p); effects := effects (m p) |}
  | Unsettled =>
      {| settled := Unsettled; after := after (m p); effects := effects (m p) |}
  end.
Proof. unfold mbind, Async_bind. destruct (settled (m p)); reflexivity. Qed.

Lemma run_gets {A} (f : Provider -> A) p :
  gets f p = {| settled := Fulfilled (f p); after := p; effects := [] |}.
Proof. reflexivity. Qed.

Lemma run_modify f p :
  modify f p = {| settled := Fulfilled tt; after := f p; effects := [] |}.
Proof. reflexivity. Qed.

Lemma run_perform e p :
  perform e p = {| settled := Fulfilled tt; after := p; effects := [e] |}.
Proof. reflexivity. Qed.

Lemma run_mret {A} (a : A) p :
  (mret a : Async A) p = {| settled := Fulfilled a; after := p; effects := [] |}.
Proof. reflexivity. Qed.

Lemma run_throw {A} e p :
  (throw e : Async A) p = {| settled := RejectedWith e; after := p; effects := [] |}.
Proof. reflexivity. Qed.

Lemma run_catch {A} (m : Async A) (h : Exn -> Async A) p :
  catch m h p =
  match settled (m p) with
  | RejectedWith e => prepend (effects (m p)) (h e (after (m p)))
  | _ => m p
  end.
Proof. unfold catch. destruct (settled (m p)); reflexivity. Qed.

Lemma prepend_nil {A} (r : Run A) : prepend [] r = r.
Proof. destruct r; reflexivity. Qed.

Lemma invocations_app l1 l2 :
  invocations (l1 ++ l2) = (invocations l1 + invocations l2)%nat.
Proof. unfold invocations. rewrite List.filter_app, length_app. reflexivity. Qed.

Ltac unfold_async :=
  cbv beta iota zeta delta
    [mbind Async_bind mret Async_ret gets modify perform throw catch unsettled].

(** One step of a run: the first operation of a bind is replaced by its
    run, given by [lemma]. *)
Tactic Notation "run_with" uconstr(lemma) :=
  rewrite run_bind; rewrite lemma; cbn [settled after effects prepend].

(** All the steps that the primitive operations allow. *)
Ltac run_primitives :=
  repeat (progress (rewrite ?run_bind, ?run_gets, ?run_modify, ?run_perform, ?run_mret,
                      ?run_throw;
                    cbn [settled after effects prepend])).

(** ** The call dispatcher *)

Section DispatcherProperties.

Variable rt : Runtime.

Lemma unlockRequest_run (uri : string) (p : Provider) :
  unlockRequest uri p =
  {| settled := Fulfilled tt; after := unlocked uri p;
     effects := if bool_decide (size (currentRequestList (dispatch p) ∖ {[uri]}) = 0%nat)
                then [EVENT_PROVIDER_ACTIVITY false ""] else [] |}.
Proof.
  unfold unlockRequest. unfold_async. simpl.
  destruct (bool_decide _); reflexivity.
Qed.

Lemma lockRequest_free uri p :
  uri ∉ currentRequestList (dispatch p) ->
  lockRequest rt (mret tt) uri p =
  {| settled := Fulfilled false; after := locked uri p;
     effects := [EVENT_PROVIDER_ACTIVITY true uri] |}.
Proof.
  intros H. unfold lockRequest, has_request. unfold_async. simpl.
  rewrite (bool_decide_eq_false_2 _ H). reflexivity.
Qed.

Lemma lockRequest_held uri p :
  uri ∈ currentRequestList (dispatch p) ->
  uri ∈ while_delayed rt (delays (dispatch p)) 1000 (currentRequestList (dispatch p)) ->
  lockRequest rt (mret tt) uri p =
  {| settled := Fulfilled true; after := delayed rt p 1000; effects := [Timer 1000] |}.
Proof.
  intros H1 H2. unfold lockRequest, delay, has_request. unfold_async. simpl.
  rewrite (bool_decide_eq_true_2 _ H1). simpl.
  rewrite (bool_decide_eq_true_2 _ H2). reflexivity.
Qed.

Lemma callRequest_catch_exhausted retry uri cur err p :
  retried rt err = true ->
  (cur >=? callAttempts (settings p)) = true ->
  callRequest_catch rt retry uri cur err p =
  {| settled := RejectedWith (max_attempts_error p uri);
     after := after (unlockRequest uri p);
     effects := effects (unlockRequest uri p) |}.
Proof.
  intros H Hc. unfold callRequest_catch, retried in *.
  rewrite run_bind.
  assert (Hlimit :
    (attempts ← gets (fun p => callAttempts (settings p));
     if cur >=? attempts then
       unlockRequest uri;;
       nm ← gets this_name;
       throw (Error ("[CROSSBAR] (" +:+ uri +:+ ") [" +:+ nm +:+ "]: Max call attempts ("
                     +:+ pretty attempts +:+ ") reached!"))
     else
       ms ← gets (fun p => delayCallAttempts (settings p));
       delay rt (mret tt) ms;;
       retry) p =
    {| settled := RejectedWith (max_attempts_error p uri);
       after := after (unlockRequest uri p);
       effects := effects (unlockRequest uri p) |}).
  { run_with run_gets. rewrite Hc. run_with unlockRequest_run.
    run_with run_gets. rewrite run_throw.
    unfold prepend; cbn [settled after effects]. rewrite app_nil_r. reflexivity. }
  destruct (JsString.includes "{" (to_text err)).
  - destruct (JSON_parse rt (to_text err)) as [[e|]|]; try discriminate.
    + apply negb_true_iff in H. rewrite H, run_mret.
      cbn [settled after effects]. rewrite prepend_nil. exact Hlimit.
    + rewrite run_mret.
      cbn [settled after effects]. rewrite prepend_nil. exact Hlimit.
  - destruct err as [s|n m].
    + apply negb_true_iff in H. rewrite H, run_mret.
      cbn [settled after effects]. rewrite prepend_nil. exact Hlimit.
    + rewrite run_mret.
      cbn [settled after effects]. rewrite prepend_nil. exact Hlimit.
Qed.

Lemma callRequest_catch_retry retry uri cur err p :
  retried rt err = true ->
  (cur >=? callAttempts (settings p)) = false ->
  callRequest_catch rt retry uri cur err p =
  let q := delayed rt p (delayCallAttempts (settings p)) in
  {| settled := settled (retry q); after := after (retry q);
     effects := Timer (delayCallAttempts (settings p)) :: effects (retry q) |}.
Proof.
  intros H Hc. unfold callRequest_catch, retried in *.
  rewrite run_bind.
  assert (Hlimit :
    (attempts ← gets (fun p => callAttempts (settings p));
     if cur >=? attempts then
       unlockRequest uri;;
       nm ← gets this_name;
       throw (Error ("[CROSSBAR] (" +:+ uri +:+ ") [" +:+ nm +:+ "]: Max call attempts ("
                     +:+ pretty attempts +:+ ") reached!"))
     else
       ms ← gets (fun p => delayCallAttempts (settings p));
       delay rt (mret tt) ms;;
       retry) p =
    let q := delayed rt p (delayCallAttempts (settings p)) in
    {| settled := settled (retry q); after := after (retry q);
       effects := Timer (delayCallAttempts (settings p)) :: effects (retry q) |}).
  { run_with run_gets. rewrite Hc. run_with run_gets.
    rewrite run_bind. unfold delay.
    run_with run_perform. run_with run_mret. rewrite run_modify.
    cbn [settled after effects prepend]. fold (delayed rt p (delayCallAttempts (settings p))).
    unfold prepend; cbn [settled after effects app].
    destruct (retry _); reflexivity. }
  destruct (JsString.includes "{" (to_text err)).
  - destruct (JSON_parse rt (to_text err)) as [[e|]|]; try discriminate.
    + apply negb_true_iff in H. rewrite H, run_mret.
      cbn [settled after effects]. rewrite prepend_nil. exact Hlimit.
    + rewrite run_mret.
      cbn [settled after effects]. rewrite prepend_nil. exact Hlimit.
  - destruct err as [s|n m].
    + apply negb_true_iff in H. rewrite H, run_mret.
      cbn [settled after effects]. rewrite prepend_nil. exact Hlimit.
    + rewrite run_mret.
      cbn [settled after effects]. rewrite prepend_nil. exact Hlimit.
Qed.

(** A thrown string ['Connection is closed'] ends the call at once. *)
Lemma callRequest_catch_thrown_closed retry uri cur p :
  callRequest_catch rt retry uri cur (ExnString "Connection is closed") p =
  {| settled := RejectedWith (request_failed_error p uri (ExnString "Connection is closed"));
     after := after (unlockRequest uri p);
     effects := effects (unlockRequest uri p) |}.
Proof.
  unfold callRequest_catch. rewrite run_bind.
  change (JsString.includes "{" (to_text (ExnString "Connection is closed"))) with false.
  cbv iota. rewrite bool_decide_eq_true_2 by reflexivity.
  run_with unlockRequest_run. run_with run_gets. rewrite run_throw.
  unfold prepend; cbn [settled after effects]. rewrite app_nil_r. reflexivity.
Qed.

Lemma callRequest_unfold fuel resume uri args cur p :
  callRequest rt fuel resume uri args cur p =
  (outcome ← invoke rt uri args;
   resume;;
   let retry :=
     match fuel with
     | O => unsettled
     | S fuel' => callRequest rt fuel' (mret tt) uri args (cur + 1)
     end in
   match outcome with
   | Resolved r => mret r
   | Rejected reason => callRequest_catch rt retry uri cur (Error reason)
   | Thrown e => callRequest_catch rt retry uri cur e
   end) p.
Proof. destruct fuel; reflexivity. Qed.

Lemma invoke_run uri args p :
  invoke rt uri args p =
  {| settled := Fulfilled (connection_call rt (calls (dispatch p)) uri args);
     after := called p; effects := [ConnectionCall uri args] |}.
Proof. reflexivity. Qed.

Lemma callRequest_resolved fuel uri args cur p v :
  connection_call rt (calls (dispatch p)) uri args = Resolved v ->
  callRequest rt fuel (mret tt) uri args cur p =
  {| settled := Fulfilled v; after := called p; effects := [ConnectionCall uri args] |}.
Proof.
  intros H. rewrite callRequest_unfold.
  run_with invoke_run. run_with run_mret. rewrite H. reflexivity.
Qed.

Lemma callRequest_failed fuel uri args cur p err :
  caught (connection_call rt (calls (dispatch p)) uri args) = Some err ->
  callRequest rt fuel (mret tt) uri args cur p =
  let retry :=
    match fuel with
    | O => unsettled
    | S fuel' => callRequest rt fuel' (mret tt) uri args (cur + 1)
    end in
  prepend [ConnectionCall uri args] (callRequest_catch rt retry uri cur err (called p)).
Proof.
  intros H. rewrite callRequest_unfold.
  run_with invoke_run. run_with run_mret.
  destruct (connection_call rt (calls (dispatch p)) uri args) as [v|reason|e];
    simpl in H; inversion H; subst; reflexivity.
Qed.

(** When every invocation fails with an error that the [catch] block
    lets through, [callRequest] makes one invocation more than
    [callAttempts - currentAttempt] and then gives up. *)
Lemma callRequest_exhausted uri args : forall fuel cur p,
  (forall k, fails_retryably rt
               (connection_call rt (calls (dispatch p) + k)%nat uri args) = true) ->
  callAttempts (settings p) - cur = Z.of_nat fuel ->
  let r := callRequest rt fuel (mret tt) uri args cur p in
  settled r = RejectedWith (max_attempts_error p uri)
  /\ invocations (effects r) = S fuel
  /\ calls (dispatch (after r)) = (calls (dispatch p) + S fuel)%nat
  /\ settings (after r) = settings p /\ link (after r) = link p
  /\ model (after r) = model p /\ store (after r) = store p.
Proof.
  induction fuel as [|fuel IH]; intros cur p Hfail Hfuel r; subst r.
  - pose proof (Hfail 0%nat) as H0. rewrite Nat.add_0_r in H0.
    unfold fails_retryably in H0.
    destruct (caught _) as [err|] eqn:Hc; [|discriminate].
    rewrite (callRequest_failed _ _ _ _ _ _ Hc). cbv zeta.
    rewrite callRequest_catch_exhausted;
      [| exact H0 | apply Z.geb_le; simpl; lia].
    rewrite unlockRequest_run. simpl.
    repeat split; try lia.
    destruct (bool_decide _); reflexivity.
  - pose proof (Hfail 0%nat) as H0. rewrite Nat.add_0_r in H0.
    unfold fails_retryably in H0.
    destruct (caught _) as [err|] eqn:Hc; [|discriminate].
    rewrite (callRequest_failed _ _ _ _ _ _ Hc). cbv zeta.
    rewrite callRequest_catch_retry;
      [| exact H0 | rewrite Z.geb_leb; apply Z.leb_gt; simpl; lia].
    cbv zeta.
    match goal with |- context [callRequest rt fuel _ uri args (cur + 1) ?q] =>
      specialize (IH (cur + 1) q) end.
    simpl in IH.
    destruct IH as (E1 & E2 & E3 & E4 & E5 & E6 & E7).
    { intros k. specialize (Hfail (S k)).
      rewrite <- Nat.add_succ_comm in Hfail. exact Hfail. }
    { lia. }
    simpl. split; [exact E1|]. split.
    { change (invocations (ConnectionCall uri args
                           :: Timer (delayCallAttempts (settings p)) :: ?l))
        with (S (invocations l)). rewrite E2. reflexivity. }
    split; [rewrite E3; lia|]. repeat split; assumption.
Qed.

Lemma makeCall_exhausted uri args p :
  isAvailable p = true ->
  uri ∉ currentRequestList (dispatch p) ->
  0 <= callAttempts (settings p) ->
  (forall k, fails_retryably rt
               (connection_call rt (calls (dispatch p) + k)%nat uri args) = true) ->
  let r := makeCall rt uri args true p in
  settled r = RejectedWith (max_attempts_error p uri)
  /\ invocations (effects r) = S (Z.to_nat (callAttempts (settings p))).
Proof.
  intros Hav Hfree Hpos Hfail r. subst r.
  unfold makeCall, makeCallFrom.
  run_with run_gets. rewrite Hav. cbn [negb].
  run_with (lockRequest_free _ _ Hfree).
  run_with run_gets.
  destruct (callRequest_exhausted uri args (Z.to_nat (callAttempts (settings p))) 0
              (locked uri p)) as (E1 & E2 & _).
  { exact Hfail. } { simpl. lia. }
  rewrite run_bind.
  change (callAttempts (settings (locked uri p))) with (callAttempts (settings p)).
  rewrite E1. cbn [settled after effects prepend]. split; [reflexivity|].
  rewrite app_nil_l.
  change (invocations (EVENT_PROVIDER_ACTIVITY true uri :: ?l)) with (invocations l).
  rewrite app_nil_l. exact E2.
Qed.

(** A successful call: one invocation, the lock taken and released. *)
Lemma makeCall_resolved uri args p v :
  isAvailable p = true ->
  uri ∉ currentRequestList (dispatch p) ->
  connection_call rt (calls (dispatch p)) uri args = Resolved v ->
  makeCall rt uri args true p =
  {| settled := Fulfilled v; after := unlocked uri (called (locked uri p));
     effects := [EVENT_PROVIDER_ACTIVITY true uri; ConnectionCall uri args]
                ++ effects (unlockRequest uri (called (locked uri p))) |}.
Proof.
  intros Hav Hfree Hv.
  unfold makeCall, makeCallFrom.
  run_with run_gets. rewrite Hav. cbn [negb].
  run_with (lockRequest_free _ _ Hfree).
  run_with run_gets.
  run_with (callRequest_resolved (Z.to_nat (callAttempts (settings (locked uri p))))
              uri args 0 (locked uri p) v Hv).
  run_with unlockRequest_run. rewrite run_mret.
  unfold prepend. simpl. rewrite app_nil_r. reflexivity.
Qed.

(** *** The promise of [makeCall] always settles *)

Lemma request_failed_run uri err p :
  (unlockRequest uri;;
   nm ← gets this_name;
   (throw (Error ("[" +:+ nm +:+ "]: request to [" +:+ uri +:+ "] failed: "
                   +:+ to_text err)) : Async unit)) p =
  {| settled := RejectedWith (request_failed_error p uri err);
     after := unlocked uri p;
     effects := effects (unlockRequest uri p) |}.
Proof.
  run_with unlockRequest_run. run_with run_gets. rewrite run_throw.
  unfold prepend; cbn [settled after effects]. rewrite app_nil_r. reflexivity.
Qed.

Lemma callRequest_catch_terminal_run retry uri cur err p :
  retried rt err = false ->
  callRequest_catch rt retry uri cur err p =
  match (if JsString.includes "{" (to_text err)
         then JSON_parse rt (to_text err) else Some None) with
  | None =>
      {| settled := RejectedWith (ExnError "SyntaxError"
                                    (SyntaxError_message rt (to_text err)));
         after := p; effects := [] |}
  | Some _ =>
      {| settled := RejectedWith (request_failed_error p uri err);
         after := unlocked uri p;
         effects := effects (unlockRequest uri p) |}
  end.
Proof.
  unfold retried, callRequest_catch. rewrite run_bind.
  destruct (JsString.includes "{" (to_text err)).
  - destruct (JSON_parse rt (to_text err)) as [[e|]|]; intros H; try discriminate.
    + apply negb_false_iff in H. rewrite H, request_failed_run. reflexivity.
    + rewrite run_throw. reflexivity.
  - destruct err as [s|n m]; intros H; try discriminate.
    apply negb_false_iff in H. rewrite H, request_failed_run. reflexivity.
Qed.

(** An error that the [catch] block does not let through ends the call. *)
Lemma callRequest_catch_terminal retry uri cur err p :
  retried rt err = false ->
  exists e, settled (callRequest_catch rt retry uri cur err p) = RejectedWith e.
Proof.
  intros H. rewrite (callRequest_catch_terminal_run retry uri cur err p H).
  destruct (if JsString.includes "{" (to_text err) then _ else _); eauto.
Qed.

Lemma callRequest_catch_settles retry uri cur err p :
  ((cur >=? callAttempts (settings p)) = false ->
   settled (retry (delayed rt p (delayCallAttempts (settings p)))) <> Unsettled) ->
  settled (callRequest_catch rt retry uri cur err p) <> Unsettled.
Proof.
  intros Hretry. destruct (retried rt err) eqn:Hr.
  - destruct (cur >=? callAttempts (settings p)) eqn:Hc.
    + rewrite callRequest_catch_exhausted by assumption. discriminate.
    + rewrite callRequest_catch_retry by assumption. apply Hretry. reflexivity.
  - destruct (callRequest_catch_terminal retry uri cur err p Hr) as [e ->]. discriminate.
Qed.

Lemma callRequest_settles uri args : forall fuel cur p,
  callAttempts (settings p) - cur <= Z.of_nat fuel ->
  settled (callRequest rt fuel (mret tt) uri args cur p) <> Unsettled.
Proof.
  induction fuel as [|fuel IH]; intros cur p Hfuel;
    rewrite callRequest_unfold; run_with invoke_run; run_with run_mret;
    destruct (connection_call rt (calls (dispatch p)) uri args); simpl;
    try discriminate;
    apply callRequest_catch_settles; intros Hlt; simpl in *;
    rewrite Z.geb_leb in Hlt; apply Z.leb_gt in Hlt; try lia;
    apply IH; simpl; lia.
Qed.

Lemma lockRequest_fulfills uri p :
  exists b q ev,
    lockRequest rt (mret tt) uri p = {| settled := Fulfilled b; after := q; effects := ev |}
    /\ settings q = settings p.
Proof.
  unfold lockRequest, delay, has_request. unfold_async. simpl.
  destruct (bool_decide (uri ∈ currentRequestList (dispatch p))); simpl;
    [destruct (bool_decide _); simpl|]; eauto 10.
Qed.

(** [makeCall] is total: the fuel it hands to [callRequest] is enough. *)
Lemma makeCall_settles uri args lock p :
  settled (makeCall rt uri args lock p) <> Unsettled.
Proof.
  unfold makeCall, makeCallFrom.
  run_with run_gets. destruct (isAvailable p); cbn [negb].
  2:{ run_with run_gets. run_with run_mret. rewrite run_throw. discriminate. }
  rewrite run_bind.
  assert (exists b q ev,
    (if lock then lockRequest rt (mret tt) uri else mret false) p
    = {| settled := Fulfilled b; after := q; effects := ev |}
    /\ settings q = settings p) as (b & q & ev & -> & Hq).
  { destruct lock; [apply lockRequest_fulfills|]. rewrite run_mret. eauto 10. }
  cbn [settled after effects prepend]. destruct b.
  - run_with run_gets. rewrite run_throw. discriminate.
  - run_with run_gets. rewrite run_bind.
    assert (Hs : settled (callRequest rt (Z.to_nat (callAttempts (settings q)))
                            (if lock then mret tt else mret tt) uri args 0 q) <> Unsettled).
    { destruct lock; apply callRequest_settles; lia. }
    destruct (settled (callRequest _ _ _ _ _ _ _)); cbn [settled after effects prepend];
      [|discriminate|congruence].
    run_with unlockRequest_run. rewrite run_mret. discriminate.
Qed.

End DispatcherProperties.

(** ** Retries and the attempt budget *)

(** C1.  With [callAttempts = 2] and a transport call that fails every time
    with an error the dispatcher retries, [makeCall] gives up with the
    [Max call attempts (2) reached!] error after three invocations of the
    transport call: the attempt test [currentAttempt >= callAttempts] is
    made after the invocation and [currentAttempt] starts at 0. *)
Theorem makeCall_budget_two_invokes_three (rt : Runtime) (p : Provider) (uri : string)
    (args : list Arg) :
  isAvailable p = true ->
  uri ∉ currentRequestList (dispatch p) ->
  callAttempts (settings p) = 2 ->
  (forall n, fails_retryably rt (connection_call rt n uri args) = true) ->
  let r := makeCall rt uri args true p in
  settled r = RejectedWith (max_attempts_error p uri)
  /\ invocations (effects r) = 3%nat.
Proof.
  intros Hav Hfree Hbudget Hfail r.
  destruct (makeCall_exhausted rt uri args p Hav Hfree) as [E1 E2].
  { lia. } { intros k. apply Hfail. }
  subst r. rewrite E1, E2, Hbudget. split; reflexivity.
Qed.

Lemma makeCall_budget_two_invokes_three_witness :
  let r := makeCall Examples.timing_out "ros.nodes.get_list" [] true (Examples.provider0 2 ∅) in
  settled r = RejectedWith (Error "[CROSSBAR] (ros.nodes.get_list) [h1]: Max call attempts (2) reached!")
  /\ invocations (effects r) = 3%nat.
Proof.
  apply (makeCall_budget_two_invokes_three Examples.timing_out (Examples.provider0 2 ∅)
           "ros.nodes.get_list" []).
  - reflexivity.
  - apply not_elem_of_empty.
  - reflexivity.
  - intros n. reflexivity.
Defined.

(** C3.  A rejection of the transport call with the payload
    ['Connection is closed'] reaches the [catch] block as an error object
    (through [throw Error(err)]), which is never identical to the string it
    is compared with: the call is retried until the attempt budget is used
    up and fails with the [Max call attempts] error, not with the error of
    the transport. *)
Theorem makeCall_retries_closed_connection (rt : Runtime) (p : Provider) (uri : string)
    (args : list Arg) :
  isAvailable p = true ->
  uri ∉ currentRequestList (dispatch p) ->
  0 <= callAttempts (settings p) ->
  (forall n, connection_call rt n uri args = Rejected "Connection is closed") ->
  let r := makeCall rt uri args true p in
  settled r = RejectedWith (max_attempts_error p uri)
  /\ invocations (effects r) = S (Z.to_nat (callAttempts (settings p))).
Proof.
  intros Hav Hfree Hpos Hclosed r.
  apply (makeCall_exhausted rt uri args p Hav Hfree Hpos).
  intros k. rewrite Hclosed. reflexivity.
Qed.

Lemma makeCall_retries_closed_connection_witness :
  let r := makeCall Examples.closed "ros.nodes.get_list" [] true (Examples.provider0 2 ∅) in
  settled r = RejectedWith (Error "[CROSSBAR] (ros.nodes.get_list) [h1]: Max call attempts (2) reached!")
  /\ invocations (effects r) = 3%nat.
Proof.
  apply (makeCall_retries_closed_connection Examples.closed (Examples.provider0 2 ∅)
           "ros.nodes.get_list" []).
  - reflexivity.
  - apply not_elem_of_empty.
  - simpl. lia.
  - intros n. reflexivity.
Defined.

(** X23.  The branch of the [catch] block for a closed connection does work
    for a string that is thrown as it is: the call ends at the first invocation,
    whatever is left of the budget. *)
Lemma makeCall_thrown_closed_is_terminal (rt : Runtime) (p : Provider) (uri : string)
    (args : list Arg) :
  isAvailable p = true ->
  uri ∉ currentRequestList (dispatch p) ->
  connection_call rt (calls (dispatch p)) uri args
  = Thrown (ExnString "Connection is closed") ->
  let r := makeCall rt uri args true p in
  settled r = RejectedWith (request_failed_error p uri (ExnString "Connection is closed"))
  /\ invocations (effects r) = 1%nat.
Proof.
  intros Hav Hfree Hthrown r. subst r.
  unfold makeCall, makeCallFrom.
  run_with run_gets. rewrite Hav. cbn [negb].
  run_with (lockRequest_free rt _ _ Hfree).
  run_with run_gets.
  rewrite run_bind.
  rewrite (callRequest_failed rt _ uri args 0 (locked uri p)
             (ExnString "Connection is closed")) by (simpl; rewrite Hthrown; reflexivity).
  cbv zeta. rewrite callRequest_catch_thrown_closed, unlockRequest_run.
  cbn [settled after effects prepend]. split; [reflexivity|].
  destruct (bool_decide _); reflexivity.
Qed.

(** ** Exclusive calls *)

(** C5.  An exclusive call issued while a call with the same name is in
    flight, on a connected session: the caller waits once, 1000 ms; the name
    is still in flight after the wait, so the call is rejected with the
    [request already running] error, and the transport call is not
    invoked. *)
Theorem makeCall_already_running (rt : Runtime) (p : Provider) (uri : string)
    (args : list Arg) :
  isAvailable p = true ->
  uri ∈ currentRequestList (dispatch p) ->
  uri ∈ while_delayed rt (delays (dispatch p)) 1000 (currentRequestList (dispatch p)) ->
  let r := makeCall rt uri args true p in
  settled r = RejectedWith (already_running_error rt p uri args)
  /\ effects r = [Timer 1000]
  /\ invocations (effects r) = 0%nat
  /\ calls (dispatch (after r)) = calls (dispatch p).
Proof.
  intros Hav Hin Hstill r. subst r.
  unfold makeCall, makeCallFrom.
  run_with run_gets. rewrite Hav. cbn [negb].
  run_with (lockRequest_held rt _ _ Hin Hstill).
  run_with run_gets. rewrite run_throw.
  cbn [settled after effects]. repeat split.
Qed.

Lemma makeCall_already_running_witness :
  let r := makeCall Examples.timing_out "ros.launch.get_list" [] true
             (Examples.provider0 10 {["ros.launch.get_list"]}) in
  settled r = RejectedWith (Error "[h1]: Ignoring request to: [ros.launch.get_list] with [], request already running!")
  /\ effects r = [Timer 1000]
  /\ invocations (effects r) = 0%nat
  /\ calls (dispatch (after r)) = 0%nat.
Proof.
  apply (makeCall_already_running Examples.timing_out
           (Examples.provider0 10 {["ros.launch.get_list"]}) "ros.launch.get_list" []).
  - reflexivity.
  - vm_compute. reflexivity.
  - vm_compute. reflexivity.
Defined.

(** ** The connection state machine *)

Lemma updateDaemonInit_run (p : Provider) :
  updateDaemonInit p
  = {| settled := Fulfilled tt; after := daemon_requested p;
       effects := (if negb (isAvailable p) then []
                   else if has_request URI.ROS_DAEMON_VERSION p then [Timer 1000]
                        else [EVENT_PROVIDER_ACTIVITY true URI.ROS_DAEMON_VERSION])
                  ++ [Start UpdateDaemonInit] |}.
Proof.
  unfold updateDaemonInit, daemon_requested. run_with run_gets.
  destruct (isAvailable p); cbn [negb andb].
  - rewrite run_bind. run_with run_gets.
    destruct (has_request URI.ROS_DAEMON_VERSION p); cbn [negb].
    + rewrite run_perform. cbn [settled after effects prepend].
      rewrite run_perform. reflexivity.
    + run_with run_perform. rewrite run_modify. cbn [settled after effects prepend].
      rewrite run_perform. reflexivity.
  - run_with run_mret. rewrite run_perform. reflexivity.
Qed.

(** C8.  [setConnectionState] with the state the session already holds is a
    no-op: the provider (its state and error details with it) is unchanged,
    no event is emitted, no timer is set and no action is started. *)
Theorem setConnectionState_same_state (p : Provider) (details : string) :
  setConnectionState (connectionState (link p)) details p
  = {| settled := Fulfilled tt; after := p; effects := [] |}.
Proof.
  unfold setConnectionState.
  run_with run_gets.
  rewrite bool_decide_eq_true_2 by reflexivity.
  apply run_mret.
Qed.

(** A call with another state does change the provider and emits the event,
    so the no-op above is due to the guard. *)
Lemma setConnectionState_other_state (p : Provider) (state : ConnectionState)
    (details : string) :
  state <> connectionState (link p) ->
  let r := setConnectionState state details p in
  connectionState (link (after r)) = state
  /\ errorDetails (link (after r)) = details
  /\ exists rest,
       effects r = EVENT_PROVIDER_STATE state (connectionState (link p)) details :: rest.
Proof.
  intros Hne r. subst r. unfold setConnectionState.
  run_with run_gets.
  rewrite bool_decide_eq_false_2 by congruence.
  run_with run_modify. run_with run_perform.
  repeat match goal with
         | |- context [if ?b then _ else _] => destruct b
         end;
    rewrite ?updateDaemonInit_run; unfold daemon_requested;
    repeat match goal with
           | |- context [if ?b then _ else _] => destruct b
           end;
    cbn; eauto.
Qed.

(** ** The clock-skew estimator *)

(** Multiplying by [1] or [-1] and negating the dividend are exact in
    binary64; the proofs go through the specification of the primitive
    operations ([SpecFloat]). *)

Lemma binary_round_aux_opp (s : bool) (m e : Z) (l : SpecFloat.location) :
  binary_round_aux prec emax (negb s) m e l
  = SFopp (binary_round_aux prec emax s m e l).
Proof.
  unfold binary_round_aux.
  destruct (shr_fexp prec emax m e l) as [mrs' e'].
  destruct (shr_fexp prec emax _ e' loc_Exact) as [mrs'' e''].
  destruct (shr_m mrs''); [reflexivity| |reflexivity].
  destruct (e'' <=? emax - prec)%Z; reflexivity.
Qed.

Lemma SF64div_opp_l (x y : spec_float) :
  SF64div (SFopp x) y = SFopp (SF64div x y).
Proof.
  unfold SF64div.
  destruct x as [sx|sx| |sx mx ex], y as [sy|sy| |sy my ey];
    try reflexivity; try (destruct sx, sy; reflexivity).
  cbn [SFopp SFdiv].
  destruct (SFdiv_core_binary prec emax (Z.pos mx) ex (Z.pos my) ey) as [[mz ez] lz].
  rewrite <- binary_round_aux_opp. f_equal. destruct sx, sy; reflexivity.
Qed.

Lemma Zpos_succ (p : positive) : Z.pos (PosDef.Pos.succ p) = (Z.pos p + 1)%Z.
Proof. lia. Qed.

Lemma digits2_pos_shift (m : positive) :
  Z.pos (digits2_pos (m * 4503599627370496)) = (Z.pos (digits2_pos m) + 52)%Z.
Proof.
  rewrite Pos.mul_comm. cbv beta iota delta [Pos.mul]. cbn [digits2_pos].
  rewrite !Zpos_succ. lia.
Qed.

Lemma shr_1_shift (m : positive) :
  SpecFloat.iter_pos shr_1 52
    {| shr_m := Z.pos (m * 4503599627370496); shr_r := false; shr_s := false |}
  = {| shr_m := Z.pos m; shr_r := false; shr_s := false |}.
Proof. rewrite Pos.mul_comm. reflexivity. Qed.

Lemma SF64mul_unit (b : bool) (x : spec_float) :
  valid_binary x = true ->
  SF64mul x (S754_finite b 4503599627370496 (-52)) = if b then SFopp x else x.
Proof.
  intros Hv. unfold SF64mul.
  destruct x as [s|s| |s m e]; cbn [SFmul SFopp].
  - destruct b, s; reflexivity.
  - destruct b, s; reflexivity.
  - destruct b; reflexivity.
  - cbn [SpecFloat.valid_binary] in Hv. unfold bounded, canonical_mantissa in Hv.
    apply andb_prop in Hv as [Hc Hb]. apply Z.eqb_eq in Hc.
    unfold binary_round_aux, shr_fexp.
    cbn [Zdigits2]. rewrite digits2_pos_shift.
    replace (Z.pos (digits2_pos m) + 52 + (e + -52))%Z
      with (Z.pos (digits2_pos m) + e)%Z by lia.
    rewrite Hc.
    replace (e - (e + -52))%Z with 52%Z by lia.
    cbn [shr_record_of_loc shr]. rewrite shr_1_shift.
    cbn [shr_m shr_r shr_s loc_of_shr_record round_nearest_even Zdigits2].
    replace (e + -52 + 52)%Z with e by lia.
    rewrite Hc, Z.sub_diag. cbn [shr shr_m]. rewrite Hb.
    destruct b, s; reflexivity.
Qed.

Lemma float_mul_unit (b : bool) (x : float) :
  (x * (if b then -1 else 1))%float = if b then (- x)%float else x.
Proof.
  apply Prim2SF_inj. rewrite mul_spec.
  replace (Prim2SF (if b then (-1)%float else 1%float))
    with (S754_finite b 4503599627370496 (-52)) by (destruct b; reflexivity).
  rewrite SF64mul_unit by apply Prim2SF_valid.
  destruct b; [rewrite opp_spec|]; reflexivity.
Qed.

Lemma float_mul_m1 (x : float) : (x * -1 = - x)%float.
Proof. exact (float_mul_unit true x). Qed.

Lemma float_mul_1 (x : float) : (x * 1 = x)%float.
Proof. exact (float_mul_unit false x). Qed.

Lemma float_mul_comm (x y : float) : (x * y = y * x)%float.
Proof.
  apply Prim2SF_inj. rewrite !mul_spec. unfold SF64mul.
  destruct (Prim2SF x) as [sx|sx| |sx mx ex], (Prim2SF y) as [sy|sy| |sy my ey];
    cbn [SFmul]; rewrite ?(xorb_comm sx sy); try reflexivity.
  now rewrite (Pos.mul_comm mx my), (Z.add_comm ex ey).
Qed.

Lemma float_div_opp_l (x y : float) : (- x / y = - (x / y))%float.
Proof.
  apply Prim2SF_inj. rewrite opp_spec, !div_spec, opp_spec. apply SF64div_opp_l.
Qed.

(** C7, as the spec states it, fails.  The three time stamps 92.5, 238.9
    and 103.7 (the binary64 values nearest to them) have [Tr - T0 >= 0],
    and the rounded sum [|Tr - T0| + |T1 - Tr| - (T1 - T0)] is [-2^-45]:
    the formula of the specification gives the negative [-2^-46], while
    [calcTimeDiff], which takes the absolute value of that sum, gives the
    positive [2^-46]. *)
Lemma calcTimeDiff_not_skew_formula :
  let T0 := 92.5%float in
  let T1 := 0x1.ddccccccccccdp+7%float in
  let Tr := 0x1.9eccccccccccdp+6%float in
  (Tr - T0 <? 0)%float = false
  /\ (PrimFloat.abs (Tr - T0) + PrimFloat.abs (T1 - Tr) - (T1 - T0))%float
     = (-0x1p-45)%float
  /\ skew_formula T0 T1 Tr = (-0x1p-46)%float
  /\ calcTimeDiff T0 T1 Tr = 0x1p-46%float
  /\ calcTimeDiff T0 T1 Tr <> skew_formula T0 T1 Tr.
Proof. cbv zeta. repeat split. vm_compute. discriminate. Qed.

(** C7, amended.  On binary64 numbers [calcTimeDiff] is
    [sign * | |Tr - T0| + |T1 - Tr| - (T1 - T0) | / 2], the absolute value
    of the sum taken before the sign is applied and every operation
    rounded, with the sign [-1] exactly when [Tr - T0 < 0] and [1]
    otherwise; for T0=100, Tr=90, T1=110 the result is -10, negative, for
    T0=100, Tr=130, T1=110 it is 20, positive.  The rounding shows for T0=1,
    Tr=0, T1=2^53: the result is -0.5, where exact arithmetic gives -1. *)
Theorem calcTimeDiff_abs_formula :
  (forall T0 T1 Tr : float,
     calcTimeDiff T0 T1 Tr
     = (skew_sign T0 Tr
        * PrimFloat.abs
            (PrimFloat.abs (Tr - T0) + PrimFloat.abs (T1 - Tr) - (T1 - T0))
        / 2)%float
     /\ (skew_sign T0 Tr = (-1)%float <-> (Tr - T0 <? 0)%float = true)
     /\ (skew_sign T0 Tr = 1%float <-> (Tr - T0 <? 0)%float = false))
  /\ (calcTimeDiff 100 110 90 = (-10)%float
      /\ (calcTimeDiff 100 110 90 <? 0)%float = true)
  /\ (calcTimeDiff 100 110 130 = 20%float
      /\ (0 <? calcTimeDiff 100 110 130)%float = true)
  /\ calcTimeDiff 1 0x1p+53 0 = (-0.5)%float.
Proof.
  split; [|repeat split].
  intros T0 T1 Tr. split; [|split].
  - unfold calcTimeDiff, skew_sign. cbv zeta.
    destruct (Tr - T0 <? 0)%float.
    + rewrite (float_mul_comm (-1)), !float_mul_m1. symmetry.
      apply float_div_opp_l.
    + rewrite (float_mul_comm 1), float_mul_1. reflexivity.
  - unfold skew_sign. destruct (Tr - T0 <? 0)%float; split; intros H;
      try reflexivity; discriminate H.
  - unfold skew_sign. destruct (Tr - T0 <? 0)%float; split; intros H;
      try reflexivity; discriminate H.
Qed.

(** ** What the dispatcher leaves alone *)

Lemma same_but_dispatch_refl p : same_but_dispatch p p.
Proof. repeat split. Qed.

Lemma same_but_dispatch_trans p q r :
  same_but_dispatch p q -> same_but_dispatch q r -> same_but_dispatch p r.
Proof. unfold same_but_dispatch. intuition congruence. Qed.

Lemma same_but_dispatch_with f p : same_but_dispatch p (with_dispatch f p).
Proof. repeat split. Qed.

Section DispatcherFrame.

Variable rt : Runtime.

Lemma callRequest_catch_terminal_frame retry uri cur err p :
  retried rt err = false ->
  same_but_dispatch p (after (callRequest_catch rt retry uri cur err p)).
Proof.
  intros H. rewrite (callRequest_catch_terminal_run rt retry uri cur err p H).
  destruct (if JsString.includes "{" (to_text err) then _ else _);
    cbn [after]; repeat split.
Qed.

Lemma callRequest_catch_frame retry uri cur err p :
  same_but_dispatch p
    (after (retry (delayed rt p (delayCallAttempts (settings p))))) ->
  same_but_dispatch p (after (callRequest_catch rt retry uri cur err p)).
Proof.
  intros Hretry. destruct (retried rt err) eqn:Hr.
  - destruct (cur >=? callAttempts (settings p)) eqn:Hc.
    + rewrite callRequest_catch_exhausted by assumption.
      rewrite unlockRequest_run. apply same_but_dispatch_with.
    + rewrite callRequest_catch_retry by assumption. exact Hretry.
  - apply callRequest_catch_terminal_frame. exact Hr.
Qed.

Lemma callRequest_frame uri args : forall fuel cur p,
  same_but_dispatch p (after (callRequest rt fuel (mret tt) uri args cur p)).
Proof.
  assert (Hstep : forall retry cur p,
    (forall q, same_but_dispatch q (after (retry q))) ->
    same_but_dispatch p
      (after ((outcome ← invoke rt uri args;
               mret tt;;
               match outcome with
               | Resolved r => mret r
               | Rejected reason => callRequest_catch rt retry uri cur (Error reason)
               | Thrown e => callRequest_catch rt retry uri cur e
               end) p))).
  { intros retry cur p Hretry. run_with invoke_run. run_with run_mret.
    destruct (connection_call rt (calls (dispatch p)) uri args).
    - rewrite run_mret. apply same_but_dispatch_with.
    - apply (same_but_dispatch_trans p (called p)); [apply same_but_dispatch_with|].
      apply callRequest_catch_frame.
      eapply same_but_dispatch_trans; [|apply Hretry]. apply same_but_dispatch_with.
    - apply (same_but_dispatch_trans p (called p)); [apply same_but_dispatch_with|].
      apply callRequest_catch_frame.
      eapply same_but_dispatch_trans; [|apply Hretry]. apply same_but_dispatch_with. }
  induction fuel as [|fuel IH]; intros cur p; rewrite callRequest_unfold; apply Hstep.
  - intros q. apply same_but_dispatch_refl.
  - intros q. apply IH.
Qed.

Lemma lockRequest_frame uri p :
  same_but_dispatch p (after (lockRequest rt (mret tt) uri p)).
Proof.
  unfold lockRequest, delay, has_request. unfold_async. simpl.
  destruct (bool_decide (uri ∈ currentRequestList (dispatch p))); simpl;
    [destruct (bool_decide _); simpl|]; repeat split.
Qed.

(** [makeCall] changes nothing of the provider but the bookkeeping of the
    dispatcher, however the call ends. *)
Lemma makeCall_frame uri args lock p :
  same_but_dispatch p (after (makeCall rt uri args lock p)).
Proof.
  unfold makeCall, makeCallFrom.
  run_with run_gets. destruct (isAvailable p); cbn [negb].
  2:{ run_with run_gets. run_with run_mret. rewrite run_throw. apply same_but_dispatch_refl. }
  rewrite run_bind.
  assert (Hl : same_but_dispatch p
                 (after ((if lock then lockRequest rt (mret tt) uri else mret false) p))).
  { destruct lock; [apply lockRequest_frame | apply same_but_dispatch_refl]. }
  assert (exists b, settled ((if lock then lockRequest rt (mret tt) uri else mret false) p)
                    = Fulfilled b) as [b Hb].
  { destruct lock; [|eauto].
    destruct (lockRequest_fulfills rt uri p) as (b & q & ev & -> & _). eauto. }
  rewrite Hb. cbn [settled after effects prepend].
  set (q := after ((if lock then lockRequest rt (mret tt) uri else mret false) p)) in *.
  destruct b.
  - run_with run_gets. rewrite run_throw. exact Hl.
  - run_with run_gets. rewrite run_bind.
    assert (Hc : same_but_dispatch q
                   (after (callRequest rt (Z.to_nat (callAttempts (settings q)))
                             (if lock then mret tt else mret tt) uri args 0 q))).
    { destruct lock; apply callRequest_frame. }
    destruct (settled (callRequest _ _ _ _ _ _ _)); cbn [settled after effects prepend];
      try (eapply same_but_dispatch_trans; [exact Hl | exact Hc]).
    run_with unlockRequest_run. rewrite run_mret. cbn [after].
    eapply same_but_dispatch_trans; [exact Hl|].
    eapply same_but_dispatch_trans; [exact Hc|]. apply same_but_dispatch_with.
Qed.

End DispatcherFrame.

(** ** Echo subscriptions *)

Section SubscriberProperties.

Variable rt : Runtime.

(** A start for a topic that is marked as started: no remote call, the
    provider is left as it is. *)
Lemma startSubscriber_started (request : SubscriberNode) (p : Provider) :
  topic request ∈ echoTopics (model p) ->
  startSubscriber rt request p = {| settled := Fulfilled JTrue; after := p; effects := [] |}.
Proof.
  intros H. unfold startSubscriber.
  run_with run_gets. rewrite (bool_decide_eq_true_2 _ H). apply run_mret.
Qed.

(** A start for a topic that is not marked: the topic is pushed, then the
    remote call is made. *)
Lemma startSubscriber_first (request : SubscriberNode) (p : Provider) :
  topic request ∉ echoTopics (model p) ->
  let call := subscribe_call rt request (started (topic request) p) in
  startSubscriber rt request p =
  match settled call with
  | Fulfilled v =>
      {| settled := Fulfilled v; after := after call;
         effects := effects call
                    ++ if truthy v
                       then [ConnectionSubscribe (generateCrossbarTopic (topic request))]
                       else [] |}
  | RejectedWith _ =>
      {| settled := Fulfilled JFalse; after := after call; effects := effects call |}
  | Unsettled =>
      {| settled := Unsettled; after := after call; effects := effects call |}
  end.
Proof.
  intros H call. unfold startSubscriber.
  run_with run_gets. rewrite (bool_decide_eq_false_2 _ H).
  run_with run_modify. rewrite run_bind, run_catch.
  fold (subscribe_call rt request). fold (started (topic request) p). fold call.
  destruct (settled call) as [v|e|] eqn:Hs.
  - rewrite Hs. cbn [settled after effects prepend].
    rewrite run_bind. unfold registerCallback.
    destruct (truthy v); [rewrite run_perform | rewrite run_mret];
      cbn [settled after effects prepend]; rewrite run_mret; unfold prepend; simpl;
      rewrite ?app_nil_r; reflexivity.
  - rewrite run_mret. cbn [settled after effects prepend].
    rewrite run_bind, run_mret. cbn [settled after effects prepend truthy JFalse].
    rewrite run_mret. unfold prepend. simpl. rewrite !app_nil_r. reflexivity.
  - rewrite Hs. reflexivity.
Qed.

Lemma startSubscriber_marks (request : SubscriberNode) (p : Provider) :
  topic request ∈ echoTopics (model (after (startSubscriber rt request p))).
Proof.
  destruct (decide (topic request ∈ echoTopics (model p))) as [Hin|Hnot].
  - rewrite startSubscriber_started by assumption. exact Hin.
  - rewrite startSubscriber_first by assumption. cbv zeta.
    assert (Hm : model (after (subscribe_call rt request (started (topic request) p)))
                 = model (started (topic request) p)).
    { apply (makeCall_frame rt). }
    destruct (settled _); cbn [after]; rewrite Hm; simpl;
      apply elem_of_app; right; apply list_elem_of_singleton; reflexivity.
Qed.

(** [stopSubscriber] takes the topic off the list. *)
Lemma stopSubscriber_unmarks (topic_ : string) (p : Provider) :
  topic_ ∉ echoTopics (model (after (stopSubscriber rt topic_ p))).
Proof.
  unfold stopSubscriber.
  run_with run_gets.
  assert (Hm : forall q,
    model (after (makeCall rt URI.ROS_SUBSCRIBER_STOP [ArgString topic_] true q)) = model q).
  { intros q. apply (makeCall_frame rt). }
  destruct (bool_decide (topic_ ∈ echoTopics (model p))) eqn:Hb.
  - run_primitives. rewrite run_catch. run_primitives.
    destruct (settled (makeCall _ _ _ _ _)); run_primitives; rewrite ?Hm; simpl;
      intros Hin; apply list_elem_of_filter in Hin; destruct Hin as [Hne _]; congruence.
  - apply bool_decide_eq_false_1 in Hb.
    run_primitives. rewrite run_catch. run_primitives.
    destruct (settled (makeCall _ _ _ _ _)); run_primitives; rewrite ?Hm; exact Hb.
Qed.

End SubscriberProperties.

(** C9, as the spec states it, fails: when the remote subscribe of the first
    call fails (here every invocation times out), the first call resolves
    with [false]. *)
Lemma startSubscriber_twice_counterexample :
  let r1 := startSubscriber Examples.timing_out Examples.chatter (Examples.provider0 0 ∅) in
  let r2 := startSubscriber Examples.timing_out Examples.chatter (after r1) in
  ~ (settled r1 = Fulfilled JTrue /\ settled r2 = Fulfilled JTrue).
Proof.
  intros r1 r2 [H _]. vm_compute in H. discriminate H.
Qed.

(** C9, amended.  Of two calls of [startSubscriber] in succession for a
    topic, the second resolves with [true], has no effect on the outside
    world (no remote call) and leaves the provider as the first call left
    it.  The first call, for a topic that is already marked, does the same;
    otherwise it makes its one call through the dispatcher and resolves with
    [true] exactly when that call resolves with [true]. *)
Theorem startSubscriber_twice (rt : Runtime) (request : SubscriberNode) (p : Provider) :
  let r1 := startSubscriber rt request p in
  let r2 := startSubscriber rt request (after r1) in
  (settled r2 = Fulfilled JTrue /\ effects r2 = [] /\ after r2 = after r1)
  /\ (topic request ∈ echoTopics (model p) ->
      settled r1 = Fulfilled JTrue /\ effects r1 = [])
  /\ (topic request ∉ echoTopics (model p) ->
      let call := subscribe_call rt request (started (topic request) p) in
      invocations (effects r1) = invocations (effects call)
      /\ (settled r1 = Fulfilled JTrue <-> settled call = Fulfilled JTrue)).
Proof.
  intros r1 r2. split; [|split].
  - subst r2. rewrite (startSubscriber_started rt request (after r1)).
    + repeat split.
    + apply startSubscriber_marks.
  - intros Hin. subst r1. rewrite startSubscriber_started by assumption. split; reflexivity.
  - intros Hnot call. subst r1. rewrite startSubscriber_first by assumption.
    fold call. destruct (settled call) as [v|e|]; cbn [settled effects].
    + split; [|reflexivity]. rewrite invocations_app.
      destruct (truthy v); [change (invocations [ConnectionSubscribe _]) with 0%nat|change (invocations []) with 0%nat]; lia.
    + split; [reflexivity|]. split; intros H; discriminate H.
    + split; [reflexivity|]. reflexivity.
Qed.

(** C10.  A first [startSubscriber] whose remote call fails: the topic is
    pushed on [echoTopics] before the call is made and stays there, the
    promise resolves with a falsy value; every later [startSubscriber] for
    the topic resolves with [true] without any effect, however often it is
    repeated; [stopSubscriber] for the topic takes the mark off. *)
Theorem startSubscriber_failure_keeps_topic (rt : Runtime) (request : SubscriberNode)
    (p : Provider) :
  topic request ∉ echoTopics (model p) ->
  failed (settled (subscribe_call rt request (started (topic request) p))) ->
  let r1 := startSubscriber rt request p in
  (exists v, settled r1 = Fulfilled v /\ truthy v = false)
  /\ effects r1 = effects (subscribe_call rt request (started (topic request) p))
  /\ echoTopics (model (after r1)) = echoTopics (model p) ++ [topic request]
  /\ (forall n : nat,
        let q := Nat.iter n (fun q => after (startSubscriber rt request q)) (after r1) in
        q = after r1
        /\ startSubscriber rt request q
           = {| settled := Fulfilled JTrue; after := after r1; effects := [] |})
  /\ topic request ∉ echoTopics (model (after (stopSubscriber rt (topic request) (after r1)))).
Proof.
  intros Hnot Hfailed r1.
  assert (Hm : model (after (subscribe_call rt request (started (topic request) p)))
               = model (started (topic request) p)).
  { apply (makeCall_frame rt). }
  assert (Hr1 : (exists v, settled r1 = Fulfilled v /\ truthy v = false)
                /\ effects r1 = effects (subscribe_call rt request (started (topic request) p))
                /\ echoTopics (model (after r1)) = echoTopics (model p) ++ [topic request]).
  { subst r1. rewrite startSubscriber_first by assumption. cbv zeta.
    destruct (settled (subscribe_call rt request (started (topic request) p))) as [v|e|];
      simpl in Hfailed; cbn [settled after effects].
    - rewrite Hfailed, app_nil_r, Hm. repeat split. exists v. split; [reflexivity|assumption].
    - rewrite Hm. repeat split. exists JFalse. split; reflexivity.
    - contradiction. }
  destruct Hr1 as (Hv & He & Ht).
  assert (Hq : forall n : nat,
    Nat.iter n (fun q => after (startSubscriber rt request q)) (after r1) = after r1).
  { induction n as [|n IH]; [reflexivity|]. rewrite Nat.iter_succ, IH.
    rewrite startSubscriber_started; [reflexivity|]. apply startSubscriber_marks. }
  split; [exact Hv|]. split; [exact He|]. split; [exact Ht|]. split.
  - intros n q. subst q. rewrite Hq. split; [reflexivity|].
    apply startSubscriber_started. apply startSubscriber_marks.
  - apply stopSubscriber_unmarks.
Qed.

Lemma startSubscriber_failure_keeps_topic_witness :
  let r1 := startSubscriber Examples.timing_out Examples.chatter (Examples.provider0 0 ∅) in
  (exists v, settled r1 = Fulfilled v /\ truthy v = false)
  /\ effects r1
     = effects (subscribe_call Examples.timing_out Examples.chatter
                  (started "/chatter" (Examples.provider0 0 ∅)))
  /\ echoTopics (model (after r1)) = ["/chatter"]
  /\ (forall n : nat,
        let q := Nat.iter n (fun q => after (startSubscriber Examples.timing_out
                                               Examples.chatter q)) (after r1) in
        q = after r1
        /\ startSubscriber Examples.timing_out Examples.chatter q
           = {| settled := Fulfilled JTrue; after := after r1; effects := [] |})
  /\ "/chatter" ∉ echoTopics (model (after (stopSubscriber Examples.timing_out "/chatter"
                                              (after r1)))).
Proof.
  apply (startSubscriber_failure_keeps_topic Examples.timing_out Examples.chatter
           (Examples.provider0 0 ∅)).
  - apply not_elem_of_nil.
  - vm_compute. exact I.
Defined.

(** ** Diagnostics *)

Lemma findIndex_Some {A} (f : A -> bool) (l : list A) (i : nat) (x : A) :
  findIndex f l = Some (i, x) -> l !! i = Some x /\ f x = true.
Proof.
  revert i. induction l as [|y l IH]; intros i H; simpl in H; [discriminate|].
  destruct (f y) eqn:Hy.
  - inversion H; subst. split; [reflexivity | exact Hy].
  - destruct (findIndex f l) as [[j z]|]; [|discriminate].
    inversion H; subst. apply (IH j). reflexivity.
Qed.

Lemma history_update_node (i : nat) (f : RosNode -> RosNode) (p : Provider) (r : Ref) :
  history (update_node i f p) r = history p r.
Proof. reflexivity. Qed.

Lemma history_push_status_eq (r : Ref) (status : DiagnosticStatus) (p : Provider) :
  history (push_status r status p) r = history p r ++ [status].
Proof. unfold history at 1. simpl. rewrite lookup_insert_eq. reflexivity. Qed.



Lemma is_news_decide (recorded : list DiagnosticStatus) (status : DiagnosticStatus) :
  match last recorded with
  | None => true
  | Some lastStatus =>
      negb (bool_decide (level lastStatus = level status))
      || negb (bool_decide (message lastStatus = message status))
      || negb (bool_decide (length (values lastStatus) = length (values status)))
  end = true <-> is_news recorded status.
Proof.
  unfold is_news, differs. destruct (last recorded) as [l|]; [|tauto].
  rewrite !orb_true_iff, !negb_true_iff, !bool_decide_eq_false. tauto.
Qed.

(** The run of the loop body for a status that matches the node at index
    [i]. *)
Lemma updateDiagnostics_status_matched (status : DiagnosticStatus) (p : Provider)
    (i : nat) (matchingNode : RosNode) :
  findIndex (fun node => bool_decide (id node = ds_name status)) (rosNodes (model p))
  = Some (i, matchingNode) ->
  let p1 := update_node i (set_diagnostic (level status) (message status)) p in
  let r := diagnosticStatus matchingNode in
  (is_news (history p r) status ->
   updateDiagnostics_status status p
   = {| settled := Fulfilled tt; after := push_status r status p1; effects := [] |})
  /\ (~ is_news (history p r) status ->
      updateDiagnostics_status status p
      = {| settled := Fulfilled tt; after := p1; effects := [] |}).
Proof.
  intros Hfind p1 r. unfold updateDiagnostics_status.
  rewrite run_bind, run_gets. cbn [settled after effects prepend]. rewrite Hfind.
  rewrite run_bind, run_modify. cbn [settled after effects prepend].
  rewrite run_bind, run_gets. cbn [settled after effects prepend].
  rewrite history_update_node.
  pose proof (is_news_decide (history p r) status) as Hdec.
  unfold is_news in *. subst r. destruct (last (history p _)) as [lastStatus|].
  - destruct (negb _ || negb _ || negb _).
    + split; [intros _; reflexivity | intros H; exfalso; apply H, Hdec; reflexivity].
    + split; [intros H; apply Hdec in H; discriminate H | intros _; reflexivity].
  - split; [intros _; reflexivity | intros H; exfalso; apply H; exact I].
Qed.

Lemma updateDiagnostics_status_unmatched (status : DiagnosticStatus) (p : Provider) :
  findIndex (fun node => bool_decide (id node = ds_name status)) (rosNodes (model p)) = None ->
  updateDiagnostics_status status p = {| settled := Fulfilled tt; after := p; effects := [] |}.
Proof.
  intros Hfind. unfold updateDiagnostics_status.
  rewrite run_bind, run_gets. cbn [settled after effects prepend]. rewrite Hfind.
  reflexivity.
Qed.












Lemma update_node_at (i : nat) (f : RosNode -> RosNode) (p : Provider) (n : RosNode) :
  rosNodes (model p) !! i = Some n ->
  update_node i f p = with_model (set_rosNodes (<[i := f n]> (rosNodes (model p)))) p.
Proof. intros H. unfold update_node, with_model. rewrite H. reflexivity. Qed.








Lemma updateDiagnostics_single (rt : Runtime) (ts : Z) (status : DiagnosticStatus)
    (p : Provider) :
  updateDiagnostics rt (Some {| timestamp := ts; da_status := [status] |}) p
  = {| settled := Fulfilled true; after := after (updateDiagnostics_status status p);
       effects := effects (updateDiagnostics_status status p) |}.
Proof.
  unfold updateDiagnostics. run_with run_mret. cbn [da_status forEach].
  rewrite !run_bind.
  assert (Hs : settled (updateDiagnostics_status status p) = Fulfilled tt).
  { destruct (findIndex (fun node => bool_decide (id node = ds_name status))
                (rosNodes (model p))) as [[i n]|] eqn:Hfind.
    - destruct (updateDiagnostics_status_matched status p i n Hfind) as [H1 H2].
      destruct (decide (is_news (history p (diagnosticStatus n)) status)) as [Hn|Hn];
        [rewrite (H1 Hn) | rewrite (H2 Hn)]; reflexivity.
    - rewrite (updateDiagnostics_status_unmatched status p Hfind). reflexivity. }
  rewrite Hs. cbn [settled after effects prepend]. rewrite !run_mret.
  unfold prepend. cbn [settled after effects app]. rewrite !app_nil_r. reflexivity.
Qed.



(** ** Discovery *)

Lemma forEach_perform {A} (f : A -> Effect) (l : list A) (p : Provider) :
  forEach (fun x => perform (f x)) l p
  = {| settled := Fulfilled tt; after := p; effects := f <$> l |}.
Proof.
  induction l as [|x l IH]; cbn [forEach].
  - apply run_mret.
  - rewrite run_bind, run_perform. cbn [settled after effects prepend].
    rewrite IH. reflexivity.
Qed.

Lemma setConnectionState_frame (state : ConnectionState) (details : string) (p : Provider) :
  let r := setConnectionState state details p in
  settled r = Fulfilled tt
  /\ settings (after r) = settings p
  /\ (state <> CROSSBAR_REGISTERED -> dispatch (after r) = dispatch p)
  /\ model (after r) = model p /\ store (after r) = store p
  /\ connection_connected (link (after r)) = connection_connected (link p)
  /\ discovered_events (effects r) = [] /\ removed_events (effects r) = [].
Proof.
  unfold setConnectionState. run_with run_gets.
  destruct (bool_decide (connectionState (link p) = state)).
  { rewrite run_mret. repeat split. }
  run_with run_modify. run_with run_perform.
  destruct (bool_decide (state = CONNECTING) && _);
    [rewrite run_perform; repeat split|].
  destruct (bool_decide (state = CROSSBAR_CONNECTED));
    [rewrite run_perform; repeat split|].
  destruct (bool_decide (state = CROSSBAR_REGISTERED)) eqn:Hr;
    [|rewrite run_mret; repeat split].
  apply bool_decide_eq_true_1 in Hr.
  rewrite updateDaemonInit_run. cbn [settled after effects prepend].
  unfold daemon_requested.
  destruct (isAvailable _), (has_request _ _); cbn [negb andb app];
    repeat split; intros Hne; contradiction.
Qed.

Section DiscoveryProperties.

Variable rt : Runtime.

Lemma url_peer_provider (me : string) (n : nat) (ps : RosProviderState) :
  url rt (peer_provider me n ps) = peer_url rt ps.
Proof. reflexivity. Qed.

Lemma updateProviderList_entry_origin (old : list RemoteProvider) (ps : RosProviderState)
    (p : Provider) :
  origin ps = true ->
  let r := updateProviderList_entry rt old ps p in
  settled r = Fulfilled old /\ effects r = []
  /\ remoteProviders (model (after r)) = remoteProviders (model p)
  /\ store (after r) = store p /\ settings (after r) = settings p
  /\ link (after r) = link p /\ dispatch (after r) = dispatch p.
Proof.
  intros Ho. unfold updateProviderList_entry. rewrite Ho.
  run_primitives.
  repeat match goal with
         | |- context [if ?b then _ else _] => destruct b
         end;
    run_primitives; repeat split.
Qed.

Lemma updateProviderList_entry_peer (old : list RemoteProvider) (ps : RosProviderState)
    (p : Provider) :
  origin ps = false ->
  let r := updateProviderList_entry rt old ps p in
  settled r = Fulfilled (filter (fun orp => url rt orp <> peer_url rt ps) old)
  /\ effects r = []
  /\ remoteProviders (model (after r))
     = remoteProviders (model p)
       ++ [peer_provider (this_id (settings p)) (allocated (store p)) ps]
  /\ allocated (store (after r)) = S (allocated (store p))
  /\ settings (after r) = settings p
  /\ link (after r) = link p /\ dispatch (after r) = dispatch p.
Proof.
  intros Ho. unfold updateProviderList_entry, new_Provider. rewrite Ho.
  run_primitives. repeat split.
Qed.

Lemma updateProviderList_entries_run : forall (rosProviders : list RosProviderState)
    (old : list RemoteProvider) (p : Provider),
  let r := updateProviderList_entries rt old rosProviders p in
  settled r = Fulfilled (surviving rt old rosProviders)
  /\ effects r = []
  /\ remoteProviders (model (after r))
     = remoteProviders (model p)
       ++ new_peers (this_id (settings p)) (allocated (store p)) rosProviders
  /\ allocated (store (after r)) = (allocated (store p) + length (peers rosProviders))%nat
  /\ settings (after r) = settings p
  /\ link (after r) = link p /\ dispatch (after r) = dispatch p.
Proof.
  induction rosProviders as [|ps rest IH]; intros old p; cbn [updateProviderList_entries].
  - rewrite run_mret. cbn. rewrite app_nil_r, Nat.add_0_r. repeat split.
  - rewrite run_bind. destruct (origin ps) eqn:Ho.
    + destruct (updateProviderList_entry_origin old ps p Ho) as (E1 & E2 & E3 & E4 & E5 & E6 & E7).
      rewrite E1, E2. cbn [settled after effects prepend app].
      destruct (IH old (after (updateProviderList_entry rt old ps p)))
        as (F1 & F2 & F3 & F4 & F5 & F6 & F7).
      cbn [surviving new_peers peers List.filter]. rewrite Ho. cbn [negb].
      rewrite F1, F2, F3, F4, F5, F6, F7, E3, E4, E5, E6, E7. repeat split.
    + destruct (updateProviderList_entry_peer old ps p Ho) as (E1 & E2 & E3 & E4 & E5 & E6 & E7).
      rewrite E1, E2. cbn [settled after effects prepend app].
      destruct (IH (filter (fun orp => url rt orp <> peer_url rt ps) old)
                  (after (updateProviderList_entry rt old ps p)))
        as (F1 & F2 & F3 & F4 & F5 & F6 & F7).
      cbn [surviving new_peers peers List.filter]. rewrite Ho. cbn [negb length].
      rewrite F1, F2, F3, F4, F5, F6, F7, E3, E4, E5, E6, E7.
      rewrite <- app_assoc. repeat split. fold (peers rest). lia.
Qed.

Lemma url_new_peers (me : string) : forall (rosProviders : list RosProviderState) (n : nat),
  url rt <$> new_peers me n rosProviders = peer_url rt <$> peers rosProviders.
Proof.
  induction rosProviders as [|ps rest IH]; intros n; [reflexivity|].
  cbn [new_peers peers List.filter]. destruct (origin ps); cbn [negb].
  - apply IH.
  - fold (peers rest). rewrite !fmap_cons, url_peer_provider, IH. reflexivity.
Qed.

Lemma object_new_peers (me : string) : forall (rosProviders : list RosProviderState)
    (n : nat) (np : RemoteProvider),
  np ∈ new_peers me n rosProviders ->
  (n <= object np < n + length (peers rosProviders))%nat.
Proof.
  induction rosProviders as [|ps rest IH]; intros n np Hin; cbn [new_peers] in Hin.
  - apply elem_of_nil in Hin. contradiction.
  - cbn [peers List.filter]. destruct (origin ps); cbn [negb length].
    + apply IH. exact Hin.
    + apply elem_of_cons in Hin. destruct Hin as [->|Hin].
      * simpl. lia.
      * apply IH in Hin. fold (peers rest). lia.
Qed.

Lemma length_new_peers (me : string) : forall (rosProviders : list RosProviderState) (n : nat),
  length (new_peers me n rosProviders) = length (peers rosProviders).
Proof.
  intros rosProviders n.
  rewrite <- (length_fmap (url rt)), url_new_peers, length_fmap. reflexivity.
Qed.

(** Old provider objects whose urls are all among the peers of the pulled
    list are all matched: none is reported as removed. *)
Lemma surviving_none : forall (rosProviders : list RosProviderState)
    (old : list RemoteProvider),
  (forall orp, orp ∈ old -> url rt orp ∈ peer_url rt <$> peers rosProviders) ->
  surviving rt old rosProviders = [].
Proof.
  induction rosProviders as [|ps rest IH]; intros old Hold; cbn [surviving].
  - destruct old as [|orp old]; [reflexivity|].
    specialize (Hold orp (list_elem_of_here _ _)). apply elem_of_nil in Hold. contradiction.
  - cbn [peers List.filter] in Hold. destruct (origin ps); cbn [negb] in Hold.
    + apply IH. exact Hold.
    + apply IH. intros orp Hin. apply list_elem_of_filter in Hin. destruct Hin as [Hne Hin].
      specialize (Hold orp Hin). rewrite fmap_cons in Hold.
      apply elem_of_cons in Hold. destruct Hold as [Heq|Hrest]; [contradiction|exact Hrest].
Qed.

End DiscoveryProperties.

Section DiscoveryPull.

Variable rt : Runtime.

Lemma discovered_events_app (l1 l2 : list Effect) :
  discovered_events (l1 ++ l2) = discovered_events l1 ++ discovered_events l2.
Proof. apply omap_app. Qed.

Lemma removed_events_app (l1 l2 : list Effect) :
  removed_events (l1 ++ l2) = removed_events l1 ++ removed_events l2.
Proof. apply omap_app. Qed.

Lemma discovered_events_discovered (l : list RemoteProvider) :
  discovered_events (EVENT_PROVIDER_DISCOVERED <$> l) = l.
Proof. induction l as [|x l IH]; [reflexivity|]. cbn. f_equal. exact IH. Qed.

Lemma discovered_events_removed (l : list RemoteProvider) :
  discovered_events (EVENT_PROVIDER_REMOVED <$> l) = [].
Proof. induction l as [|x l IH]; [reflexivity|]. cbn. exact IH. Qed.

Lemma removed_events_removed (l : list RemoteProvider) :
  removed_events (EVENT_PROVIDER_REMOVED <$> l) = l.
Proof. induction l as [|x l IH]; [reflexivity|]. cbn. f_equal. exact IH. Qed.

Lemma removed_events_discovered (l : list RemoteProvider) :
  removed_events (EVENT_PROVIDER_DISCOVERED <$> l) = [].
Proof. induction l as [|x l IH]; [reflexivity|]. cbn. exact IH. Qed.

(** One pull of a non-empty peer list on a connected session. *)
Lemma updateProviderList_pull (p : Provider) (rosProviders : list RosProviderState) :
  isAvailable p = true ->
  URI.ROS_PROVIDER_GET_LIST ∉ currentRequestList (dispatch p) ->
  rosProviders <> [] ->
  connection_call rt (calls (dispatch p)) URI.ROS_PROVIDER_GET_LIST []
  = Resolved (JProviderList rosProviders) ->
  let r := updateProviderList rt p in
  let created := new_peers (this_id (settings p)) (allocated (store p)) rosProviders in
  settled r = Fulfilled true
  /\ remoteProviders (model (after r)) = created
  /\ discovered_events (effects r) = created
  /\ removed_events (effects r) = surviving rt (remoteProviders (model p)) rosProviders
  /\ allocated (store (after r)) = (allocated (store p) + length (peers rosProviders))%nat
  /\ settings (after r) = settings p
  /\ isAvailable (after r) = true
  /\ (URI.ROS_PROVIDER_GET_LIST ∉ currentRequestList (dispatch (after r)))
  /\ calls (dispatch (after r)) = S (calls (dispatch p)).
Proof.
  intros Hav Hfree Hne Hcall r created. subst r.
  unfold updateProviderList. rewrite run_bind, run_catch.
  rewrite (makeCall_resolved rt _ _ p _ Hav Hfree Hcall).
  cbn [settled after effects prepend].
  rewrite bool_decide_eq_true_2 by (destruct rosProviders; simpl; [contradiction|lia]).
  run_with run_modify. run_with run_gets. run_with run_modify. rewrite run_bind.
  match goal with |- context [updateProviderList_entries rt ?old rosProviders ?q] =>
    destruct (updateProviderList_entries_run rt rosProviders old q)
      as (E1 & E2 & E3 & E4 & E5 & E6 & E7)
  end.
  rewrite E1, E2. cbn [settled after effects prepend].
  run_with run_gets. rewrite E3. run_with forEach_perform. run_with forEach_perform.
  rewrite run_bind.
  match goal with |- context [setConnectionState CONNECTED "" ?q] =>
    destruct (setConnectionState_frame CONNECTED "" q)
      as (S1 & S2 & S3 & S4 & S5 & S6 & S7 & S8)
  end.
  specialize (S3 ltac:(discriminate)).
  rewrite S1. cbn [settled after effects prepend]. rewrite run_mret.
  cbn [settled after effects]. unfold isAvailable.
  rewrite S2, S3, S4, S5, S6, E3, E4, E5, E6, E7.
  rewrite unlockRequest_run. cbn - [new_peers surviving peers discovered_events removed_events
                                      URI.ROS_PROVIDER_GET_LIST].
  cbn - [new_peers surviving peers discovered_events removed_events
         URI.ROS_PROVIDER_GET_LIST] in S7, S8.
  fold created.
  change (discovered_events (_ :: _ :: ?l)) with (discovered_events l).
  change (removed_events (_ :: _ :: ?l)) with (removed_events l).
  rewrite !discovered_events_app, !removed_events_app, S7, S8.
  rewrite discovered_events_discovered, discovered_events_removed.
  rewrite removed_events_discovered, removed_events_removed.
  rewrite !app_nil_r.
  split; [reflexivity|]. split; [reflexivity|].
  split; [destruct (bool_decide _); reflexivity|].
  split; [destruct (bool_decide _); reflexivity|].
  split; [reflexivity|]. split; [reflexivity|]. split; [exact Hav|].
  split; [|reflexivity].
  apply not_elem_of_difference. right. apply elem_of_singleton. reflexivity.
Qed.

End DiscoveryPull.

(** C2, as the spec states it, fails: in the scenario of the spec (the
    endpoint h1 reports itself and the peer h2:7777), a second identical
    pull emits a "peer discovered" event again, for a provider object that
    is constructed anew. *)
Lemma updateProviderList_twice_counterexample :
  let r1 := updateProviderList Examples.discovering (Examples.provider0 10 ∅) in
  let r2 := updateProviderList Examples.discovering (after r1) in
  discovered_events (effects r2) <> []
  /\ remoteProviders (model (after r2)) <> remoteProviders (model (after r1)).
Proof.
  split; vm_compute; intros H; discriminate H.
Qed.

(** C2, amended.  Of two pulls in succession that return the same non-empty
    peer list, the second emits no "peer removed" event: the provider
    objects of the first pull are matched with the entries of the list by
    their url (address and port), not by object identity.  It does construct
    a new provider object for every peer of the list, with the url of the
    first pull's object for that peer, and emits a "peer discovered" event
    for each of the new objects. *)
Theorem updateProviderList_twice (rt : Runtime) (p : Provider)
    (rosProviders : list RosProviderState) :
  isAvailable p = true ->
  URI.ROS_PROVIDER_GET_LIST ∉ currentRequestList (dispatch p) ->
  rosProviders <> [] ->
  connection_call rt (calls (dispatch p)) URI.ROS_PROVIDER_GET_LIST []
  = Resolved (JProviderList rosProviders) ->
  connection_call rt (S (calls (dispatch p))) URI.ROS_PROVIDER_GET_LIST []
  = Resolved (JProviderList rosProviders) ->
  let r1 := updateProviderList rt p in
  let r2 := updateProviderList rt (after r1) in
  settled r2 = Fulfilled true
  /\ removed_events (effects r2) = []
  /\ discovered_events (effects r2) = remoteProviders (model (after r2))
  /\ length (discovered_events (effects r2)) = length (peers rosProviders)
  /\ url rt <$> remoteProviders (model (after r2))
     = url rt <$> remoteProviders (model (after r1))
  /\ (forall np old, np ∈ remoteProviders (model (after r2)) ->
                     old ∈ remoteProviders (model (after r1)) ->
                     (object old < object np)%nat).
Proof.
  intros Hav Hfree Hne Hcall1 Hcall2 r1 r2.
  destruct (updateProviderList_pull rt p rosProviders Hav Hfree Hne Hcall1)
    as (A1 & A2 & A3 & A4 & A5 & A6 & A7 & A8 & A9).
  fold r1 in A1, A2, A3, A4, A5, A6, A7, A8, A9.
  assert (Hcall2' : connection_call rt (calls (dispatch (after r1)))
                      URI.ROS_PROVIDER_GET_LIST [] = Resolved (JProviderList rosProviders)).
  { rewrite A9. exact Hcall2. }
  destruct (updateProviderList_pull rt (after r1) rosProviders A7 A8 Hne Hcall2')
    as (B1 & B2 & B3 & B4 & B5 & B6 & B7 & B8 & B9).
  fold r2 in B1, B2, B3, B4, B5, B6, B7, B8, B9.
  split; [exact B1|]. split.
  { rewrite B4. apply surviving_none. intros orp Hin. rewrite A2 in Hin.
    rewrite <- (url_new_peers rt (this_id (settings p)) rosProviders (allocated (store p))).
    apply list_elem_of_fmap. exists orp. split; [reflexivity|exact Hin]. }
  split; [rewrite B2, B3; reflexivity|].
  split; [rewrite B3; apply (length_new_peers rt)|].
  split; [rewrite B2, A2, !url_new_peers; reflexivity|].
  intros np old Hnp Hold. rewrite B2 in Hnp. rewrite A2 in Hold.
  apply object_new_peers in Hnp. apply object_new_peers in Hold. rewrite A5 in Hnp. lia.
Qed.

Lemma updateProviderList_twice_witness :
  let r1 := updateProviderList Examples.discovering (Examples.provider0 10 ∅) in
  let r2 := updateProviderList Examples.discovering (after r1) in
  settled r2 = Fulfilled true
  /\ removed_events (effects r2) = []
  /\ discovered_events (effects r2) = remoteProviders (model (after r2))
  /\ length (discovered_events (effects r2)) = 1%nat
  /\ url Examples.discovering <$> remoteProviders (model (after r2))
     = url Examples.discovering <$> remoteProviders (model (after r1))
  /\ (forall np old, np ∈ remoteProviders (model (after r2)) ->
                     old ∈ remoteProviders (model (after r1)) ->
                     (object old < object np)%nat).
Proof.
  apply (updateProviderList_twice Examples.discovering (Examples.provider0 10 ∅)
           [Examples.self_h1; Examples.peer_h2]).
  - reflexivity.
  - apply not_elem_of_empty.
  - discriminate.
  - reflexivity.
  - reflexivity.
Defined.

(** ** Reconciling declared and running nodes *)

Section SynchronizerProperties.

Variable rt : Runtime.

Lemma alloc_node_run (p : Provider) :
  alloc_node p
  = {| settled := Fulfilled (allocated (store p)); after := alloc_node_after p; effects := [] |}.
Proof. reflexivity. Qed.

Lemma getNodeList_node_run (raw : IRosNode) (p : Provider) :
  getNodeList_node raw p
  = {| settled := Fulfilled (node_of_raw (allocated (store p)) raw);
       after := alloc_node_after p; effects := [] |}.
Proof. reflexivity. Qed.

(** [updateRosNodes] with its lock free: the node list of the pull, filtered
    and merged with the old state, replaces the model's, and the launch
    files are pulled. *)
Lemma updateRosNodes_free (p q : Provider) (nl : list RosNode) (ev : list Effect) :
  "updateRosNodes" ∉ currentRequestList (dispatch p) ->
  getNodeList rt (locked "updateRosNodes" p)
  = {| settled := Fulfilled nl; after := q; effects := ev |} ->
  after (updateRosNodes rt p)
  = after (updateLaunchContentFrom rt (unlockRequest "updateRosNodes")
             (with_model
                (set_rosNodes (updateRosNodes_node q <$>
                                 filter (fun n => updateRosNodes_filter q n = true) nl)) q)).
Proof.
  intros Hfree Hlist. unfold updateRosNodes.
  run_with (lockRequest_free rt _ _ Hfree).
  run_with Hlist. run_with run_gets. run_with run_modify.
  reflexivity.
Qed.

Lemma set_composable_tags_singleton (n : RosNode) :
  exists t, set_composable_tags rt [n] = [set_tags t n].
Proof.
  unfold set_composable_tags. cbn [tag_nodelets].
  destruct (composableParent_of n) as [cp|].
  - rewrite (bool_decide_eq_false_2 (cp ∈ [])) by apply not_elem_of_nil.
    cbn [app fold_left]. unfold tag_manager. cbn [findIndex].
    match goal with |- context [if ?b then _ else _] => destruct b end.
    + cbn [list_insert insert]. eexists. reflexivity.
    + eexists. reflexivity.
  - cbn [fold_left]. exists (tags n). destruct n; reflexivity.
Qed.

Lemma launchList_single (p : Provider) (bundle : LaunchContent) :
  passes p bundle ->
  LaunchContent_new (this_id (settings p)) <$>
    filter (fun parsed => ¬ (JsString.truthy (ps_masteruri (rosState (model p))) = true
                             ∧ lc_masteruri parsed ≠ ps_masteruri (rosState (model p))))
           [bundle]
  = [LaunchContent_new (this_id (settings p)) bundle].
Proof.
  intros Hpass. rewrite filter_cons.
  destruct (decide _) as [Hk|Hk].
  - reflexivity.
  - exfalso. apply Hk. intros [H1 H2]. destruct Hpass; congruence.
Qed.

Lemma updateLaunchContent_node_declares (launchFile : LaunchContent) (launchNode : LaunchNode)
    (nm : string) (p : Provider) :
  unique_name launchNode = Some nm ->
  JsString.truthy nm = true ->
  findIndex (fun n => bool_decide (name n = nm)) (rosNodes (model p)) = None ->
  updateLaunchContent_node launchFile launchNode p
  = {| settled := Fulfilled tt; after := declared launchFile launchNode nm p; effects := [] |}.
Proof.
  intros Hun Ht Hfind. unfold updateLaunchContent_node. rewrite Hun, Ht.
  run_with run_gets. rewrite Hfind.
  run_with alloc_node_run. run_with run_gets. run_with run_gets.
  run_with run_modify. rewrite run_modify. reflexivity.
Qed.

Lemma updateLaunchContent_node_attaches (launchFile : LaunchContent) (launchNode : LaunchNode)
    (nm : string) (p : Provider) (i : nat) (n : RosNode) :
  unique_name launchNode = Some nm ->
  JsString.truthy nm = true ->
  findIndex (fun n => bool_decide (name n = nm)) (rosNodes (model p)) = Some (i, n) ->
  updateLaunchContent_node launchFile launchNode p
  = {| settled := Fulfilled tt; after := attached launchFile launchNode nm i n p;
       effects := [] |}.
Proof.
  intros Hun Ht Hfind. unfold updateLaunchContent_node. rewrite Hun, Ht.
  run_with run_gets. rewrite Hfind.
  run_with run_modify. rewrite run_modify. reflexivity.
Qed.

(** The [then] handler for one launch file with one node declaration, when
    the step of the declaration is known. *)
Lemma updateLaunchContent_then_single (p : Provider) (bundle : LaunchContent)
    (launchNode : LaunchNode) (q : Provider) :
  lc_nodes bundle = [launchNode] ->
  passes p bundle ->
  let launchFile := LaunchContent_new (this_id (settings p)) bundle in
  updateLaunchContent_node launchFile launchNode
    (with_model (set_launchFiles [launchFile]) p)
  = {| settled := Fulfilled tt; after := q; effects := [] |} ->
  let r := updateLaunchContent_then rt (JLaunchList [bundle]) p in
  let q' := with_link (set_daemon true)
              (with_model (fun m => set_rosNodes (set_composable_tags rt (rosNodes m)) m) q) in
  r = {| settled := Fulfilled true; after := q';
         effects := [EVENT_PROVIDER_LAUNCH_LIST [launchFile];
                     EVENT_PROVIDER_ROS_NODES (rosNodes (model q'))] |}.
Proof.
  intros Hln Hpass launchFile Hnode r q'. subst r.
  unfold updateLaunchContent_then.
  run_with run_mret. run_with run_gets. run_with run_gets.
  rewrite (launchList_single p bundle Hpass). fold launchFile.
  run_with run_modify. run_with run_perform.
  rewrite run_bind. cbn [forEach].
  replace (lc_nodes launchFile) with [launchNode] by (symmetry; exact Hln).
  cbn [forEach].
  rewrite (run_bind (_ ≫= _)).
  rewrite (run_bind (updateLaunchContent_node _ _)).
  rewrite Hnode. cbn [settled after effects prepend].
  rewrite !run_mret. cbn [settled after effects prepend].
  run_with run_modify. run_with run_modify. run_with run_gets. run_with run_perform.
  rewrite run_mret. reflexivity.
Qed.

Lemma updateRosNodes_filter_frame (p q : Provider) (n : RosNode) :
  settings q = settings p -> rosState (model q) = rosState (model p) ->
  updateRosNodes_filter q n = updateRosNodes_filter p n.
Proof. intros Hs Hm. unfold updateRosNodes_filter. rewrite Hs, Hm. reflexivity. Qed.

(** ** Invariants through the dispatcher *)

(** The primitive operations and the monad keep every invariant that their
    parts keep; the dispatcher keeps every invariant that does not depend
    on its bookkeeping, whatever the transport does. *)

Section Preservation.

Variable Inv : Provider -> Prop.

Lemma preserves_mret {A} (a : A) : preserves Inv (mret a).
Proof. intros p H. exact H. Qed.

Lemma preserves_gets {A} (f : Provider -> A) : preserves Inv (gets f).
Proof. intros p H. exact H. Qed.

Lemma preserves_perform (e : Effect) : preserves Inv (perform e).
Proof. intros p H. exact H. Qed.

Lemma preserves_throw {A} (e : Exn) : preserves Inv (throw e : Async A).
Proof. intros p H. exact H. Qed.

Lemma preserves_unsettled {A} : preserves Inv (unsettled : Async A).
Proof. intros p H. exact H. Qed.

Lemma preserves_modify (f : Provider -> Provider) :
  (forall p, Inv p -> Inv (f p)) -> preserves Inv (modify f).
Proof. intros Hf p H. apply Hf, H. Qed.

Lemma preserves_bind {A B} (m : Async A) (k : A -> Async B) :
  preserves Inv m -> (forall a, preserves Inv (k a)) -> preserves Inv (m ≫= k).
Proof.
  intros Hm Hk p Hp. rewrite run_bind. specialize (Hm p Hp).
  destruct (settled (m p)) as [a| |]; cbn [after prepend]; try exact Hm.
  apply Hk, Hm.
Qed.

Lemma preserves_catch {A} (m : Async A) (h : Exn -> Async A) :
  preserves Inv m -> (forall e, preserves Inv (h e)) -> preserves Inv (catch m h).
Proof.
  intros Hm Hh p Hp. rewrite run_catch. specialize (Hm p Hp).
  destruct (settled (m p)) as [a|e|]; cbn [after prepend]; try exact Hm.
  apply Hh, Hm.
Qed.

Lemma preserves_forEach {A} (f : A -> Async unit) (l : list A) :
  (forall x, preserves Inv (f x)) -> preserves Inv (forEach f l).
Proof.
  intros Hf. induction l as [|x l IH]; cbn [forEach].
  - apply preserves_mret.
  - apply preserves_bind; [apply Hf | intros _; exact IH].
Qed.

Hypothesis Inv_dispatch : forall f p, Inv p -> Inv (with_dispatch f p).

Lemma preserves_dispatch (f : Dispatch -> Dispatch) : preserves Inv (modify (with_dispatch f)).
Proof. apply preserves_modify, Inv_dispatch. Qed.

Lemma preserves_unlockRequest (request : string) : preserves Inv (unlockRequest request).
Proof.
  unfold unlockRequest.
  apply preserves_bind; [apply preserves_dispatch | intros _].
  apply preserves_bind; [apply preserves_gets | intros n].
  destruct (bool_decide _); [apply preserves_perform | apply preserves_mret].
Qed.

Lemma preserves_delay (resume : Async unit) (ms : Z) :
  preserves Inv resume -> preserves Inv (delay rt resume ms).
Proof.
  intros Hr. unfold delay.
  apply preserves_bind; [apply preserves_perform | intros _].
  apply preserves_bind; [exact Hr | intros _].
  apply preserves_dispatch.
Qed.

Lemma preserves_lockRequest (resume : Async unit) (request : string) :
  preserves Inv resume -> preserves Inv (lockRequest rt resume request).
Proof.
  intros Hr. unfold lockRequest.
  apply preserves_bind; [apply preserves_gets | intros has].
  apply preserves_bind.
  { destruct has; [|apply preserves_mret].
    apply preserves_bind; [apply preserves_delay, Hr | intros _]. apply preserves_gets. }
  intros [|]; [apply preserves_mret|].
  apply preserves_bind; [apply preserves_perform | intros _].
  apply preserves_bind; [apply preserves_dispatch | intros _].
  apply preserves_bind; [|intros _; apply preserves_mret].
  destruct has; [apply preserves_mret | exact Hr].
Qed.

Lemma preserves_invoke (uri : string) (args : list Arg) : preserves Inv (invoke rt uri args).
Proof.
  unfold invoke.
  apply preserves_bind; [apply preserves_perform | intros _].
  apply preserves_bind; [apply preserves_gets | intros o].
  apply preserves_bind; [apply preserves_dispatch | intros _]. apply preserves_mret.
Qed.

Lemma preserves_failed (uri : string) {A} (f : string -> Exn) :
  preserves Inv (unlockRequest uri;; nm ← gets (this_name); (throw (f nm) : Async A)).
Proof.
  apply preserves_bind; [apply preserves_unlockRequest | intros _].
  apply preserves_bind; [apply preserves_gets | intros nm]. apply preserves_throw.
Qed.

Lemma preserves_callRequest_catch (retry : Async JSONObject) (uri : string)
    (currentAttempt : Z) (err : Exn) :
  preserves Inv retry -> preserves Inv (callRequest_catch rt retry uri currentAttempt err).
Proof.
  intros Hr. unfold callRequest_catch.
  apply preserves_bind.
  { destruct (JsString.includes "{" (to_text err)).
    - destruct (JSON_parse rt (to_text err)) as [e|]; [|apply preserves_throw].
      match goal with |- preserves _ (if ?b then _ else _) => destruct b end;
        [|apply preserves_mret].
      apply (preserves_failed uri (fun nm => Error _)).
    - match goal with |- preserves _ (if ?b then _ else _) => destruct b end;
        [|apply preserves_mret].
      apply (preserves_failed uri (fun nm => Error _)). }
  intros _. apply preserves_bind; [apply preserves_gets | intros attempts].
  destruct (currentAttempt >=? attempts).
  - apply (preserves_failed uri (fun nm => Error _)).
  - apply preserves_bind; [apply preserves_gets | intros ms].
    apply preserves_bind; [apply preserves_delay, preserves_mret | intros _]. exact Hr.
Qed.

Lemma preserves_callRequest (uri : string) (args : list Arg) :
  forall (fuel : nat) (resume : Async unit) (currentAttempt : Z),
    preserves Inv resume ->
    preserves Inv (callRequest rt fuel resume uri args currentAttempt).
Proof.
  induction fuel as [|fuel IH]; intros resume cur Hr; cbn [callRequest];
    (apply preserves_bind; [apply preserves_invoke | intros o];
     apply preserves_bind; [exact Hr | intros _];
     destruct o; [apply preserves_mret | |];
     apply preserves_callRequest_catch).
  - apply preserves_unsettled.
  - apply preserves_unsettled.
  - apply IH, preserves_mret.
  - apply IH, preserves_mret.
Qed.

Lemma preserves_makeCallFrom (resume : Async unit) (uri : string) (args : list Arg)
    (lock : bool) :
  preserves Inv resume -> preserves Inv (makeCallFrom rt resume uri args lock).
Proof.
  intros Hr. unfold makeCallFrom.
  apply preserves_bind; [apply preserves_gets | intros available].
  destruct (negb available).
  { apply preserves_bind; [apply preserves_gets | intros nm].
    apply preserves_bind; [exact Hr | intros _]. apply preserves_throw. }
  apply preserves_bind.
  { destruct lock; [apply preserves_lockRequest, Hr | apply preserves_mret]. }
  intros [|].
  { apply preserves_bind; [apply preserves_gets | intros nm]. apply preserves_throw. }
  apply preserves_bind; [apply preserves_gets | intros fuel].
  apply preserves_bind.
  { apply preserves_callRequest. destruct lock; [apply preserves_mret | exact Hr]. }
  intros result. apply preserves_bind; [apply preserves_unlockRequest | intros _].
  apply preserves_mret.
Qed.

End Preservation.

(** ** The node named [nm] through a pull of the launch files *)

Lemma same_core_refl (n : RosNode) : same_core n n.
Proof. repeat split. Qed.

Lemma same_core_trans (n1 n2 n3 : RosNode) :
  same_core n1 n2 -> same_core n2 n3 -> same_core n1 n3.
Proof.
  unfold same_core. intros (?&?&?&?&?&?) (?&?&?&?&?&?). repeat split; congruence.
Qed.

Lemma same_core_all (l : list RosNode) : Forall2 same_core l l.
Proof. apply Forall_Forall2_diag, Forall_forall. intros n _. apply same_core_refl. Qed.

Lemma same_core_insert (l : list RosNode) (i : nat) (x y : RosNode) :
  l !! i = Some x -> same_core x y -> Forall2 same_core l (<[i := y]> l).
Proof.
  intros Hi Hxy. rewrite <- (list_insert_id _ _ _ Hi) at 1.
  apply Forall2_insert; [apply same_core_all | exact Hxy].
Qed.

Lemma named_same_core (nm : string) (l l' : list RosNode) :
  Forall2 same_core l l' -> Forall2 same_core (named nm l) (named nm l').
Proof.
  unfold named. induction 1 as [|x y l l' Hxy _ IH]; [constructor|].
  rewrite !filter_cons. destruct Hxy as (Hn & Hrest).
  destruct (decide (name x = nm)) as [Hx|Hx], (decide (name y = nm)) as [Hy|Hy];
    first [ congruence
          | exact IH
          | constructor; [repeat split; tauto | exact IH] ].
Qed.

Lemma one_named_same_core (nm : string) (n : RosNode) (l l' : list RosNode) :
  Forall2 same_core l l' -> one_named nm n l -> one_named nm n l'.
Proof.
  intros Hll (n1 & Hn1 & Hc). apply (named_same_core nm) in Hll. rewrite Hn1 in Hll.
  apply Forall2_cons_inv_l in Hll as (n2 & l2 & H12 & Hnil & Hl').
  apply Forall2_nil_inv_l in Hnil. subst l2.
  exists n2. split; [exact Hl' | exact (same_core_trans _ _ _ Hc H12)].
Qed.

Lemma one_named_app (nm : string) (n x : RosNode) (l : list RosNode) :
  name x <> nm -> one_named nm n l -> one_named nm n (l ++ [x]).
Proof.
  intros Hx (n1 & Hn1 & Hc). exists n1. split; [|exact Hc].
  unfold named in *. rewrite filter_app, Hn1, filter_cons, decide_False by exact Hx.
  reflexivity.
Qed.

Lemma findIndex_None {A} (f : A -> bool) (l : list A) :
  findIndex f l = None -> Forall (fun x => f x = false) l.
Proof.
  induction l as [|x l IH]; intros H; [constructor|]. simpl in H.
  destruct (f x) eqn:Hx; [discriminate|].
  destruct (findIndex f l) as [[j y]|]; [discriminate|].
  constructor; [exact Hx | apply IH; reflexivity].
Qed.

Lemma one_named_found (nm : string) (n : RosNode) (l : list RosNode) :
  one_named nm n l -> findIndex (fun x => bool_decide (name x = nm)) l <> None.
Proof.
  intros (n1 & Hn1 & _) Hnone. apply findIndex_None in Hnone.
  assert (Hin : n1 ∈ named nm l) by (rewrite Hn1; apply list_elem_of_singleton; reflexivity).
  unfold named in Hin. apply list_elem_of_filter in Hin as [Hname Hin].
  rewrite Forall_forall in Hnone. specialize (Hnone n1 Hin).
  apply bool_decide_eq_false in Hnone. exact (Hnone Hname).
Qed.

(** The tags of the composable nodes change nothing else. *)
Lemma tag_nodelets_same_core : forall (nodes : list RosNode) (managers : list string),
  Forall2 same_core nodes (snd (tag_nodelets rt managers nodes)).
Proof.
  induction nodes as [|n nodes IH]; intros managers; cbn [tag_nodelets]; [constructor|].
  destruct (composableParent_of n) as [cp|].
  - match goal with
    | |- context [tag_nodelets rt ?m nodes] =>
        specialize (IH m); destruct (tag_nodelets rt m nodes) as [ms rest]
    end.
    cbn [snd] in *. constructor; [repeat split | exact IH].
  - specialize (IH managers). destruct (tag_nodelets rt managers nodes) as [ms rest].
    cbn [snd] in *. constructor; [apply same_core_refl | exact IH].
Qed.

Lemma tag_manager_same_core (managers : list string) (nodes : list RosNode)
    (managerId : string) :
  Forall2 same_core nodes (tag_manager rt managers nodes managerId).
Proof.
  unfold tag_manager.
  destruct (findIndex _ nodes) as [[i node]|] eqn:Hfind; [|apply same_core_all].
  apply findIndex_Some in Hfind as [Hi _].
  apply (same_core_insert nodes i node); [exact Hi | repeat split].
Qed.

Lemma set_composable_tags_same_core (nodes : list RosNode) :
  Forall2 same_core nodes (set_composable_tags rt nodes).
Proof.
  unfold set_composable_tags.
  pose proof (tag_nodelets_same_core nodes []) as H0.
  destruct (tag_nodelets rt [] nodes) as [managers tagged]. cbn [snd] in H0.
  revert H0. generalize managers at 1. intros every. revert tagged.
  induction managers as [|m managers IH]; intros tagged H0; cbn [fold_left]; [exact H0|].
  apply IH. eapply Forall2_trans; [|exact H0|apply tag_manager_same_core].
  intros ? ? ?. apply same_core_trans.
Qed.

Section Merged.

Variables (nm : string) (n : RosNode) (content : option (list DiagnosticStatus)).

Lemma merged_dispatch (f : Dispatch -> Dispatch) (p : Provider) :
  merged nm n content p -> merged nm n content (with_dispatch f p).
Proof. intros H. exact H. Qed.

Lemma merged_link (f : Link -> Link) (p : Provider) :
  merged nm n content p -> merged nm n content (with_link f p).
Proof. intros H. exact H. Qed.

Lemma merged_launchFiles (l : list LaunchContent) (p : Provider) :
  merged nm n content p -> merged nm n content (with_model (set_launchFiles l) p).
Proof. intros H. exact H. Qed.

Lemma merged_add_path (r : Ref) (path : string) (p : Provider) :
  merged nm n content p -> merged nm n content (add_path r path p).
Proof. intros H. exact H. Qed.

Lemma merged_alloc (p : Provider) :
  merged nm n content p -> merged nm n content (alloc_node_after p).
Proof.
  intros (H1 & H2 & H3). split; [exact H1|].
  unfold alloc_node_after, with_store. cbn [store diagnosticArrays allocated].
  split; [|lia]. rewrite lookup_insert_ne by lia. exact H2.
Qed.

Lemma merged_nodes (l : list RosNode) (p : Provider) :
  Forall2 same_core (rosNodes (model p)) l ->
  merged nm n content p -> merged nm n content (with_model (set_rosNodes l) p).
Proof.
  intros Hl (H1 & H2 & H3). split; [|split; [exact H2 | exact H3]].
  exact (one_named_same_core nm n _ _ Hl H1).
Qed.

Lemma merged_update_node (i : nat) (f : RosNode -> RosNode) (p : Provider) :
  (forall x, same_core x (f x)) ->
  merged nm n content p -> merged nm n content (update_node i f p).
Proof.
  intros Hf H.
  destruct (rosNodes (model p) !! i) as [x|] eqn:Hi.
  - rewrite (update_node_at i f p x Hi). apply merged_nodes; [|exact H].
    apply (same_core_insert _ i x); [exact Hi | apply Hf].
  - unfold update_node, with_model. rewrite Hi.
    apply (merged_nodes (rosNodes (model p)) p); [apply same_core_all | exact H].
Qed.

Lemma merged_append (x : RosNode) (p : Provider) :
  name x <> nm ->
  merged nm n content p ->
  merged nm n content (with_model (fun m => set_rosNodes (rosNodes m ++ [x]) m) p).
Proof.
  intros Hx (H1 & H2 & H3). split; [|split; [exact H2 | exact H3]].
  exact (one_named_app nm n x _ Hx H1).
Qed.

Lemma preserves_updateLaunchContent_node (launchFile : LaunchContent)
    (launchNode : LaunchNode) :
  preserves (merged nm n content) (updateLaunchContent_node launchFile launchNode).
Proof.
  intros p H.
  destruct (unique_name launchNode) as [unique|] eqn:Hun.
  2:{ unfold updateLaunchContent_node. rewrite Hun. exact H. }
  destruct (JsString.truthy unique) eqn:Ht.
  2:{ unfold updateLaunchContent_node. rewrite Hun, Ht. exact H. }
  destruct (findIndex (fun x => bool_decide (name x = unique)) (rosNodes (model p)))
    as [[i node]|] eqn:Hfind.
  - rewrite (updateLaunchContent_node_attaches launchFile launchNode unique p i node
               Hun Ht Hfind).
    cbn [after]. unfold attached.
    apply merged_update_node; [intros x; repeat split|]. apply merged_add_path, H.
  - rewrite (updateLaunchContent_node_declares launchFile launchNode unique p Hun Ht Hfind).
    cbn [after]. unfold declared. apply merged_append.
    + cbn [name inactive_node set_identity set_launch RosNode_new].
      intros ->. destruct H as (H1 & _). exact (one_named_found nm n _ H1 Hfind).
    + apply merged_add_path, merged_alloc, H.
Qed.

Lemma preserves_updateLaunchContent_then (value : JSONObject) :
  preserves (merged nm n content) (updateLaunchContent_then rt value).
Proof.
  unfold updateLaunchContent_then.
  apply preserves_bind.
  { destruct value as [s|l|l|l|d]; try destruct l;
      try apply preserves_mret; try apply preserves_throw.
    destruct (truthy _); [apply preserves_throw | apply preserves_mret]. }
  intros parsedList.
  apply preserves_bind; [apply preserves_gets | intros me].
  apply preserves_bind; [apply preserves_gets | intros mine].
  apply preserves_bind; [apply preserves_modify; intros p; apply merged_launchFiles | intros _].
  apply preserves_bind; [apply preserves_perform | intros _].
  apply preserves_bind.
  { apply preserves_forEach. intros launchFile. apply preserves_forEach. intros launchNode.
    apply preserves_updateLaunchContent_node. }
  intros _. apply preserves_bind.
  { apply preserves_modify. intros p Hp.
    apply (merged_nodes (set_composable_tags rt (rosNodes (model p))) p);
      [apply set_composable_tags_same_core | exact Hp]. }
  intros _. apply preserves_bind; [apply preserves_modify; intros p; apply merged_link | intros _].
  apply preserves_bind; [apply preserves_gets | intros nodes].
  apply preserves_bind; [apply preserves_perform | intros _]. apply preserves_mret.
Qed.

Lemma preserves_updateLaunchContentFrom (resume : Async unit) :
  preserves (merged nm n content) resume ->
  preserves (merged nm n content) (updateLaunchContentFrom rt resume).
Proof.
  intros Hr. unfold updateLaunchContentFrom.
  apply preserves_bind; [|apply preserves_updateLaunchContent_then].
  apply preserves_catch.
  - apply preserves_makeCallFrom; [apply merged_dispatch | exact Hr].
  - intros err. apply preserves_bind.
    { destruct (JsString.includes _ _); [|apply preserves_mret].
      apply preserves_modify. intros p. apply merged_link. }
    intros _. apply preserves_bind; [|intros _; apply preserves_mret].
    apply preserves_modify. intros p. apply merged_launchFiles.
Qed.

End Merged.

Section Kept.

Variables (p0 : Provider) (r0 : Ref).

Lemma kept_dispatch (f : Dispatch -> Dispatch) (p : Provider) :
  kept p0 r0 p -> kept p0 r0 (with_dispatch f p).
Proof. intros H. exact H. Qed.

Lemma kept_link (f : Link -> Link) (p : Provider) :
  kept p0 r0 p -> kept p0 r0 (with_link f p).
Proof. intros H. exact H. Qed.

Lemma preserves_getNodeList_nodes : forall (l : list IRosNode) (m : list (string * RosNode)),
  preserves (kept p0 r0) (getNodeList_nodes m l).
Proof.
  induction l as [|raw l IH]; intros m; cbn [getNodeList_nodes].
  - apply preserves_mret.
  - apply preserves_bind; [|intros rn; apply IH].
    intros p (H1 & H2 & H3 & H4). rewrite getNodeList_node_run. cbn [after].
    split; [exact H1|]. split; [exact H2|].
    unfold alloc_node_after, with_store. cbn [store diagnosticArrays allocated].
    split; [|lia]. rewrite lookup_insert_ne by lia. exact H3.
Qed.

Lemma preserves_getNodeList : preserves (kept p0 r0) (getNodeList rt).
Proof.
  unfold getNodeList. apply preserves_bind.
  { apply preserves_catch.
    - apply preserves_makeCallFrom; [apply kept_dispatch | apply preserves_mret].
    - intros err. apply preserves_bind; [|intros _; apply preserves_mret].
      destruct (JsString.includes _ _); [|apply preserves_mret].
      apply preserves_modify. intros p. apply kept_link. }
  assert (Hd : preserves (kept p0 r0) (modify (with_link (set_discovery true));;
                                         (mret [] : Async (list RosNode)))).
  { apply preserves_bind; [|intros _; apply preserves_mret].
    apply preserves_modify. intros p. apply kept_link. }
  intros [s|[|x l]|l|[|x l]|d]; try apply preserves_mret; try exact Hd.
  apply preserves_bind; [apply preserves_getNodeList_nodes | intros nodeList].
  apply preserves_bind; [|intros _; apply preserves_mret].
  apply preserves_modify. intros p. apply kept_link.
Qed.

End Kept.

Lemma named_fmap (nm : string) (f : RosNode -> RosNode) (l : list RosNode) :
  (forall x, name (f x) = name x) -> named nm (f <$> l) = f <$> named nm l.
Proof.
  intros Hf. unfold named. induction l as [|x l IH]; [reflexivity|].
  rewrite fmap_cons, !filter_cons, Hf.
  destruct (decide (name x = nm)); [rewrite fmap_cons|]; rewrite IH; reflexivity.
Qed.

Lemma updateRosNodes_node_name (p : Provider) (rn : RosNode) :
  name (updateRosNodes_node p rn) = name rn.
Proof.
  unfold updateRosNodes_node.
  repeat match goal with
         | |- context [if ?b then _ else _] => destruct b
         | |- context [match ?o with Some _ => _ | None => _ end] => destruct o
         end; reflexivity.
Qed.

(** The merge of a reported node that has a node API uri and a master uri
    with the old entry of its [idGlobal]. *)
Lemma updateRosNodes_node_merges (p : Provider) (n0 rn : RosNode) :
  JsString.truthy (node_API_URI rn) = true ->
  JsString.truthy (masteruri rn) = true ->
  find (fun item => bool_decide (idGlobal item
          = this_id (settings p) +:+ JsString.replaceAll "/" "." (id rn)))
       (rosNodes (model p)) = Some n0 ->
  let n := updateRosNodes_node p rn in
  pid n = pid rn
  /\ status n = (if (pid rn <=? 0)%Z
                 then if bool_decide (JsString.split_first ":" (node_API_URI rn)
                                      = JsString.split_first ":" (masteruri rn))
                      then ST_DEAD else ST_NOT_MONITORED
                 else status rn)
  /\ diagnosticStatus n = diagnosticStatus n0
  /\ diagnosticLevel n = diagnosticLevel n0
  /\ diagnosticMessage n = diagnosticMessage n0.
Proof.
  intros Hapi Hmu Hfind n. subst n. unfold updateRosNodes_node.
  cbn [node_API_URI masteruri pid idGlobal set_identity].
  rewrite Hapi, Hmu. cbn [negb].
  destruct (pid rn <=? 0)%Z; [destruct (bool_decide _)|];
    cbn [idGlobal set_identity set_status]; rewrite Hfind; repeat split.
Qed.

(** C4, amended.  [updateRosNodes] looks the old state of a reported node
    up by [idGlobal], which it derives from the reported [id], and it copies
    the old state only for a report with a node API uri and a master uri.
    So: when the pull of the node list gives a list in which the nodes kept
    by the node filter hold exactly one node named [nm], and that node has
    the id [nm], a node API uri and a master uri, and the model holds an
    entry with the [idGlobal] derived from [nm] (the INACTIVE entry that
    [updateLaunchContent] makes for a declaration of [nm] has it), then,
    whatever else the model and the pulled list hold and however the pull
    of the launch files that [updateRosNodes] starts ends, the model
    afterwards holds exactly one node named [nm]: it has the reported pid
    and, when that pid is positive, the reported status (RUNNING for a
    running process), and it carries the diagnostic level, message and
    history of the old entry. *)
Theorem updateRosNodes_keeps_diagnostics (p : Provider) (nl : list RosNode)
    (n0 rn : RosNode) (nm : string) :
  "updateRosNodes" ∉ currentRequestList (dispatch p) ->
  settled (getNodeList rt (locked "updateRosNodes" p)) = Fulfilled nl ->
  named nm (filter (fun n => updateRosNodes_filter p n = true) nl) = [rn] ->
  id rn = nm ->
  JsString.truthy (node_API_URI rn) = true ->
  JsString.truthy (masteruri rn) = true ->
  find (fun item => bool_decide (idGlobal item
          = this_id (settings p) +:+ JsString.replaceAll "/" "." nm))
       (rosNodes (model p)) = Some n0 ->
  (diagnosticStatus n0 < allocated (store p))%nat ->
  let p' := after (updateRosNodes rt p) in
  exists n, named nm (rosNodes (model p')) = [n]
    /\ name n = nm /\ pid n = pid rn
    /\ status n = (if (pid rn <=? 0)%Z
                   then if bool_decide (JsString.split_first ":" (node_API_URI rn)
                                        = JsString.split_first ":" (masteruri rn))
                        then ST_DEAD else ST_NOT_MONITORED
                   else status rn)
    /\ diagnosticLevel n = diagnosticLevel n0
    /\ diagnosticMessage n = diagnosticMessage n0
    /\ history p' (diagnosticStatus n) = history p (diagnosticStatus n0).
Proof.
  intros Hfree Hlist Hone Hid Hapi Hmu Hfind Href p'. subst p'.
  set (p1 := locked "updateRosNodes" p) in *.
  assert (Hkept : kept p1 (diagnosticStatus n0) (after (getNodeList rt p1))).
  { apply preserves_getNodeList. repeat split. exact Href. }
  destruct (getNodeList rt p1) as [s q ev] eqn:Hrun. cbn [settled after] in Hlist, Hkept.
  subst s. destruct Hkept as (Hs & Hm & Harr & Hlt).
  change (settings p1) with (settings p) in Hs.
  change (model p1) with (model p) in Hm.
  change (store p1) with (store p) in Harr.
  rewrite (updateRosNodes_free p q nl ev Hfree Hrun).
  assert (Hfilter : filter (fun n => updateRosNodes_filter q n = true) nl
                    = filter (fun n => updateRosNodes_filter p n = true) nl).
  { apply list_filter_iff. intros x.
    rewrite (updateRosNodes_filter_frame p q x Hs (f_equal rosState Hm)). reflexivity. }
  rewrite Hfilter.
  set (kept_nodes := filter (fun n => updateRosNodes_filter p n = true) nl) in *.
  set (n3 := updateRosNodes_node q rn).
  assert (Hname : name rn = nm).
  { assert (Hin : rn ∈ named nm kept_nodes)
      by (rewrite Hone; apply list_elem_of_singleton; reflexivity).
    unfold named in Hin. apply list_elem_of_filter in Hin as [Hin _]. exact Hin. }
  destruct (updateRosNodes_node_merges q n0 rn Hapi Hmu) as (Hpid & Hst & Hds & Hlv & Hmsg).
  { rewrite Hs, Hm, Hid. exact Hfind. }
  fold n3 in Hpid, Hst, Hds, Hlv, Hmsg.
  set (p3 := with_model (set_rosNodes (updateRosNodes_node q <$> kept_nodes)) q).
  assert (Hmerged : merged nm n3 (diagnosticArrays (store p) !! diagnosticStatus n0) p3).
  { split; [|split].
    - exists n3. split; [|apply same_core_refl].
      change (rosNodes (model p3)) with (updateRosNodes_node q <$> kept_nodes).
      rewrite (named_fmap nm _ _ (updateRosNodes_node_name q)), Hone. reflexivity.
    - rewrite Hds. exact Harr.
    - rewrite Hds. exact Hlt. }
  apply (preserves_updateLaunchContentFrom nm n3 _ (unlockRequest "updateRosNodes")) in Hmerged.
  2:{ apply preserves_unlockRequest. intros f x. apply merged_dispatch. }
  destruct Hmerged as ((n & Hn & Hc1 & Hc2 & Hc3 & Hc4 & Hc5 & Hc6) & Harr' & _).
  exists n. split; [exact Hn|].
  rewrite Hc1, Hc3, Hc2, Hc5, Hc6. unfold history. rewrite Hc4, Harr', Hpid, Hst, Hlv, Hmsg.
  repeat split.
  unfold n3. rewrite updateRosNodes_node_name. exact Hname.
Qed.

End SynchronizerProperties.

Lemma not_elem_of_decided (u : string) (X : gset string) :
  bool_decide (u ∈ X) = false -> u ∉ X.
Proof. apply bool_decide_eq_false_1. Qed.

(** C4, as the spec states it, fails.  The launch file declares "/talker"
    and a WARN status is recorded for the INACTIVE entry; then the node list
    reports a running process named "/talker" with pid 1234.  When the
    report carries the id "/talker-7", or the id "/talker" and no master
    uri, the model afterwards holds one RUNNING node "/talker" with pid
    1234 whose diagnostic history is empty. *)
Lemma updateRosNodes_drops_diagnostics :
  (let rt := Examples.launching "/talker-7" "h1:11311" in
   let p := Examples.declared_talker rt in
   Examples.summary p = [("/talker", ST_INACTIVE, 0%Z, [Examples.slow])]
   /\ Examples.summary (after (updateRosNodes rt p)) = [("/talker", ST_RUNNING, 1234%Z, [])])
  /\
  (let rt := Examples.launching "/talker" "" in
   let p := Examples.declared_talker rt in
   Examples.summary p = [("/talker", ST_INACTIVE, 0%Z, [Examples.slow])]
   /\ Examples.summary (after (updateRosNodes rt p)) = [("/talker", ST_RUNNING, 1234%Z, [])]).
Proof. repeat split; vm_compute; reflexivity. Qed.

Lemma updateRosNodes_keeps_diagnostics_witness :
  (let rt := Examples.launching "/talker" "h1:11311" in
   let p := Examples.declared_talker rt in
   let p' := after (updateRosNodes rt p) in
   exists n, named "/talker" (rosNodes (model p')) = [n]
     /\ name n = "/talker" /\ pid n = 1234%Z /\ status n = ST_RUNNING
     /\ diagnosticLevel n = WARN
     /\ diagnosticMessage n = "slow"
     /\ history p' (diagnosticStatus n) = [Examples.slow])
  /\
  (let rt := Examples.launch_lost in
   let p := Examples.declared_talker rt in
   let p' := after (updateRosNodes rt p) in
   exists n, named "/talker" (rosNodes (model p')) = [n]
     /\ name n = "/talker" /\ pid n = 1234%Z /\ status n = ST_RUNNING
     /\ diagnosticLevel n = WARN
     /\ diagnosticMessage n = "slow"
     /\ history p' (diagnosticStatus n) = [Examples.slow]).
Proof.
  split.
  - apply (updateRosNodes_keeps_diagnostics (Examples.launching "/talker" "h1:11311")
             (Examples.declared_talker (Examples.launching "/talker" "h1:11311"))
             [node_of_raw 2%nat (Examples.talker "/talker" "h1:11311")]
             Examples.talker_entry
             (node_of_raw 2%nat (Examples.talker "/talker" "h1:11311")) "/talker").
    + apply not_elem_of_decided. vm_compute. reflexivity.
    + vm_compute. reflexivity.
    + vm_compute. reflexivity.
    + reflexivity.
    + reflexivity.
    + reflexivity.
    + vm_compute. reflexivity.
    + vm_compute. lia.
  - apply (updateRosNodes_keeps_diagnostics Examples.launch_lost
             (Examples.declared_talker Examples.launch_lost)
             [node_of_raw 2%nat Examples.listener;
              node_of_raw 4%nat (Examples.talker "/talker" "h1:11311")]
             Examples.talker_entry
             (node_of_raw 4%nat (Examples.talker "/talker" "h1:11311")) "/talker").
    + apply not_elem_of_decided. vm_compute. reflexivity.
    + vm_compute. reflexivity.
    + vm_compute. reflexivity.
    + reflexivity.
    + reflexivity.
    + reflexivity.
    + vm_compute. reflexivity.
    + vm_compute. lia.
Defined.

(** * Further properties of the code *)

Section DispatcherBounds.

Variable rt : Runtime.

Lemma invocations_unlockRequest (uri : string) (p : Provider) :
  invocations (effects (unlockRequest uri p)) = 0%nat.
Proof. rewrite unlockRequest_run. cbn [effects]. destruct (bool_decide _); reflexivity. Qed.

Lemma waits_unlockRequest (uri : string) (p : Provider) :
  waits (effects (unlockRequest uri p)) = [].
Proof. rewrite unlockRequest_run. cbn [effects]. destruct (bool_decide _); reflexivity. Qed.

Lemma waits_app (l1 l2 : list Effect) : waits (l1 ++ l2) = waits l1 ++ waits l2.
Proof. unfold waits. apply omap_app. Qed.

(** The [catch] block makes no invocation besides those of the retry, and
    it retries only while [currentAttempt < callAttempts]. *)
Lemma callRequest_catch_invocations (retry : Async JSONObject) (uri : string) (cur : Z)
    (err : Exn) (p : Provider) (n : nat) :
  ((cur >=? callAttempts (settings p)) = false ->
   (invocations (effects (retry (delayed rt p (delayCallAttempts (settings p))))) <= n)%nat) ->
  (invocations (effects (callRequest_catch rt retry uri cur err p)) <= n)%nat.
Proof.
  intros Hretry. destruct (retried rt err) eqn:Hr.
  - destruct (cur >=? callAttempts (settings p)) eqn:Hc.
    + rewrite (callRequest_catch_exhausted rt) by assumption.
      cbn [effects]. rewrite invocations_unlockRequest. lia.
    + rewrite (callRequest_catch_retry rt) by assumption. cbv zeta. cbn [effects].
      change (invocations (Timer ?ms :: ?l)) with (invocations l). apply Hretry.
      reflexivity.
  - rewrite (callRequest_catch_terminal_run rt retry uri cur err p Hr).
    destruct (if JsString.includes "{" (to_text err) then _ else _); cbn [effects].
    + rewrite invocations_unlockRequest. lia.
    + cbn. lia.
Qed.

(** The invocations of [callRequest] are bounded by the attempts that are
    left, whatever the fuel: the attempt test ends the recursion. *)
Lemma callRequest_invocations (uri : string) (args : list Arg) :
  forall (fuel : nat) (cur : Z) (p : Provider),
    (invocations (effects (callRequest rt fuel (mret tt) uri args cur p))
     <= S (Z.to_nat (callAttempts (settings p) - cur)))%nat.
Proof.
  assert (Hstep : forall (retry : Async JSONObject) (cur : Z) (p : Provider),
    (forall q, settings q = settings p ->
               (invocations (effects (retry q))
                <= S (Z.to_nat (callAttempts (settings p) - (cur + 1))))%nat) ->
    forall err,
      (invocations (effects (callRequest_catch rt retry uri cur err (called p)))
       <= Z.to_nat (callAttempts (settings p) - cur))%nat).
  { intros retry cur p Hretry err. apply callRequest_catch_invocations.
    change (settings (called p)) with (settings p). intros Hlt.
    rewrite Z.geb_leb in Hlt. apply Z.leb_gt in Hlt.
    specialize (Hretry (delayed rt (called p) (delayCallAttempts (settings p))) eq_refl).
    lia. }
  induction fuel as [|fuel IH]; intros cur p;
    rewrite callRequest_unfold; run_with (invoke_run rt); run_with run_mret;
    rewrite invocations_app;
    change (invocations [ConnectionCall uri args]) with 1%nat;
    (destruct (connection_call rt (calls (dispatch p)) uri args) as [v|reason|e];
     [ rewrite run_mret; cbn; lia | cbn [app] | cbn [app] ]).
  - pose proof (Hstep unsettled cur p (fun q _ => Nat.le_0_l _) (Error reason)). lia.
  - pose proof (Hstep unsettled cur p (fun q _ => Nat.le_0_l _) e). lia.
  - pose proof (Hstep (callRequest rt fuel (mret tt) uri args (cur + 1)) cur p
                  (fun q Hq => eq_ind _ (fun s => (_ <= S (Z.to_nat (callAttempts s - _)))%nat)
                                 (IH (cur + 1) q) _ Hq)
                  (Error reason)). lia.
  - pose proof (Hstep (callRequest rt fuel (mret tt) uri args (cur + 1)) cur p
                  (fun q Hq => eq_ind _ (fun s => (_ <= S (Z.to_nat (callAttempts s - _)))%nat)
                                 (IH (cur + 1) q) _ Hq)
                  e). lia.
Qed.

Lemma lockRequest_invocations (uri : string) (p : Provider) :
  invocations (effects (lockRequest rt (mret tt) uri p)) = 0%nat
  /\ settings (after (lockRequest rt (mret tt) uri p)) = settings p
  /\ exists b, settled (lockRequest rt (mret tt) uri p) = Fulfilled b.
Proof.
  unfold lockRequest, delay, has_request. unfold_async. simpl.
  destruct (bool_decide (uri ∈ currentRequestList (dispatch p))); simpl;
    [destruct (bool_decide _); simpl|]; eauto.
Qed.

(** X1.  Whatever the transport answers, a call through the dispatcher
    settles, and it invokes [connection.call] at most [callAttempts + 1]
    times (once when [callAttempts] is negative).  The bound is that of the
    attempt test of [callRequest], not of the fuel of its embedding: with
    any fuel, [callRequest] at the attempt [currentAttempt] makes at most
    [callAttempts - currentAttempt + 1] invocations. *)
Theorem makeCall_invocations_bounded (uri : string) (args : list Arg) (lock : bool)
    (p : Provider) :
  settled (makeCall rt uri args lock p) <> Unsettled
  /\ (invocations (effects (makeCall rt uri args lock p))
      <= S (Z.to_nat (callAttempts (settings p))))%nat
  /\ forall (fuel : nat) (currentAttempt : Z),
       (invocations (effects (callRequest rt fuel (mret tt) uri args currentAttempt p))
        <= S (Z.to_nat (callAttempts (settings p) - currentAttempt)))%nat.
Proof.
  split; [apply makeCall_settles|].
  split; [|intros fuel cur; apply callRequest_invocations].
  unfold makeCall, makeCallFrom.
  run_with run_gets. destruct (isAvailable p); cbn [negb].
  2:{ run_with run_gets. run_with run_mret. rewrite run_throw. cbn. lia. }
  rewrite run_bind.
  assert (Hlock : exists b q ev,
    (if lock then lockRequest rt (mret tt) uri else mret false) p
    = {| settled := Fulfilled b; after := q; effects := ev |}
    /\ settings q = settings p /\ invocations ev = 0%nat).
  { destruct lock.
    - destruct (lockRequest_invocations uri p) as (H1 & H2 & b & H3).
      destruct (lockRequest rt (mret tt) uri p) as [s q ev]. cbn in *. subst s. eauto 10.
    - rewrite run_mret. eauto 10. }
  destruct Hlock as (b & q & ev & -> & Hq & Hev).
  cbn [settled after effects prepend]. destruct b.
  - run_with run_gets. rewrite run_throw. cbn [effects prepend].
    rewrite !invocations_app, Hev. cbn. lia.
  - run_with run_gets. rewrite run_bind.
    assert (Hcall := callRequest_invocations uri args
                       (Z.to_nat (callAttempts (settings q))) 0 q).
    replace (if lock then mret tt else mret tt) with (mret tt : Async unit)
      by (destruct lock; reflexivity).
    rewrite Hq, Z.sub_0_r in *.
    destruct (settled (callRequest _ _ _ _ _ _ _)); cbn [settled after effects prepend].
    + run_with unlockRequest_run. rewrite run_mret. cbn [effects].
      rewrite !invocations_app, Hev.
      replace (invocations (if bool_decide _ then _ else _)) with 0%nat
        by (destruct (bool_decide _); reflexivity).
      cbn. lia.
    + rewrite !invocations_app, Hev. cbn. lia.
    + rewrite !invocations_app, Hev. cbn. lia.
Qed.


Lemma callRequest_recovers (uri : string) (args : list Arg) (v : JSONObject) :
  forall (k fuel : nat) (cur : Z) (p : Provider),
    (k <= fuel)%nat ->
    cur + Z.of_nat k <= callAttempts (settings p) ->
    (forall j, (j < k)%nat ->
               fails_retryably rt (connection_call rt (calls (dispatch p) + j)%nat uri args)
               = true) ->
    connection_call rt (calls (dispatch p) + k)%nat uri args = Resolved v ->
    let r := callRequest rt fuel (mret tt) uri args cur p in
    settled r = Fulfilled v
    /\ invocations (effects r) = S k
    /\ waits (effects r) = replicate k (delayCallAttempts (settings p))
    /\ same_but_dispatch p (after r).
Proof.
  induction k as [|k IH]; intros fuel cur p Hfuel Hcur Hfail Hv r; subst r.
  - rewrite Nat.add_0_r in Hv.
    rewrite (callRequest_resolved rt fuel uri args cur p v Hv). cbn [settled after effects].
    repeat split.
  - destruct fuel as [|fuel]; [lia|].
    assert (Hf0 := Hfail 0%nat ltac:(lia)). rewrite Nat.add_0_r in Hf0.
    unfold fails_retryably in Hf0.
    destruct (caught (connection_call rt (calls (dispatch p)) uri args)) as [err|] eqn:Herr;
      [|discriminate].
    rewrite (callRequest_failed rt (S fuel) uri args cur p err Herr). cbv zeta.
    rewrite (callRequest_catch_retry rt _ uri cur err (called p) Hf0).
    2:{ change (settings (called p)) with (settings p). rewrite Z.geb_leb. apply Z.leb_gt. lia. }
    cbv zeta. change (settings (called p)) with (settings p).
    set (q := delayed rt (called p) (delayCallAttempts (settings p))).
    destruct (IH fuel (cur + 1) q) as (E1 & E2 & E3 & E4).
    + lia.
    + change (settings q) with (settings p). lia.
    + intros j Hj. change (calls (dispatch q)) with (S (calls (dispatch p))).
      replace (S (calls (dispatch p)) + j)%nat with (calls (dispatch p) + S j)%nat by lia.
      apply Hfail. lia.
    + change (calls (dispatch q)) with (S (calls (dispatch p))).
      replace (S (calls (dispatch p)) + k)%nat with (calls (dispatch p) + S k)%nat by lia.
      exact Hv.
    + cbn [prepend settled after effects app]. rewrite E1. split; [reflexivity|].
      split.
      { change (invocations (ConnectionCall uri args :: Timer ?ms :: ?l))
          with (S (invocations l)). rewrite E2. reflexivity. }
      split.
      { change (waits (ConnectionCall uri args :: Timer ?ms :: ?l)) with (ms :: waits l).
        rewrite E3. reflexivity. }
      eapply same_but_dispatch_trans; [|exact E4].
      eapply same_but_dispatch_trans; apply same_but_dispatch_with.
Qed.

(** X2.  A call whose first [k] invocations fail with errors that the
    dispatcher retries and whose next invocation resolves, with [k] within
    the attempt budget: the call resolves with that value after exactly
    [k + 1] invocations, having waited [delayCallAttempts] between them each
    time; the lock on the request is released and nothing but the
    bookkeeping of the dispatcher has changed. *)
Theorem makeCall_recovers (uri : string) (args : list Arg) (p : Provider) (k : nat)
    (v : JSONObject) :
  isAvailable p = true ->
  uri ∉ currentRequestList (dispatch p) ->
  Z.of_nat k <= callAttempts (settings p) ->
  (forall j, (j < k)%nat ->
             fails_retryably rt (connection_call rt (calls (dispatch p) + j)%nat uri args)
             = true) ->
  connection_call rt (calls (dispatch p) + k)%nat uri args = Resolved v ->
  let r := makeCall rt uri args true p in
  settled r = Fulfilled v
  /\ invocations (effects r) = S k
  /\ waits (effects r) = replicate k (delayCallAttempts (settings p))
  /\ (uri ∉ currentRequestList (dispatch (after r)))
  /\ same_but_dispatch p (after r).
Proof.
  intros Hav Hfree Hk Hfail Hv r. subst r.
  unfold makeCall, makeCallFrom.
  run_with run_gets. rewrite Hav. cbn [negb].
  run_with (lockRequest_free rt _ _ Hfree).
  run_with run_gets.
  destruct (callRequest_recovers uri args v k (Z.to_nat (callAttempts (settings p))) 0
              (locked uri p)) as (E1 & E2 & E3 & E4).
  { lia. } { change (settings (locked uri p)) with (settings p). lia. }
  { exact Hfail. } { exact Hv. }
  change (settings (locked uri p)) with (settings p) in *.
  rewrite run_bind, E1. cbn [settled after effects prepend].
  run_with unlockRequest_run. rewrite run_mret. cbn [settled after effects prepend].
  split; [reflexivity|]. split.
  { rewrite !app_nil_l, !invocations_app, E2.
    replace (invocations (if bool_decide _ then _ else _)) with 0%nat
      by (destruct (bool_decide _); reflexivity).
    cbn. lia. }
  split.
  { rewrite !app_nil_l, !waits_app, E3.
    replace (waits (if bool_decide _ then _ else _)) with ([] : list Z)
      by (destruct (bool_decide _); reflexivity).
    cbn. rewrite !app_nil_r. reflexivity. }
  split.
  { unfold unlocked, with_dispatch, set_currentRequestList.
    cbn [dispatch currentRequestList].
    rewrite elem_of_difference, elem_of_singleton. intros [_ H]. exact (H eq_refl). }
  eapply same_but_dispatch_trans; [|apply same_but_dispatch_with].
  eapply same_but_dispatch_trans; [|exact E4]. apply same_but_dispatch_with.
Qed.


Lemma includes_append (sub pre s : string) :
  JsString.includes sub s = true -> JsString.includes sub (pre +:+ s) = true.
Proof.
  intros H. induction pre as [|c pre IH]; [exact H|].
  change (JsString.includes sub (String c pre +:+ s))
    with (String.prefix sub (String c (pre +:+ s)) || JsString.includes sub (pre +:+ s)).
  rewrite IH. apply orb_true_r.
Qed.

(** X3.  A rejection of the transport call whose payload contains a brace
    is not told from a runtime error report: the [catch] block hands
    ['Error: ' + payload] to [JSON.parse], which throws.  The call is
    rejected with the [SyntaxError] after one invocation, and the lock on
    the request is not released. *)
Theorem makeCall_keeps_lock_on_braces (uri : string) (args : list Arg) (p : Provider)
    (reason : string) :
  isAvailable p = true ->
  uri ∉ currentRequestList (dispatch p) ->
  connection_call rt (calls (dispatch p)) uri args = Rejected reason ->
  JsString.includes "{" reason = true ->
  let r := makeCall rt uri args true p in
  settled r = RejectedWith (ExnError "SyntaxError"
                              (SyntaxError_message rt ("Error: " +:+ reason)))
  /\ invocations (effects r) = 1%nat
  /\ uri ∈ currentRequestList (dispatch (after r)).
Proof.
  intros Hav Hfree Hcall Hbrace r. subst r.
  assert (Htext : to_text (Error reason) = "Error: " +:+ reason).
  { destruct reason; [discriminate Hbrace | reflexivity]. }
  assert (Hnot : retried rt (Error reason) = false).
  { unfold retried. rewrite Htext, (includes_append "{" "Error: " reason Hbrace).
    reflexivity. }
  unfold makeCall, makeCallFrom.
  run_with run_gets. rewrite Hav. cbn [negb].
  run_with (lockRequest_free rt _ _ Hfree).
  run_with run_gets. rewrite run_bind.
  rewrite (callRequest_failed rt _ uri args 0 (locked uri p) (Error reason))
    by (simpl; rewrite Hcall; reflexivity).
  cbv zeta.
  rewrite (callRequest_catch_terminal_run rt _ uri 0 (Error reason) (called (locked uri p))
             Hnot).
  rewrite Htext, (includes_append "{" "Error: " reason Hbrace).
  change (JSON_parse rt ("Error: " +:+ reason)) with (@None (option string)).
  cbn [settled after effects prepend]. split; [reflexivity|]. split; [reflexivity|].
  unfold called, locked, with_dispatch, set_currentRequestList.
  cbn [dispatch currentRequestList].
  rewrite elem_of_union, elem_of_singleton. left. reflexivity.
Qed.


Lemma lockRequest_released (uri : string) (p : Provider) :
  uri ∈ currentRequestList (dispatch p) ->
  uri ∉ while_delayed rt (delays (dispatch p)) 1000 (currentRequestList (dispatch p)) ->
  lockRequest rt (mret tt) uri p =
  {| settled := Fulfilled false; after := locked uri (delayed rt p 1000);
     effects := [Timer 1000; EVENT_PROVIDER_ACTIVITY true uri] |}.
Proof.
  intros H1 H2. unfold lockRequest, delay, has_request. unfold_async. simpl.
  rewrite (bool_decide_eq_true_2 _ H1). simpl.
  rewrite (bool_decide_eq_false_2 _ H2). reflexivity.
Qed.

(** X4.  An exclusive call issued while a call with the same name is in
    flight, when that call ends during the wait of one second: the caller
    takes the lock after the wait and makes its own call; with a transport
    call that resolves, so does the call, after one invocation, and the lock
    is released again. *)
Theorem makeCall_proceeds_after_wait (uri : string) (args : list Arg) (p : Provider)
    (v : JSONObject) :
  isAvailable p = true ->
  uri ∈ currentRequestList (dispatch p) ->
  uri ∉ while_delayed rt (delays (dispatch p)) 1000 (currentRequestList (dispatch p)) ->
  connection_call rt (calls (dispatch p)) uri args = Resolved v ->
  let r := makeCall rt uri args true p in
  settled r = Fulfilled v
  /\ (exists rest, effects r = Timer 1000 :: EVENT_PROVIDER_ACTIVITY true uri
                               :: ConnectionCall uri args :: rest
                   /\ invocations rest = 0%nat /\ waits rest = [])
  /\ (uri ∉ currentRequestList (dispatch (after r))).
Proof.
  intros Hav Hheld Hfree Hv r. subst r.
  unfold makeCall, makeCallFrom.
  run_with run_gets. rewrite Hav. cbn [negb].
  run_with (lockRequest_released uri p Hheld Hfree).
  run_with run_gets.
  run_with (callRequest_resolved rt
              (Z.to_nat (callAttempts (settings (locked uri (delayed rt p 1000)))))
              uri args 0 (locked uri (delayed rt p 1000)) v Hv).
  run_with unlockRequest_run. rewrite run_mret. cbn [settled after effects prepend app].
  split; [reflexivity|]. split.
  - eexists. split; [reflexivity|].
    rewrite !app_nil_r. destruct (bool_decide _); split; reflexivity.
  - unfold unlocked, with_dispatch, set_currentRequestList.
    cbn [dispatch currentRequestList].
    rewrite elem_of_difference, elem_of_singleton. intros [_ H]. exact (H eq_refl).
Qed.

(** X5.  A call through the dispatcher, however it ends, changes nothing of
    the session but the bookkeeping of the dispatcher: the settings, the
    connection state and the flags, the node list, the launch files, the
    peers, the echo topics and every diagnostic history are as before. *)
Theorem makeCall_keeps_model (uri : string) (args : list Arg) (lock : bool) (p : Provider) :
  let q := after (makeCall rt uri args lock p) in
  settings q = settings p
  /\ link q = link p
  /\ rosNodes (model q) = rosNodes (model p)
  /\ launchFiles (model q) = launchFiles (model p)
  /\ remoteProviders (model q) = remoteProviders (model p)
  /\ echoTopics (model q) = echoTopics (model p)
  /\ (forall r, history q r = history p r).
Proof.
  intros q. subst q.
  destruct (makeCall_frame rt uri args lock p) as (Hs & Hl & Hm & Hst).
  rewrite Hs, Hl, Hm. repeat split.
  intros r. unfold history. rewrite Hst. reflexivity.
Qed.

End DispatcherBounds.

(** A call with the state that the session holds returns at the guard. *)
Lemma setConnectionState_guard (state : ConnectionState) (details : string) (p : Provider) :
  connectionState (link p) = state ->
  setConnectionState state details p
  = {| settled := Fulfilled tt; after := p; effects := [] |}.
Proof.
  intros H. unfold setConnectionState. run_with run_gets.
  rewrite bool_decide_eq_true_2 by exact H. apply run_mret.
Qed.

(** The provider and the effects of a call that changes the state. *)
Lemma setConnectionState_changes (state : ConnectionState) (details : string) (p : Provider) :
  connectionState (link p) <> state ->
  let q := with_link (set_state state details) p in
  exists ev,
    setConnectionState state details p
    = {| settled := Fulfilled tt;
         after := if bool_decide (state = CROSSBAR_REGISTERED) then daemon_requested q else q;
         effects := EVENT_PROVIDER_STATE state (connectionState (link p)) details :: ev |}
    /\ state_events ev = [].
Proof.
  intros Hne q. unfold setConnectionState. run_with run_gets.
  rewrite bool_decide_eq_false_2 by exact Hne.
  run_with run_modify. run_with run_perform. fold q.
  destruct (bool_decide (state = CONNECTING) && _) eqn:H1.
  { apply andb_prop in H1 as [H1 _]. apply bool_decide_eq_true_1 in H1. subst state.
    rewrite run_perform. eexists. split; reflexivity. }
  destruct (bool_decide (state = CROSSBAR_CONNECTED)) eqn:H2.
  { apply bool_decide_eq_true_1 in H2. subst state.
    rewrite run_perform. eexists. split; reflexivity. }
  destruct (bool_decide (state = CROSSBAR_REGISTERED)).
  - rewrite updateDaemonInit_run. cbn [settled after effects prepend app].
    eexists. split; [reflexivity|].
    destruct (negb _); [reflexivity|]. destruct (has_request _ _); reflexivity.
  - rewrite run_mret. eexists. split; reflexivity.
Qed.

Lemma setConnectionState_state (state : ConnectionState) (details : string) (p : Provider) :
  let q := after (setConnectionState state details p) in
  connectionState (link q) = state
  /\ (connectionState (link p) <> state -> errorDetails (link q) = details)
  /\ daemon (link q) = daemon (link p)
  /\ discovery (link q) = discovery (link p).
Proof.
  intros q. subst q.
  destruct (decide (connectionState (link p) = state)) as [Hs|Hs].
  - rewrite (setConnectionState_guard state details p Hs). cbn [after].
    repeat split; [exact Hs | intros H; contradiction].
  - destruct (setConnectionState_changes state details p Hs) as (ev & -> & _).
    cbn [after]. unfold daemon_requested.
    repeat match goal with
           | |- context [if ?b then _ else _] => destruct b
           end; repeat split.
Qed.

(** X6.  [setConnectionState] always leaves the session in the requested
    state; it emits one state event, carrying the new state, the old state
    and the details, when the state changes and none otherwise; a second
    call with the same state does nothing.  It keeps the settings, the
    model, the store and the daemon and discovery flags, and the
    bookkeeping of the dispatcher but for one case: on entering
    CROSSBAR_REGISTERED with a connection, [updateDaemonInit], which is
    started there, locks the request of the daemon version before it first
    suspends. *)
Theorem setConnectionState_reaches_state (state : ConnectionState) (details : string)
    (p : Provider) :
  let r := setConnectionState state details p in
  connectionState (link (after r)) = state
  /\ state_events (effects r)
     = (if bool_decide (connectionState (link p) = state) then []
        else [(state, connectionState (link p), details)])
  /\ setConnectionState state details (after r)
     = {| settled := Fulfilled tt; after := after r; effects := [] |}
  /\ settings (after r) = settings p
  /\ model (after r) = model p /\ store (after r) = store p
  /\ daemon (link (after r)) = daemon (link p)
  /\ discovery (link (after r)) = discovery (link p)
  /\ currentRequestList (dispatch (after r))
     = (if bool_decide (state = CROSSBAR_REGISTERED)
           && negb (bool_decide (connectionState (link p) = state))
           && isAvailable p
        then {[URI.ROS_DAEMON_VERSION]} ∪ currentRequestList (dispatch p)
        else currentRequestList (dispatch p))
  /\ calls (dispatch (after r)) = calls (dispatch p)
  /\ delays (dispatch (after r)) = delays (dispatch p).
Proof.
  intros r. subst r.
  destruct (setConnectionState_state state details p) as (Hstate & _ & Hdaemon & Hdisc).
  destruct (setConnectionState_frame state details p) as (_ & Hs & _ & Hm & Hst & _).
  split; [exact Hstate|].
  assert (Hagain : setConnectionState state details (after (setConnectionState state details p))
                   = {| settled := Fulfilled tt;
                        after := after (setConnectionState state details p);
                        effects := [] |}).
  { apply setConnectionState_guard. exact Hstate. }
  destruct (decide (connectionState (link p) = state)) as [Heq|Hne].
  - rewrite (bool_decide_eq_true_2 _ Heq), andb_false_r. cbn [negb andb].
    rewrite (setConnectionState_guard state details p Heq) in *. cbn [after effects] in *.
    repeat split; assumption.
  - rewrite (bool_decide_eq_false_2 _ Hne), andb_true_r. cbn [negb].
    destruct (setConnectionState_changes state details p Hne) as (ev & Hrun & Hev).
    rewrite Hrun in *. cbn [after effects] in *.
    split.
    { change (state_events (EVENT_PROVIDER_STATE ?a ?b ?c :: ?l))
        with ((a, b, c) :: state_events l). rewrite Hev. reflexivity. }
    split; [exact Hagain|].
    split; [exact Hs|]. split; [exact Hm|]. split; [exact Hst|].
    split; [exact Hdaemon|]. split; [exact Hdisc|].
    destruct (bool_decide (state = CROSSBAR_REGISTERED)); cbn [andb];
      [|repeat split].
    unfold daemon_requested.
    change (isAvailable (with_link (set_state state details) p)) with (isAvailable p).
    change (has_request URI.ROS_DAEMON_VERSION (with_link (set_state state details) p))
      with (has_request URI.ROS_DAEMON_VERSION p).
    destruct (isAvailable p); cbn [andb]; [|repeat split].
    destruct (has_request URI.ROS_DAEMON_VERSION p) eqn:Hhas; cbn [negb];
      [|repeat split].
    split; [|split; reflexivity].
    apply bool_decide_eq_true_1 in Hhas.
    cbn [dispatch with_link currentRequestList].
    symmetry. apply subseteq_union_1_L. apply singleton_subseteq_l. exact Hhas.
Qed.

Section ConnectionHandlers.

Variable rt : Runtime.

(** X7.  When the connection closes, every lock of the dispatcher is
    dropped, also one that a failed call has left behind: no request is
    active afterwards, the session is in the reported state, the run ends
    with the event that tells the activity is over, and a later
    [lockRequest] takes its lock without waiting. *)
Theorem onCloseConnection_drops_locks (state : ConnectionState) (details : string)
    (p : Provider) :
  let r := onCloseConnection state details p in
  hasActiveRequests (after r) = false
  /\ connectionState (link (after r)) = state
  /\ last (effects r) = Some (EVENT_PROVIDER_ACTIVITY false "")
  /\ (forall request,
        lockRequest rt (mret tt) request (after r)
        = {| settled := Fulfilled false; after := locked request (after r);
             effects := [EVENT_PROVIDER_ACTIVITY true request] |}).
Proof.
  intros r. subst r. unfold onCloseConnection.
  destruct (setConnectionState_frame state details p) as (Hf & _).
  destruct (setConnectionState_state state details p) as (Hstate & _).
  rewrite run_bind, Hf. cbn [settled after effects prepend].
  run_with run_modify. rewrite run_perform. cbn [settled after effects prepend].
  split; [reflexivity|]. split; [exact Hstate|]. split.
  { rewrite last_app. reflexivity. }
  intros request. apply lockRequest_free.
  cbn [dispatch with_dispatch set_currentRequestList currentRequestList].
  apply not_elem_of_empty.
Qed.

End ConnectionHandlers.

(** X8.  When the connection opens, the session is marked not ready and
    enters CROSSBAR_CONNECTED; the state event is emitted and the
    registration of the callbacks started exactly when the session was in
    another state before. *)
Theorem onOpenConnection_not_ready (p : Provider) :
  let r := onOpenConnection p in
  isReady (after r) = false
  /\ connectionState (link (after r)) = CROSSBAR_CONNECTED
  /\ effects r
     = (if bool_decide (connectionState (link p) = CROSSBAR_CONNECTED) then []
        else [EVENT_PROVIDER_STATE CROSSBAR_CONNECTED (connectionState (link p)) "";
              Start RegisterCallbacks]).
Proof.
  intros r. subst r. unfold onOpenConnection, isReady.
  run_with run_modify. run_with run_modify.
  unfold setConnectionState. run_with run_gets.
  cbn [link with_link set_discovery set_daemon connectionState].
  destruct (bool_decide (connectionState (link p) = CROSSBAR_CONNECTED)) eqn:Hs.
  - rewrite run_mret. cbn. apply bool_decide_eq_true_1 in Hs. auto.
  - run_primitives. cbn. auto.
Qed.

Lemma shr_1_nonneg (r : shr_record) : (0 <= shr_m r -> 0 <= shr_m (shr_1 r))%Z.
Proof. destruct r as [[|[p|p|]|p] r s]; cbn; lia. Qed.

Lemma iter_shr_1_nonneg (n : positive) :
  forall r, (0 <= shr_m r -> 0 <= shr_m (SpecFloat.iter_pos shr_1 n r))%Z.
Proof.
  induction n as [n IH|n IH|]; intros r Hr; cbn [SpecFloat.iter_pos].
  - apply IH, IH, shr_1_nonneg, Hr.
  - apply IH, IH, Hr.
  - apply shr_1_nonneg, Hr.
Qed.

Lemma shr_fexp_nonneg (m e : Z) (l : SpecFloat.location) :
  (0 <= m -> 0 <= shr_m (fst (shr_fexp prec emax m e l)))%Z.
Proof.
  intros Hm. unfold shr_fexp, shr.
  assert (Hr : (0 <= shr_m (shr_record_of_loc m l))%Z)
    by (destruct l as [|[]]; exact Hm).
  destruct (fexp prec emax (Zdigits2 m + e) - e)%Z; cbn [fst]; try exact Hr.
  apply iter_shr_1_nonneg, Hr.
Qed.

Lemma round_nearest_even_nonneg (m : Z) (l : SpecFloat.location) :
  (0 <= m -> 0 <= round_nearest_even m l)%Z.
Proof.
  intros Hm. destruct l as [|[]]; cbn [round_nearest_even]; try lia.
  destruct (Z.even m); lia.
Qed.

(** Rounding a non-negative mantissa gives a number, with the sign asked
    for. *)
Lemma binary_round_aux_sign (s : bool) (m e : Z) (l : SpecFloat.location) :
  (0 <= m)%Z -> SFsign (binary_round_aux prec emax s m e l) = Some s.
Proof.
  intros Hm. unfold binary_round_aux.
  assert (H1 := shr_fexp_nonneg m e l Hm).
  destruct (shr_fexp prec emax m e l) as [mrs' e']. cbn [fst] in H1.
  assert (H2 := shr_fexp_nonneg _ e' loc_Exact
                  (round_nearest_even_nonneg _ (loc_of_shr_record mrs') H1)).
  destruct (shr_fexp prec emax _ e' loc_Exact) as [mrs'' e'']. cbn [fst] in H2.
  destruct (shr_m mrs'') as [|q|q]; [reflexivity| |lia].
  destruct (e'' <=? emax - prec)%Z; reflexivity.
Qed.

Lemma SFdiv_core_binary_nonneg (mx my : positive) (ex ey : Z) :
  (0 <= fst (fst (SFdiv_core_binary prec emax (Z.pos mx) ex (Z.pos my) ey)))%Z.
Proof.
  unfold SFdiv_core_binary. cbv zeta.
  match goal with
  | |- context [Z.div_eucl ?a ?b] =>
      assert (Ha : (0 <= a)%Z);
      [| assert (Hq := Z.div_pos a b Ha ltac:(lia));
         unfold Z.div in Hq; destruct (Z.div_eucl a b) as [q r]; exact Hq ]
  end.
  destruct (ex - ey - _)%Z; try lia. apply Z.shiftl_nonneg. lia.
Qed.

Lemma SF64div_sign (x : spec_float) (m : positive) (e : Z) :
  SFsign (SF64div x (S754_finite false m e)) = SFsign x.
Proof.
  unfold SF64div. destruct x as [s|s| |s mx ex]; cbn [SFdiv SFsign];
    rewrite ?xorb_false_r; try reflexivity.
  assert (H := SFdiv_core_binary_nonneg mx m ex e).
  destruct (SFdiv_core_binary prec emax (Z.pos mx) ex (Z.pos m) e) as [[mz ez] lz].
  apply binary_round_aux_sign, H.
Qed.

Lemma sign_bit_half (x : float) : sign_bit (x / 2) = sign_bit x.
Proof.
  unfold sign_bit. rewrite div_spec.
  change (Prim2SF 2) with (S754_finite false 4503599627370496 (-51)).
  exact (SF64div_sign (Prim2SF x) _ _).
Qed.

Lemma sign_bit_abs (x : float) :
  sign_bit (PrimFloat.abs x)
  = match sign_bit x with Some _ => Some false | None => None end.
Proof. unfold sign_bit. rewrite abs_spec. destruct (Prim2SF x); reflexivity. Qed.

Lemma sign_bit_opp (x : float) : sign_bit (- x) = negb <$> sign_bit x.
Proof. unfold sign_bit. rewrite opp_spec. destruct (Prim2SF x); reflexivity. Qed.

Lemma float_abs_opp (x : float) : PrimFloat.abs (- x) = PrimFloat.abs x.
Proof.
  apply Prim2SF_inj. rewrite !abs_spec, opp_spec.
  destruct (Prim2SF x); reflexivity.
Qed.

Lemma float_abs_unsigned (x : float) :
  sign_bit x <> Some true -> PrimFloat.abs x = x.
Proof.
  unfold sign_bit. intros H. apply Prim2SF_inj. rewrite abs_spec.
  destruct (Prim2SF x) as [[]|[]| |[] ? ?]; try reflexivity; now destruct H.
Qed.

(** X9.  The estimate of [calcTimeDiff] is NaN exactly when the rounded sum
    [|Tr - T0| + |T1 - Tr| - (T1 - T0)] is; otherwise its sign bit is set
    exactly when [Tr - T0 < 0], whatever the sign of that sum: the estimate
    is never above zero when the remote time stamp is before the start, and
    never below zero otherwise.  Its absolute value is half the absolute
    value of the sum. *)
Theorem calcTimeDiff_sign (T0 T1 Tr : float) :
  let sum :=
    (PrimFloat.abs (Tr - T0) + PrimFloat.abs (T1 - Tr) - (T1 - T0))%float in
  sign_bit (calcTimeDiff T0 T1 Tr)
  = match sign_bit sum with
    | Some _ => Some (Tr - T0 <? 0)%float
    | None => None
    end
  /\ PrimFloat.abs (calcTimeDiff T0 T1 Tr) = (PrimFloat.abs sum / 2)%float.
Proof.
  cbv zeta. unfold calcTimeDiff. cbv zeta.
  set (sum := (PrimFloat.abs (Tr - T0) + PrimFloat.abs (T1 - Tr) - (T1 - T0))%float).
  assert (Hs : sign_bit (PrimFloat.abs sum / 2)
               = match sign_bit sum with Some _ => Some false | None => None end).
  { now rewrite sign_bit_half, sign_bit_abs. }
  assert (Ha : PrimFloat.abs (PrimFloat.abs sum / 2) = (PrimFloat.abs sum / 2)%float).
  { apply float_abs_unsigned. rewrite Hs. destruct (sign_bit sum); discriminate. }
  destruct (Tr - T0 <? 0)%float.
  - rewrite float_mul_m1, sign_bit_opp, float_abs_opp, Hs. split; [|exact Ha].
    destruct (sign_bit sum); reflexivity.
  - split; [exact Hs|exact Ha].
Qed.

(** X10.  [getMaxDiagnosticLevel] is the maximum of the two levels in the
    order OK < STALE < WARN < ERROR (not in the order of their numbers, in
    which STALE is the greatest); so it is commutative, associative and
    idempotent, with OK as its neutral element. *)
Theorem getMaxDiagnosticLevel_severity :
  (forall a b, severity (getMaxDiagnosticLevel a b) = Nat.max (severity a) (severity b))
  /\ (forall a b, getMaxDiagnosticLevel a b = getMaxDiagnosticLevel b a)
  /\ (forall a b c,
        getMaxDiagnosticLevel a (getMaxDiagnosticLevel b c)
        = getMaxDiagnosticLevel (getMaxDiagnosticLevel a b) c)
  /\ (forall a, getMaxDiagnosticLevel a a = a)
  /\ (forall a, getMaxDiagnosticLevel OK a = a).
Proof.
  repeat split.
  - intros [] []; reflexivity.
  - intros [] []; reflexivity.
  - intros [] [] []; reflexivity.
  - intros []; reflexivity.
  - intros []; reflexivity.
Qed.

Lemma replaceAll_replaceAll (c d : ascii) (s : string) :
  c <> d ->
  JsString.replaceAll c d (JsString.replaceAll c d s) = JsString.replaceAll c d s.
Proof.
  intros Hne. induction s as [|a s IH]; [reflexivity|].
  cbn [JsString.replaceAll]. rewrite IH. f_equal.
  destruct (Ascii.eqb a c) eqn:Ha; [|rewrite Ha; reflexivity].
  destruct (Ascii.eqb d c) eqn:Hd; [|reflexivity].
  apply Ascii.eqb_eq in Hd. congruence.
Qed.

(** X11.  The crossbar topic of an echo subscription does not tell a slash
    from an underscore: a topic and the topic with its slashes replaced by
    underscores have the same crossbar topic, so the subscriptions of two
    such topics are one. *)
Theorem generateCrossbarTopic_collides (topic : string) :
  generateCrossbarTopic (JsString.replaceAll "/" "_" topic) = generateCrossbarTopic topic.
Proof.
  unfold generateCrossbarTopic. rewrite replaceAll_replaceAll by discriminate. reflexivity.
Qed.

Lemma filter_other_not_elem (x : string) (l : list string) :
  x ∉ l -> filter (fun e => e ≠ x) l = l.
Proof.
  induction l as [|e l IH]; intros Hb; [reflexivity|].
  apply not_elem_of_cons in Hb. destruct Hb as [Hne Hl].
  rewrite filter_cons. destruct (decide (e ≠ x)) as [_|Hk].
  - rewrite (IH Hl). reflexivity.
  - exfalso. apply Hk. congruence.
Qed.

Section SubscriberRoundTrip.

Variable rt : Runtime.

Lemma model_makeCall (uri : string) (args : list Arg) (lock : bool) (p : Provider) :
  model (after (makeCall rt uri args lock p)) = model p.
Proof. apply (makeCall_frame rt). Qed.

Lemma stopSubscriber_topics (topic_ : string) (p : Provider) :
  echoTopics (model (after (stopSubscriber rt topic_ p)))
  = filter (fun e => e ≠ topic_) (echoTopics (model p)).
Proof.
  unfold stopSubscriber. run_with run_gets.
  destruct (bool_decide (topic_ ∈ echoTopics (model p))) eqn:Hb.
  - run_primitives. rewrite run_catch. run_primitives.
    destruct (settled (makeCall _ _ _ _ _)); run_primitives; rewrite ?model_makeCall;
      reflexivity.
  - apply bool_decide_eq_false_1 in Hb.
    run_primitives. rewrite run_catch. run_primitives.
    rewrite (filter_other_not_elem _ _ Hb).
    destruct (settled (makeCall _ _ _ _ _)); run_primitives; rewrite ?model_makeCall;
      reflexivity.
Qed.

(** X12.  [stopSubscriber] never rejects: it resolves with an empty
    message, also when the remote call has failed.  Afterwards the topic is
    not marked as started, and the marks of the other topics are as
    before, in their order. *)
Theorem stopSubscriber_resolves (topic_ : string) (p : Provider) :
  let r := stopSubscriber rt topic_ p in
  (exists v, settled r = Fulfilled {| result := v; result_message := "" |})
  /\ echoTopics (model (after r)) = filter (fun e => e ≠ topic_) (echoTopics (model p))
  /\ (topic_ ∉ echoTopics (model (after r))).
Proof.
  intros r. subst r. split; [|split].
  - unfold stopSubscriber.
    assert (Hsettles := makeCall_settles rt URI.ROS_SUBSCRIBER_STOP [ArgString topic_] true).
    run_with run_gets.
    destruct (bool_decide (topic_ ∈ echoTopics (model p))).
    + run_primitives. rewrite run_catch. run_primitives.
      match goal with |- context [makeCall rt ?u ?a ?l ?q] =>
        specialize (Hsettles q); destruct (settled (makeCall rt u a l q)) end;
        run_primitives; [eauto | eauto | contradiction].
    + run_primitives. rewrite run_catch. run_primitives.
      match goal with |- context [makeCall rt ?u ?a ?l ?q] =>
        specialize (Hsettles q); destruct (settled (makeCall rt u a l q)) end;
        run_primitives; [eauto | eauto | contradiction].
  - apply stopSubscriber_topics.
  - rewrite stopSubscriber_topics. intros Hin.
    apply list_elem_of_filter in Hin. destruct Hin as [Hne _]. congruence.
Qed.

(** X13.  A start followed by a stop, for a topic that was not started
    before: the marks of the started topics are as they were before the
    start, whether the remote calls succeed or not. *)
Theorem startSubscriber_stopSubscriber (request : SubscriberNode) (p : Provider) :
  topic request ∉ echoTopics (model p) ->
  let r1 := startSubscriber rt request p in
  let r2 := stopSubscriber rt (topic request) (after r1) in
  echoTopics (model (after r2)) = echoTopics (model p).
Proof.
  intros Hnot r1 r2. subst r1 r2.
  rewrite stopSubscriber_topics.
  assert (Hstart : echoTopics (model (after (startSubscriber rt request p)))
                   = echoTopics (model p) ++ [topic request]).
  { rewrite startSubscriber_first by assumption. cbv zeta.
    destruct (settled _); cbn [after]; unfold subscribe_call; rewrite model_makeCall;
      reflexivity. }
  rewrite Hstart, filter_app, filter_cons, filter_nil.
  destruct (decide (topic request ≠ topic request)) as [Hk|_]; [congruence|].
  rewrite app_nil_r. apply filter_other_not_elem. exact Hnot.
Qed.

End SubscriberRoundTrip.

Lemma findIndex_insert {A} (g : A -> bool) (l : list A) (i : nat) (x y : A) :
  findIndex g l = Some (i, x) -> g y = true -> findIndex g (<[i := y]> l) = Some (i, y).
Proof.
  revert i. induction l as [|z l IH]; intros i H Hy; simpl in H; [discriminate|].
  destruct (g z) eqn:Hz.
  - inversion H; subst. simpl. rewrite Hy. reflexivity.
  - destruct (findIndex g l) as [[j w]|] eqn:Hl; [|discriminate].
    inversion H; subst. simpl. rewrite Hz, (IH j eq_refl Hy). reflexivity.
Qed.

Lemma not_is_news_last (l : list DiagnosticStatus) (status : DiagnosticStatus) :
  ~ is_news (l ++ [status]) status.
Proof.
  unfold is_news, differs. rewrite last_snoc. intros [H|[H|H]]; apply H; reflexivity.
Qed.

(** A status handled a second time by the loop body of [updateDiagnostics]
    changes nothing. *)
Lemma updateDiagnostics_status_again (status : DiagnosticStatus) (p : Provider) :
  let p1 := after (updateDiagnostics_status status p) in
  updateDiagnostics_status status p1
  = {| settled := Fulfilled tt; after := p1; effects := [] |}.
Proof.
  intros p1. subst p1.
  destruct (findIndex (fun node => bool_decide (id node = ds_name status))
              (rosNodes (model p))) as [[i n]|] eqn:Hfind.
  2:{ rewrite (updateDiagnostics_status_unmatched status p Hfind). cbn [after].
      apply updateDiagnostics_status_unmatched. exact Hfind. }
  destruct (findIndex_Some _ _ _ _ Hfind) as [Hi Hid].
  set (f := set_diagnostic (level status) (message status)).
  set (r := diagnosticStatus n).
  assert (Hfind1 : forall q, rosNodes (model q) = <[i := f n]> (rosNodes (model p)) ->
            findIndex (fun node => bool_decide (id node = ds_name status))
              (rosNodes (model q)) = Some (i, f n)).
  { intros q ->. apply (findIndex_insert _ _ _ n); [exact Hfind | exact Hid]. }
  assert (Hsame : forall q, rosNodes (model q) = <[i := f n]> (rosNodes (model p)) ->
            update_node i f q = with_model (set_rosNodes (rosNodes (model q))) q).
  { intros q Hq. rewrite (update_node_at i f q (f n)).
    - rewrite Hq, list_insert_insert_eq. reflexivity.
    - rewrite Hq. apply list_lookup_insert_eq. apply lookup_lt_Some in Hi. exact Hi. }
  destruct (updateDiagnostics_status_matched status p i n Hfind) as [Hnews Hold].
  destruct (decide (is_news (history p r) status)) as [Hn|Hn].
  - rewrite (Hnews Hn). cbn [after].
    set (p1 := push_status (diagnosticStatus n) status _).
    assert (Hq : rosNodes (model p1) = <[i := f n]> (rosNodes (model p))).
    { subst p1. rewrite (update_node_at i _ p n Hi). reflexivity. }
    destruct (updateDiagnostics_status_matched status p1 i (f n) (Hfind1 p1 Hq)) as [_ Hold1].
    rewrite Hold1.
    + fold f. rewrite (Hsame p1 Hq). subst p1. rewrite (update_node_at i _ p n Hi). reflexivity.
    + change (diagnosticStatus (f n)) with r. subst p1.
      rewrite history_push_status_eq. apply not_is_news_last.
  - rewrite (Hold Hn). cbn [after].
    set (p1 := update_node i _ p).
    assert (Hq : rosNodes (model p1) = <[i := f n]> (rosNodes (model p))).
    { subst p1. rewrite (update_node_at i _ p n Hi). reflexivity. }
    destruct (updateDiagnostics_status_matched status p1 i (f n) (Hfind1 p1 Hq)) as [_ Hold1].
    rewrite Hold1.
    + fold f. rewrite (Hsame p1 Hq). subst p1. rewrite (update_node_at i _ p n Hi). reflexivity.
    + change (diagnosticStatus (f n)) with r. exact Hn.
Qed.

(** X14.  A diagnostics message delivered a second time changes nothing:
    after [updateDiagnostics] with a message of one status, another
    [updateDiagnostics] with the same message resolves with [true] and
    leaves the node list and every history as they are. *)
Theorem updateDiagnostics_repeated (rt : Runtime) (ts : Z) (status : DiagnosticStatus)
    (p : Provider) :
  let msg := Some {| timestamp := ts; da_status := [status] |} in
  let r1 := updateDiagnostics rt msg p in
  updateDiagnostics rt msg (after r1)
  = {| settled := Fulfilled true; after := after r1; effects := [] |}.
Proof.
  intros msg r1. subst msg r1. rewrite !updateDiagnostics_single. cbn [after].
  rewrite (updateDiagnostics_status_again status p). reflexivity.
Qed.

Lemma Map_set_keys {V} (k : string) (v : V) (m : list (string * V)) :
  fst <$> Map_set k v m = if bool_decide (k ∈ fst <$> m) then fst <$> m else (fst <$> m) ++ [k].
Proof.
  induction m as [|[k' v'] m IH]; [reflexivity|].
  cbn [Map_set fmap list_fmap fst]. destruct (bool_decide (k' = k)) eqn:Hk.
  - apply bool_decide_eq_true_1 in Hk. subst k'.
    rewrite bool_decide_eq_true_2 by apply list_elem_of_here. reflexivity.
  - apply bool_decide_eq_false_1 in Hk. cbn [fmap list_fmap fst].
    change (list_fmap _ _ fst ?l) with (fst <$> l). rewrite IH.
    destruct (bool_decide (k ∈ fst <$> m)) eqn:Hin.
    + apply bool_decide_eq_true_1 in Hin.
      rewrite bool_decide_eq_true_2 by (apply list_elem_of_further; exact Hin). reflexivity.
    + apply bool_decide_eq_false_1 in Hin.
      rewrite bool_decide_eq_false_2; [reflexivity|].
      intros H. apply elem_of_cons in H. destruct H as [H|H]; [congruence|contradiction].
Qed.

Lemma Map_set_keyed_by_id (n : RosNode) (m : list (string * RosNode)) :
  keyed_by_id m -> keyed_by_id (Map_set (id n) n m).
Proof.
  intros [Hnd Hid]. split.
  - rewrite Map_set_keys. destruct (bool_decide _) eqn:Hin; [exact Hnd|].
    apply bool_decide_eq_false_1 in Hin.
    apply NoDup_app. split; [exact Hnd|]. split.
    + intros x Hx Hk. apply list_elem_of_singleton in Hk. subst x. contradiction.
    + apply NoDup_singleton.
  - clear Hnd. induction m as [|[k' v'] m IH]; cbn [Map_set].
    + constructor; [reflexivity|constructor].
    + inversion Hid; subst. destruct (bool_decide (k' = id n)).
      * constructor; [reflexivity|assumption].
      * constructor; [assumption|]. apply IH. assumption.
Qed.

Section NodeList.

Variable rt : Runtime.

Lemma Map_get_set {V} (k k' : string) (v : V) (m : list (string * V)) :
  Map_get k' (Map_set k v m) = if decide (k' = k) then Some v else Map_get k' m.
Proof.
  unfold Map_get. induction m as [|[k0 v0] m IH]; cbn [Map_set find fst].
  - destruct (decide (k' = k)) as [->|Hne].
    + rewrite bool_decide_eq_true_2 by reflexivity. reflexivity.
    + rewrite bool_decide_eq_false_2 by congruence. reflexivity.
  - destruct (bool_decide (k0 = k)) eqn:Hk0; cbn [find fst].
    + apply bool_decide_eq_true_1 in Hk0. subst k0.
      destruct (decide (k' = k)) as [->|Hne].
      * rewrite bool_decide_eq_true_2 by reflexivity. reflexivity.
      * rewrite !bool_decide_eq_false_2 by congruence. reflexivity.
    + apply bool_decide_eq_false_1 in Hk0.
      destruct (bool_decide (k0 = k')) eqn:Hk'.
      * apply bool_decide_eq_true_1 in Hk'. subst k0.
        rewrite decide_False by congruence. reflexivity.
      * exact IH.
Qed.

Lemma Map_get_elem_of {V} (k : string) (v : V) (m : list (string * V)) :
  NoDup (fst <$> m) -> (k, v) ∈ m -> Map_get k m = Some v.
Proof.
  unfold Map_get. induction m as [|[k0 v0] m IH]; intros Hnd Hin.
  - apply elem_of_nil in Hin. contradiction.
  - rewrite fmap_cons in Hnd. apply NoDup_cons in Hnd as [Hk0 Hnd]. cbn [find fst].
    apply elem_of_cons in Hin as [Heq|Hin].
    + inversion Heq; subst. rewrite bool_decide_eq_true_2 by reflexivity. reflexivity.
    + rewrite bool_decide_eq_false_2; [apply IH; assumption|].
      cbn [fst] in Hk0. intros ->. apply Hk0.
      apply (list_elem_of_fmap_2 fst) in Hin. exact Hin.
Qed.

Lemma dedupe_from_equiv : forall (l seen seen' : list string),
  (forall x, x ∈ seen <-> x ∈ seen') -> dedupe_from seen l = dedupe_from seen' l.
Proof.
  induction l as [|a l IH]; intros seen seen' H; [reflexivity|]. cbn [dedupe_from].
  rewrite (bool_decide_ext _ _ (H a)). destruct (bool_decide (a ∈ seen')).
  - apply IH, H.
  - f_equal. apply IH. intros x. rewrite !elem_of_cons, H. reflexivity.
Qed.

Lemma Map_of_nodes_keys : forall (nodes : list RosNode) (m : list (string * RosNode)),
  fst <$> Map_of_nodes m nodes = (fst <$> m) ++ dedupe_from (fst <$> m) (id <$> nodes).
Proof.
  induction nodes as [|n nodes IH]; intros m; cbn [Map_of_nodes fold_left].
  - rewrite app_nil_r. reflexivity.
  - fold (Map_of_nodes (Map_set (id n) n m) nodes). rewrite IH, Map_set_keys.
    rewrite fmap_cons. cbn [dedupe_from].
    destruct (bool_decide (id n ∈ fst <$> m)); [reflexivity|].
    rewrite <- app_assoc. cbn [app]. do 2 f_equal.
    apply dedupe_from_equiv. intros x.
    rewrite elem_of_app, list_elem_of_singleton, elem_of_cons. tauto.
Qed.

Lemma Map_of_nodes_get (k : string) : forall (nodes : list RosNode)
    (m : list (string * RosNode)),
  Map_get k (Map_of_nodes m nodes)
  = match last_with k nodes with Some n => Some n | None => Map_get k m end.
Proof.
  unfold last_with.
  induction nodes as [|n nodes IH]; intros m; cbn [Map_of_nodes fold_left]; [reflexivity|].
  fold (Map_of_nodes (Map_set (id n) n m) nodes). rewrite IH, Map_get_set, filter_cons.
  destruct (decide (id n = k)) as [Hn|Hn].
  - rewrite decide_True by congruence. rewrite last_cons.
    destruct (last (filter _ nodes)); reflexivity.
  - rewrite decide_False by congruence. reflexivity.
Qed.

Lemma Map_of_nodes_keyed : forall (nodes : list RosNode) (m : list (string * RosNode)),
  keyed_by_id m -> keyed_by_id (Map_of_nodes m nodes).
Proof.
  induction nodes as [|n nodes IH]; intros m Hm; [exact Hm|].
  cbn [Map_of_nodes fold_left]. apply IH, Map_set_keyed_by_id, Hm.
Qed.

Lemma getNodeList_nodes_made : forall (l : list IRosNode) (m : list (string * RosNode))
    (p : Provider),
  exists q,
    getNodeList_nodes m l p
    = {| settled := Fulfilled (Map_of_nodes m (nodes_made (allocated (store p)) l));
         after := q; effects := [] |}.
Proof.
  induction l as [|raw l IH]; intros m p; cbn [getNodeList_nodes nodes_made].
  - exists p. rewrite run_mret. reflexivity.
  - rewrite run_bind, getNodeList_node_run. cbn [settled after effects prepend].
    destruct (IH (Map_set (raw_id raw) (node_of_raw (allocated (store p)) raw) m)
                (alloc_node_after p)) as (q & Hrun).
    exists q. rewrite Hrun. reflexivity.
Qed.

Lemma id_nodes_made : forall (l : list IRosNode) (r : Ref),
  id <$> nodes_made r l = raw_id <$> l.
Proof.
  induction l as [|raw l IH]; intros r; [reflexivity|].
  cbn [nodes_made]. rewrite !fmap_cons, IH. reflexivity.
Qed.

Lemma getNodeList_resolved (p : Provider) (raws : list IRosNode) :
  settled (makeCall rt URI.ROS_NODES_GET_LIST [] true p) = Fulfilled (JNodeList raws) ->
  settled (getNodeList rt p)
  = Fulfilled (snd <$> Map_of_nodes [] (nodes_made (allocated (store p)) raws)).
Proof.
  intros Hs. unfold getNodeList. rewrite run_bind, run_catch, Hs.
  cbn [settled after effects prepend]. rewrite Hs. cbn [settled after effects prepend].
  destruct (makeCall_frame rt URI.ROS_NODES_GET_LIST [] true p) as (_ & _ & _ & Hst).
  destruct (getNodeList_nodes_made raws [] (after (makeCall rt URI.ROS_NODES_GET_LIST [] true p)))
    as (q & Hrun).
  rewrite run_bind, Hrun, Hst. cbn [settled after effects prepend].
  run_with run_modify. rewrite run_mret. reflexivity.
Qed.

(** X15.  [getNodeList] never rejects, and the nodes of the list it
    resolves with have pairwise distinct ids.  A failed call gives the
    empty list.  A call that resolves with a list of records gives one node
    for every id among the records, in the order in which the ids first
    occur, and the node of an id is the one made of the last record with
    that id: a later record replaces an earlier one with the same id. *)
Theorem getNodeList_distinct_ids (p : Provider) :
  (exists l, settled (getNodeList rt p) = Fulfilled l /\ NoDup (id <$> l))
  /\ (forall e, settled (makeCall rt URI.ROS_NODES_GET_LIST [] true p) = RejectedWith e ->
                settled (getNodeList rt p) = Fulfilled [])
  /\ (forall raws,
        settled (makeCall rt URI.ROS_NODES_GET_LIST [] true p) = Fulfilled (JNodeList raws) ->
        exists l, settled (getNodeList rt p) = Fulfilled l
          /\ NoDup (id <$> l)
          /\ id <$> l = dedupe (raw_id <$> raws)
          /\ Forall (fun n => last_with (id n) (nodes_made (allocated (store p)) raws) = Some n)
               l).
Proof.
  assert (Hids : forall m : list (string * RosNode),
             Forall (fun kv => id (snd kv) = fst kv) m -> id <$> (snd <$> m) = fst <$> m).
  { induction m as [|[k n] m IH]; intros Hid; [reflexivity|].
    inversion Hid; subst. cbn [fmap list_fmap fst snd] in *.
    f_equal; [assumption|]. apply IH. assumption. }
  assert (Hres : forall raws,
    settled (makeCall rt URI.ROS_NODES_GET_LIST [] true p) = Fulfilled (JNodeList raws) ->
    exists l, settled (getNodeList rt p) = Fulfilled l
      /\ NoDup (id <$> l)
      /\ id <$> l = dedupe (raw_id <$> raws)
      /\ Forall (fun n => last_with (id n) (nodes_made (allocated (store p)) raws) = Some n) l).
  { intros raws Hs. rewrite (getNodeList_resolved p raws Hs).
    set (nodes := nodes_made (allocated (store p)) raws).
    destruct (Map_of_nodes_keyed nodes [] (conj (NoDup_nil_2) (Forall_nil_2 _))) as [Hnd Hid].
    eexists. split; [reflexivity|]. split; [rewrite (Hids _ Hid); exact Hnd|]. split.
    - rewrite (Hids _ Hid), Map_of_nodes_keys. unfold nodes.
      rewrite id_nodes_made. reflexivity.
    - apply Forall_forall. intros n Hn.
      apply list_elem_of_fmap in Hn as ([k n'] & -> & Hin). cbn [snd].
      assert (Hk : id n' = k).
      { rewrite Forall_forall in Hid. exact (Hid _ Hin). }
      pose proof (Map_get_elem_of k n' _ Hnd Hin) as Hget.
      rewrite Map_of_nodes_get in Hget. rewrite Hk.
      destruct (last_with k nodes); [exact Hget | discriminate Hget]. }
  split; [|split; [|exact Hres]].
  - pose proof (makeCall_settles rt URI.ROS_NODES_GET_LIST [] true p) as Hsettles.
    destruct (settled (makeCall rt URI.ROS_NODES_GET_LIST [] true p)) as [v|e|] eqn:Hs;
      [| |contradiction].
    + destruct v as [s|pl|raws|ll|d]; [ | destruct pl | | destruct ll | ];
        try (unfold getNodeList; rewrite run_bind, run_catch, Hs;
             cbn [settled after effects prepend]; rewrite Hs;
             cbn [settled after effects prepend]; run_primitives;
             exists []; split; [reflexivity|constructor]).
      destruct (Hres raws eq_refl) as (nl & Hnl & Hnd & _). exists nl.
      split; [exact Hnl | exact Hnd].
    + unfold getNodeList. rewrite run_bind, run_catch, Hs.
      cbn [settled after effects prepend]. run_primitives.
      destruct (JsString.includes _ _); run_primitives; exists []; split;
        first [reflexivity|constructor].
  - intros e Hs. unfold getNodeList. rewrite run_bind, run_catch, Hs.
    cbn [settled after effects prepend]. run_primitives.
    destruct (JsString.includes _ _); run_primitives; reflexivity.
Qed.

End NodeList.

Lemma ignored_stays (nm : string) (l : list string) :
  fold_left (fun ignored ignoredNode =>
               if JsString.includes ignoredNode nm then true else ignored) l true = true.
Proof. induction l as [|x l IH]; [reflexivity|]. cbn [fold_left]. destruct (JsString.includes x nm); exact IH. Qed.

Lemma ignored_found (nm frag : string) (l : list string) (b : bool) :
  frag ∈ l -> JsString.includes frag nm = true ->
  fold_left (fun ignored ignoredNode =>
               if JsString.includes ignoredNode nm then true else ignored) l b = true.
Proof.
  revert b. induction l as [|x l IH]; intros b Hin Hinc.
  - apply elem_of_nil in Hin. contradiction.
  - cbn [fold_left]. apply elem_of_cons in Hin. destruct Hin as [->|Hin].
    + rewrite Hinc. apply ignored_stays.
    + apply IH; assumption.
Qed.

(** X16.  The filter of [updateRosNodes] drops every node whose name
    contains one of the entries of [IGNORED_NODES], whatever its master uri
    and location and whether remote nodes are shown. *)
Theorem updateRosNodes_filter_ignores (p : Provider) (n : RosNode) (ignoredNode : string) :
  ignoredNode ∈ IGNORED_NODES (settings p) ->
  JsString.includes ignoredNode (name n) = true ->
  updateRosNodes_filter p n = false.
Proof.
  intros Hin Hinc. unfold updateRosNodes_filter. cbv zeta.
  rewrite (ignored_found (name n) ignoredNode _ _ Hin Hinc). reflexivity.
Qed.

Section Pulls.

Variable rt : Runtime.

(** X17.  A trigger of [updateRosNodes] that arrives while an earlier one is
    still at work after the wait of one second is dropped: no call is made
    and the session is left as it is, bookkeeping of the wait apart. *)
Theorem updateRosNodes_dropped_while_busy (p : Provider) :
  "updateRosNodes" ∈ currentRequestList (dispatch p) ->
  "updateRosNodes" ∈ while_delayed rt (delays (dispatch p)) 1000
                       (currentRequestList (dispatch p)) ->
  updateRosNodes rt p
  = {| settled := Fulfilled tt; after := delayed rt p 1000; effects := [Timer 1000] |}.
Proof.
  intros H1 H2. unfold updateRosNodes.
  run_with (lockRequest_held rt _ _ H1 H2). rewrite run_mret. reflexivity.
Qed.

Lemma updateLaunchContent_then_nothing (p : Provider) :
  updateLaunchContent_then rt JFalse p
  = {| settled := Fulfilled true;
       after := with_link (set_daemon true)
                  (with_model (fun m => set_rosNodes (set_composable_tags rt (rosNodes m)) m)
                     (with_model (set_launchFiles []) p));
       effects := [EVENT_PROVIDER_LAUNCH_LIST [];
                   EVENT_PROVIDER_ROS_NODES (set_composable_tags rt (rosNodes (model p)))] |}.
Proof.
  unfold updateLaunchContent_then. run_primitives. reflexivity.
Qed.


Lemma updateLaunchContent_failed_run (q : Provider) (e : Exn) :
  exists q',
    ((if JsString.includes "wamp.error.no_such_procedure" (to_text e)
      then modify (with_link (set_daemon false))
      else mret tt);;
     modify (with_model (set_launchFiles []));;
     mret JFalse) q
    = {| settled := Fulfilled JFalse; after := with_model (set_launchFiles []) q';
         effects := [] |}
    /\ rosNodes (model q') = rosNodes (model q).
Proof.
  destruct (JsString.includes "wamp.error.no_such_procedure" (to_text e)).
  - exists (with_link (set_daemon false) q).
    run_with run_modify. run_with run_modify. rewrite run_mret. split; reflexivity.
  - exists q.
    run_with run_mret. run_with run_modify. rewrite run_mret. split; reflexivity.
Qed.

(** X18.  [updateLaunchContent] resolves with [true] also when the call has
    failed: the [then] handler runs on the [false] of the [catch] handler.
    The list of launch files is empty afterwards, the two events are
    emitted, and the session is marked as having a daemon, also when the
    failure was that the daemon does not know the procedure. *)
Theorem updateLaunchContent_after_failure (p : Provider) (e : Exn) :
  settled (makeCall rt URI.ROS_LAUNCH_GET_LIST [] true p) = RejectedWith e ->
  let r := updateLaunchContent rt p in
  settled r = Fulfilled true
  /\ daemon (link (after r)) = true
  /\ launchFiles (model (after r)) = []
  /\ (exists ev nodes, effects r = ev ++ [EVENT_PROVIDER_LAUNCH_LIST [];
                                            EVENT_PROVIDER_ROS_NODES nodes]).
Proof.
  intros Hfail r. subst r. unfold updateLaunchContent, updateLaunchContentFrom.
  fold (makeCall rt). rewrite run_bind, run_catch, Hfail.
  destruct (updateLaunchContent_failed_run
              (after (makeCall rt URI.ROS_LAUNCH_GET_LIST [] true p)) e)
    as (q' & Hrun & _).
  rewrite Hrun. cbn [settled after effects prepend].
  rewrite updateLaunchContent_then_nothing. cbn [settled after effects].
  split; [reflexivity|]. split; [reflexivity|]. split; [reflexivity|].
  eexists. eexists. reflexivity.
Qed.


(** X19.  A pull of the peer list whose call fails: the session goes to
    ERRORED with the error in the details, the pull resolves with [false],
    and the peers, the host names and the discovery flag are as before. *)
Theorem updateProviderList_after_failure (p : Provider) (e : Exn) :
  settled (makeCall rt URI.ROS_PROVIDER_GET_LIST [] true p) = RejectedWith e ->
  let r := updateProviderList rt p in
  settled r = Fulfilled false
  /\ connectionState (link (after r)) = ERRORED
  /\ (connectionState (link p) <> ERRORED ->
      errorDetails (link (after r))
      = "Provider [" +:+ this_name p +:+ "]: updateProviderList() result: " +:+ to_text e)
  /\ remoteProviders (model (after r)) = remoteProviders (model p)
  /\ hostnames (model (after r)) = hostnames (model p)
  /\ discovery (link (after r)) = discovery (link p).
Proof.
  intros Hfail r. subst r. unfold updateProviderList.
  rewrite run_bind, run_catch, Hfail.
  destruct (makeCall_frame rt URI.ROS_PROVIDER_GET_LIST [] true p) as (Hs & Hl & Hm & Hst).
  set (q := after (makeCall rt URI.ROS_PROVIDER_GET_LIST [] true p)) in *.
  run_with run_gets.
  assert (Hname : this_name q = this_name p) by (unfold this_name; rewrite Hs, Hm; reflexivity).
  rewrite Hname.
  set (details := "Provider [" +:+ this_name p +:+ "]: updateProviderList() result: "
                  +:+ to_text e).
  destruct (setConnectionState_frame ERRORED details q) as (F1 & F2 & F3 & F4 & F5 & F6 & F7 & F8).
  specialize (F3 ltac:(discriminate)).
  destruct (setConnectionState_state ERRORED details q) as (S1 & S2 & S3 & S4).
  rewrite run_bind, F1. cbn [settled after effects prepend].
  rewrite run_mret. cbn [settled after effects prepend length].
  rewrite bool_decide_eq_false_2 by (cbn; lia).
  rewrite run_mret. cbn [settled after effects prepend].
  rewrite F4, Hm, S4, Hl. rewrite Hl in S2. repeat split; assumption.
Qed.

End Pulls.

Lemma filter_all {A} (P : A -> Prop) `{forall x, Decision (P x)} (l : list A) :
  (forall x, P x) -> filter P l = l.
Proof.
  intros HP. induction l as [|x l IH]; [reflexivity|].
  rewrite filter_cons_True by apply HP. rewrite IH. reflexivity.
Qed.

Lemma filter_filter_both {A} (P Q R : A -> Prop) `{forall x, Decision (P x)}
    `{forall x, Decision (Q x)} `{forall x, Decision (R x)} (l : list A) :
  (forall x, R x <-> P x /\ Q x) -> filter P (filter Q l) = filter R l.
Proof.
  intros HR. induction l as [|x l IH]; [reflexivity|].
  destruct (decide (Q x)) as [HQ|HQ].
  - rewrite (filter_cons_True Q) by exact HQ.
    destruct (decide (P x)) as [HP|HP].
    + rewrite (filter_cons_True P) by exact HP.
      rewrite (filter_cons_True R) by (apply HR; tauto). rewrite IH. reflexivity.
    + rewrite (filter_cons_False P) by exact HP.
      rewrite (filter_cons_False R) by (rewrite HR; tauto). exact IH.
  - rewrite (filter_cons_False Q) by exact HQ.
    rewrite (filter_cons_False R) by (rewrite HR; tauto). exact IH.
Qed.

Section Removal.

Variable rt : Runtime.

Lemma surviving_filter : forall (rosProviders : list RosProviderState)
    (old : list RemoteProvider),
  surviving rt old rosProviders
  = filter (fun orp => url rt orp ∉ peer_url rt <$> peers rosProviders) old.
Proof.
  induction rosProviders as [|ps rest IH]; intros old; cbn [surviving peers List.filter].
  - cbn [fmap list_fmap]. symmetry. apply filter_all. intros orp. apply not_elem_of_nil.
  - destruct (origin ps); cbn [negb]; [apply IH|].
    rewrite IH. apply filter_filter_both.
    intros orp. fold (peers rest). rewrite fmap_cons, not_elem_of_cons. tauto.
Qed.

(** X20.  One pull of a non-empty peer list reports as removed exactly the
    provider objects of the pull before whose url is the url of no peer of
    the list, once each and in their order; it reports every peer of the
    list as discovered. *)
Theorem updateProviderList_removed (p : Provider) (rosProviders : list RosProviderState) :
  isAvailable p = true ->
  URI.ROS_PROVIDER_GET_LIST ∉ currentRequestList (dispatch p) ->
  rosProviders <> [] ->
  connection_call rt (calls (dispatch p)) URI.ROS_PROVIDER_GET_LIST []
  = Resolved (JProviderList rosProviders) ->
  let r := updateProviderList rt p in
  removed_events (effects r)
  = filter (fun orp => url rt orp ∉ peer_url rt <$> peers rosProviders)
      (remoteProviders (model p))
  /\ url rt <$> discovered_events (effects r) = peer_url rt <$> peers rosProviders.
Proof.
  intros Hav Hfree Hne Hcall r. subst r.
  destruct (updateProviderList_pull rt p rosProviders Hav Hfree Hne Hcall)
    as (_ & _ & Hd & Hr & _).
  rewrite Hr, Hd, surviving_filter. split; [reflexivity|].
  apply url_new_peers.
Qed.

End Removal.




Section HostNames.

Variable rt : Runtime.




End HostNames.

Section LaunchPulls.

Variable rt : Runtime.

Lemma updateLaunchContent_resolved (p : Provider) (v : JSONObject) :
  isAvailable p = true ->
  URI.ROS_LAUNCH_GET_LIST ∉ currentRequestList (dispatch p) ->
  connection_call rt (calls (dispatch p)) URI.ROS_LAUNCH_GET_LIST [] = Resolved v ->
  after (updateLaunchContent rt p)
  = after (updateLaunchContent_then rt v
             (unlocked URI.ROS_LAUNCH_GET_LIST (called (locked URI.ROS_LAUNCH_GET_LIST p)))).
Proof.
  intros Hav Hfree Hv. unfold updateLaunchContent, updateLaunchContentFrom.
  fold (makeCall rt). rewrite run_bind, run_catch.
  rewrite (makeCall_resolved rt _ _ p v Hav Hfree Hv).
  cbn [settled after effects prepend]. reflexivity.
Qed.

Lemma updateLaunchContent_then_declares (p : Provider) (bundle : LaunchContent)
    (launchNode : LaunchNode) (nm : string) :
  lc_nodes bundle = [launchNode] ->
  unique_name launchNode = Some nm ->
  JsString.truthy nm = true ->
  passes p bundle ->
  rosNodes (model p) = [] ->
  let p' := after (updateLaunchContent_then rt (JLaunchList [bundle]) p) in
  exists n', rosNodes (model p') = [n']
    /\ name n' = nm /\ status n' = ST_INACTIVE
    /\ diagnosticStatus n' = allocated (store p)
    /\ paths p' (launchPaths n') = [lc_path bundle]
    /\ history p' (diagnosticStatus n') = [].
Proof.
  intros Hln Hun Ht Hpass Hnodes p'. subst p'.
  set (launchFile := LaunchContent_new (this_id (settings p)) bundle).
  set (p0 := with_model (set_launchFiles [launchFile]) p).
  assert (Hstep : updateLaunchContent_node launchFile launchNode p0
                  = {| settled := Fulfilled tt;
                       after := declared launchFile launchNode nm p0; effects := [] |}).
  { apply updateLaunchContent_node_declares; [exact Hun | exact Ht |].
    change (rosNodes (model p0)) with (rosNodes (model p)). rewrite Hnodes. reflexivity. }
  pose proof (updateLaunchContent_then_single rt p bundle launchNode _ Hln Hpass Hstep) as Hthen.
  cbv zeta in Hthen. rewrite Hthen. cbn [after].
  set (n := inactive_node (allocated (store p0)) (this_id (settings p0)) (this_name p0) nm
              launchFile launchNode).
  destruct (set_composable_tags_singleton rt n) as [t Htags].
  exists (set_tags t n). split.
  { cbn [model rosNodes with_link with_model set_rosNodes declared add_path with_store
         alloc_node_after set_launchFiles].
    fold p0. fold n. change (rosNodes (model p0)) with (rosNodes (model p)).
    rewrite Hnodes. cbn [app]. exact Htags. }
  split; [reflexivity|]. split; [reflexivity|]. split; [reflexivity|].
  split.
  - unfold paths, declared, add_path, alloc_node_after, with_link, with_model, with_store.
    cbn [store launchPathSets]. fold n.
    change (launchPaths (set_tags t n)) with (launchPaths n).
    rewrite lookup_insert_eq. cbn [default from_option].
    unfold paths. cbn [store launchPathSets].
    change (launchPaths n) with (S (allocated (store p0))).
    rewrite lookup_insert_eq. cbn [default from_option].
    rewrite bool_decide_eq_false_2 by apply not_elem_of_nil. reflexivity.
  - unfold history, declared, add_path, alloc_node_after, with_link, with_model, with_store.
    cbn [store diagnosticArrays].
    change (diagnosticStatus (set_tags t n)) with (allocated (store p0)).
    rewrite lookup_insert_eq. reflexivity.
Qed.


Lemma updateLaunchContent_then_frame (p : Provider) (bundle : LaunchContent)
    (launchNode : LaunchNode) (q : Provider) :
  lc_nodes bundle = [launchNode] ->
  passes p bundle ->
  updateLaunchContent_node (LaunchContent_new (this_id (settings p)) bundle) launchNode
    (with_model (set_launchFiles [LaunchContent_new (this_id (settings p)) bundle]) p)
  = {| settled := Fulfilled tt; after := q; effects := [] |} ->
  let p' := after (updateLaunchContent_then rt (JLaunchList [bundle]) p) in
  settings p' = settings q /\ dispatch p' = dispatch q /\ store p' = store q
  /\ connection_connected (link p') = connection_connected (link q)
  /\ rosState (model p') = rosState (model q)
  /\ rosNodes (model p') = set_composable_tags rt (rosNodes (model q)).
Proof.
  intros Hln Hpass Hstep p'. subst p'.
  pose proof (updateLaunchContent_then_single rt p bundle launchNode _ Hln Hpass Hstep) as Hthen.
  cbv zeta in Hthen. rewrite Hthen. cbn [after]. repeat split.
Qed.

(** X22.  Two pulls of the launch files in succession that return the same
    launch file with one node declaration, on a session without nodes: the
    first pull adds the declared node as an INACTIVE node; the second finds
    it by its name and adds no second node, the node keeps the objects of
    its history and of its launch paths, and the path of the launch file is
    among its launch paths once. *)
Theorem updateLaunchContent_declares_once (p : Provider) (bundle : LaunchContent)
    (launchNode : LaunchNode) (nm : string) :
  isAvailable p = true ->
  URI.ROS_LAUNCH_GET_LIST ∉ currentRequestList (dispatch p) ->
  connection_call rt (calls (dispatch p)) URI.ROS_LAUNCH_GET_LIST []
  = Resolved (JLaunchList [bundle]) ->
  connection_call rt (S (calls (dispatch p))) URI.ROS_LAUNCH_GET_LIST []
  = Resolved (JLaunchList [bundle]) ->
  lc_nodes bundle = [launchNode] ->
  unique_name launchNode = Some nm ->
  JsString.truthy nm = true ->
  passes p bundle ->
  rosNodes (model p) = [] ->
  let p1 := after (updateLaunchContent rt p) in
  let p2 := after (updateLaunchContent rt p1) in
  exists n1 n2,
    rosNodes (model p1) = [n1] /\ rosNodes (model p2) = [n2]
    /\ name n1 = nm /\ status n1 = ST_INACTIVE
    /\ name n2 = nm /\ status n2 = ST_INACTIVE
    /\ diagnosticStatus n2 = diagnosticStatus n1
    /\ launchPaths n2 = launchPaths n1
    /\ paths p2 (launchPaths n2) = [lc_path bundle].
Proof.
  intros Hav Hfree Hcall1 Hcall2 Hln Hun Ht Hpass Hnodes p1 p2. subst p2 p1.
  rewrite (updateLaunchContent_resolved p _ Hav Hfree Hcall1).
  set (q := unlocked URI.ROS_LAUNCH_GET_LIST (called (locked URI.ROS_LAUNCH_GET_LIST p))).
  set (launchFile := LaunchContent_new (this_id (settings q)) bundle).
  set (q0 := with_model (set_launchFiles [launchFile]) q).
  assert (Hstep : updateLaunchContent_node launchFile launchNode q0
                  = {| settled := Fulfilled tt;
                       after := declared launchFile launchNode nm q0; effects := [] |}).
  { apply updateLaunchContent_node_declares; [exact Hun | exact Ht |].
    change (rosNodes (model q0)) with (rosNodes (model p)). rewrite Hnodes. reflexivity. }
  destruct (updateLaunchContent_then_frame q bundle launchNode _ Hln Hpass Hstep)
    as (F1 & F2 & F3 & F4 & F5 & F6).
  destruct (updateLaunchContent_then_declares q bundle launchNode nm Hln Hun Ht Hpass Hnodes)
    as (n1 & N1 & N2 & N3 & N4 & N5 & N6).
  set (p1 := after (updateLaunchContent_then rt (JLaunchList [bundle]) q)) in *.
  assert (Hav1 : isAvailable p1 = true) by (unfold isAvailable; rewrite F4; exact Hav).
  assert (Hfree1 : URI.ROS_LAUNCH_GET_LIST ∉ currentRequestList (dispatch p1)).
  { rewrite F2.
    change (dispatch (declared launchFile launchNode nm q0)) with (dispatch q).
    unfold q, unlocked, with_dispatch, set_currentRequestList.
    cbn [dispatch currentRequestList].
    rewrite elem_of_difference, elem_of_singleton. intros [_ H]. exact (H eq_refl). }
  assert (Hcalls1 : calls (dispatch p1) = S (calls (dispatch p))) by (rewrite F2; reflexivity).
  rewrite (updateLaunchContent_resolved p1 (JLaunchList [bundle]) Hav1 Hfree1)
    by (rewrite Hcalls1; exact Hcall2).
  set (q1 := unlocked URI.ROS_LAUNCH_GET_LIST (called (locked URI.ROS_LAUNCH_GET_LIST p1))).
  assert (Hpass1 : passes q1 bundle).
  { unfold passes. change (rosState (model q1)) with (rosState (model p1)). rewrite F5.
    exact Hpass. }
  set (launchFile1 := LaunchContent_new (this_id (settings q1)) bundle).
  set (q2 := with_model (set_launchFiles [launchFile1]) q1).
  assert (Hstep1 : updateLaunchContent_node launchFile1 launchNode q2
                   = {| settled := Fulfilled tt;
                        after := attached launchFile1 launchNode nm 0 n1 q2;
                        effects := [] |}).
  { apply updateLaunchContent_node_attaches; [exact Hun | exact Ht |].
    change (rosNodes (model q2)) with (rosNodes (model p1)). rewrite N1.
    cbn [findIndex]. rewrite N2, bool_decide_eq_true_2 by reflexivity. reflexivity. }
  destruct (updateLaunchContent_then_frame q1 bundle launchNode _ Hln Hpass1 Hstep1)
    as (G1 & G2 & G3 & G4 & G5 & G6).
  set (n2 := set_launch (nodeParameters nm launchFile1) launchNode
               (associations_of nm launchFile1) n1).
  destruct (set_composable_tags_singleton rt n2) as [t Htags].
  exists n1, (set_tags t n2).
  split; [exact N1|]. split.
  { rewrite G6. unfold attached, update_node, add_path, with_store, with_model, set_rosNodes.
    cbn [model rosNodes].
    change (rosNodes (model q2)) with (rosNodes (model p1)). rewrite N1.
    cbn [lookup list_lookup insert list_insert]. exact Htags. }
  split; [exact N2|]. split; [exact N3|]. split; [exact N2|]. split; [exact N3|].
  split; [reflexivity|]. split; [reflexivity|].
  unfold paths. rewrite G3.
  unfold attached, update_node, add_path, with_store, with_model.
  cbn [store launchPathSets].
  change (launchPaths (set_tags t n2)) with (launchPaths n1).
  rewrite lookup_insert_eq. cbn [default from_option].
  change (paths q2 (launchPaths n1)) with (paths p1 (launchPaths n1)).
  rewrite N5. rewrite bool_decide_eq_true_2 by (apply list_elem_of_here). reflexivity.
Qed.

End LaunchPulls.

Section DiagnosticsRequest.

Variable rt : Runtime.

(** X24.  An update of the diagnostics on request whose call fails resolves
    with [false] and leaves the node list and every history as they are. *)
Theorem updateDiagnostics_request_failed (p : Provider) (e : Exn) :
  settled (makeCall rt URI.ROS_PROVIDER_GET_DIAGNOSTICS [] true p) = RejectedWith e ->
  let r := updateDiagnostics rt None p in
  settled r = Fulfilled false
  /\ rosNodes (model (after r)) = rosNodes (model p)
  /\ (forall ref, history (after r) ref = history p ref).
Proof.
  intros Hfail r. subst r. unfold updateDiagnostics, getDiagnostics.
  rewrite run_bind, run_catch, Hfail. run_primitives.
  destruct (makeCall_frame rt URI.ROS_PROVIDER_GET_DIAGNOSTICS [] true p)
    as (_ & _ & Hm & Hst).
  rewrite Hm. split; [reflexivity|]. split; [reflexivity|].
  intros ref. unfold history. rewrite Hst. reflexivity.
Qed.

End DiagnosticsRequest.

Lemma makeCall_recovers_witness :
  let r := makeCall Examples.recovering "ros.nodes.get_list" [] true (Examples.provider0 2 ∅) in
  settled r = Fulfilled JTrue
  /\ invocations (effects r) = 3%nat
  /\ waits (effects r) = [1000; 1000]
  /\ ("ros.nodes.get_list" ∉ currentRequestList (dispatch (after r)))
  /\ same_but_dispatch (Examples.provider0 2 ∅) (after r).
Proof.
  apply (makeCall_recovers Examples.recovering "ros.nodes.get_list" []
           (Examples.provider0 2 ∅) 2 JTrue).
  - reflexivity.
  - apply not_elem_of_empty.
  - simpl. lia.
  - intros j Hj. destruct j as [|[|j]]; [reflexivity | reflexivity | lia].
  - reflexivity.
Defined.

Lemma makeCall_keeps_lock_on_braces_witness :
  let r := makeCall Examples.reporting "ros.nodes.get_list" [] true (Examples.provider0 2 ∅) in
  settled r = RejectedWith (ExnError "SyntaxError" "Unexpected token")
  /\ invocations (effects r) = 1%nat
  /\ "ros.nodes.get_list" ∈ currentRequestList (dispatch (after r)).
Proof.
  apply (makeCall_keeps_lock_on_braces Examples.reporting "ros.nodes.get_list" []
           (Examples.provider0 2 ∅) "{'error': 'wamp.error.runtime_error'}").
  - reflexivity.
  - apply not_elem_of_empty.
  - reflexivity.
  - reflexivity.
Defined.

Lemma makeCall_proceeds_after_wait_witness :
  let p := Examples.provider0 2 {["ros.nodes.get_list"]} in
  let r := makeCall Examples.releasing "ros.nodes.get_list" [] true p in
  settled r = Fulfilled JTrue
  /\ (exists rest, effects r = Timer 1000 :: EVENT_PROVIDER_ACTIVITY true "ros.nodes.get_list"
                               :: ConnectionCall "ros.nodes.get_list" [] :: rest
                   /\ invocations rest = 0%nat /\ waits rest = [])
  /\ ("ros.nodes.get_list" ∉ currentRequestList (dispatch (after r))).
Proof.
  apply (makeCall_proceeds_after_wait Examples.releasing "ros.nodes.get_list" []
           (Examples.provider0 2 {["ros.nodes.get_list"]}) JTrue).
  - reflexivity.
  - vm_compute. reflexivity.
  - apply not_elem_of_empty.
  - reflexivity.
Defined.

Lemma makeCall_thrown_closed_is_terminal_witness :
  let p := Examples.provider0 2 ∅ in
  let r := makeCall Examples.throwing_closed "ros.nodes.get_list" [] true p in
  settled r = RejectedWith (request_failed_error p "ros.nodes.get_list"
                              (ExnString "Connection is closed"))
  /\ invocations (effects r) = 1%nat.
Proof.
  apply (makeCall_thrown_closed_is_terminal Examples.throwing_closed (Examples.provider0 2 ∅)
           "ros.nodes.get_list" []).
  - reflexivity.
  - apply not_elem_of_empty.
  - reflexivity.
Defined.

Lemma startSubscriber_stopSubscriber_witness :
  let p := Examples.provider0 2 ∅ in
  let r1 := startSubscriber Examples.timing_out Examples.chatter p in
  let r2 := stopSubscriber Examples.timing_out "/chatter" (after r1) in
  echoTopics (model (after r2)) = [].
Proof.
  apply (startSubscriber_stopSubscriber Examples.timing_out Examples.chatter
           (Examples.provider0 2 ∅)).
  apply not_elem_of_nil.
Defined.

Lemma updateRosNodes_filter_ignores_witness :
  updateRosNodes_filter Examples.ignoring
    (node_of_raw 0%nat (Examples.talker "/talker" "h1:11311")) = false.
Proof.
  apply (updateRosNodes_filter_ignores Examples.ignoring
           (node_of_raw 0%nat (Examples.talker "/talker" "h1:11311")) "talk").
  - apply list_elem_of_here.
  - reflexivity.
Defined.

Lemma updateRosNodes_dropped_while_busy_witness :
  let p := Examples.provider0 2 {["updateRosNodes"]} in
  updateRosNodes Examples.timing_out p
  = {| settled := Fulfilled tt; after := delayed Examples.timing_out p 1000;
       effects := [Timer 1000] |}.
Proof.
  apply (updateRosNodes_dropped_while_busy Examples.timing_out
           (Examples.provider0 2 {["updateRosNodes"]})).
  - vm_compute. reflexivity.
  - vm_compute. reflexivity.
Defined.

Lemma updateLaunchContent_after_failure_witness :
  let r := updateLaunchContent Examples.timing_out (Examples.provider0 2 ∅) in
  settled r = Fulfilled true
  /\ daemon (link (after r)) = true
  /\ launchFiles (model (after r)) = []
  /\ (exists ev nodes, effects r = ev ++ [EVENT_PROVIDER_LAUNCH_LIST [];
                                            EVENT_PROVIDER_ROS_NODES nodes]).
Proof.
  apply (updateLaunchContent_after_failure Examples.timing_out (Examples.provider0 2 ∅)
           (max_attempts_error (Examples.provider0 2 ∅) URI.ROS_LAUNCH_GET_LIST)).
  vm_compute. reflexivity.
Defined.

Lemma updateProviderList_after_failure_witness :
  let p := Examples.provider0 2 ∅ in
  let r := updateProviderList Examples.timing_out p in
  settled r = Fulfilled false
  /\ connectionState (link (after r)) = ERRORED
  /\ (connectionState (link p) <> ERRORED ->
      errorDetails (link (after r))
      = "Provider [" +:+ this_name p +:+ "]: updateProviderList() result: "
        +:+ to_text (max_attempts_error p URI.ROS_PROVIDER_GET_LIST))
  /\ remoteProviders (model (after r)) = remoteProviders (model p)
  /\ hostnames (model (after r)) = hostnames (model p)
  /\ discovery (link (after r)) = discovery (link p).
Proof.
  apply (updateProviderList_after_failure Examples.timing_out (Examples.provider0 2 ∅)
           (max_attempts_error (Examples.provider0 2 ∅) URI.ROS_PROVIDER_GET_LIST)).
  vm_compute. reflexivity.
Defined.

Lemma updateDiagnostics_request_failed_witness :
  let p := Examples.provider0 2 ∅ in
  let r := updateDiagnostics Examples.timing_out None p in
  settled r = Fulfilled false
  /\ rosNodes (model (after r)) = rosNodes (model p)
  /\ (forall ref, history (after r) ref = history p ref).
Proof.
  apply (updateDiagnostics_request_failed Examples.timing_out (Examples.provider0 2 ∅)
           (max_attempts_error (Examples.provider0 2 ∅) URI.ROS_PROVIDER_GET_DIAGNOSTICS)).
  vm_compute. reflexivity.
Defined.

Lemma updateProviderList_removed_witness :
  let rt := Examples.forgetting in
  let p := after (updateProviderList rt (Examples.provider0 10 ∅)) in
  let r := updateProviderList rt p in
  (url rt <$> remoteProviders (model p) = ["ws://h2:7777"; "ws://h3:7778"]
   /\ url rt <$> removed_events (effects r) = ["ws://h3:7778"])
  /\ removed_events (effects r)
     = filter (fun orp => url rt orp
                          ∉ peer_url rt <$> peers [Examples.self_h1; Examples.peer_h2])
         (remoteProviders (model p))
  /\ url rt <$> discovered_events (effects r)
     = peer_url rt <$> peers [Examples.self_h1; Examples.peer_h2].
Proof.
  split; [split; vm_compute; reflexivity|].
  apply (updateProviderList_removed Examples.forgetting
           (after (updateProviderList Examples.forgetting (Examples.provider0 10 ∅)))
           [Examples.self_h1; Examples.peer_h2]).
  - reflexivity.
  - apply not_elem_of_decided. vm_compute. reflexivity.
  - discriminate.
  - reflexivity.
Defined.


Lemma updateLaunchContent_declares_once_witness :
  let rt := Examples.launching "/talker" "h1:11311" in
  let p1 := after (updateLaunchContent rt (Examples.provider0 2 ∅)) in
  let p2 := after (updateLaunchContent rt p1) in
  exists n1 n2,
    rosNodes (model p1) = [n1] /\ rosNodes (model p2) = [n2]
    /\ name n1 = "/talker" /\ status n1 = ST_INACTIVE
    /\ name n2 = "/talker" /\ status n2 = ST_INACTIVE
    /\ diagnosticStatus n2 = diagnosticStatus n1
    /\ launchPaths n2 = launchPaths n1
    /\ paths p2 (launchPaths n2) = [lc_path Examples.demo_launch].
Proof.
  apply (updateLaunchContent_declares_once (Examples.launching "/talker" "h1:11311")
           (Examples.provider0 2 ∅) Examples.demo_launch Examples.talker_launch "/talker").
  - reflexivity.
  - apply not_elem_of_empty.
  - reflexivity.
  - reflexivity.
  - reflexivity.
  - reflexivity.
  - reflexivity.
  - left. reflexivity.
  - reflexivity.
Defined.
